(** * Scene generator: prompt-to-layout inference and layered compositing

    A shallow embedding of [app.py].  Python [int] is [Z] (unbounded), [//]
    is [Z.div] (both round towards minus infinity) guarded against a zero
    divisor, [float] is IEEE binary64 as specified by [SpecFloat], [str] is
    [string] and a raised exception is the [Raise] branch of [result].

    A [str] is modelled by its UTF-8 encoding: a [string] is the sequence
    of its bytes, ASCII text is itself, and an ASCII keyword occurs in a
    text exactly where its bytes occur in the bytes of the text. *)

From Stdlib Require Import ZArith List String Ascii Bool Lia.
From Stdlib Require Import Sorting.Permutation Sorting.Sorted.
From Stdlib Require Import Floats.SpecFloat.
From Stdlib Require Import Numbers.DecimalString.
Import ListNotations.

Local Open Scope list_scope.
Local Open Scope string_scope.
Local Open Scope Z_scope.

(* ------------------------------------------------------------------ *)
(** ** Exceptions and results *)

(** The exception classes the program can meet.  [KeyboardInterrupt],
    [SystemExit] and [GeneratorExit] derive from [BaseException] only; every
    other class derives from [Exception]. *)
Inductive exn_class : Type :=
| ZeroDivisionError
| KeyError
| OverflowError
| ValueError
| UnidentifiedImageError
| ImportError
| OSError
| MemoryError
| AttributeError
| StreamlitAPIException
| KeyboardInterrupt
| SystemExit
| GeneratorExit.

Record exn : Type := mk_exn { exn_cls : exn_class; exn_str : string }.

(** [isinstance(e, Exception)]. *)
Definition is_Exception (e : exn) : bool :=
  match exn_cls e with
  | KeyboardInterrupt | SystemExit | GeneratorExit => false
  | _ => true
  end.

Inductive result (A : Type) : Type :=
| Ok (a : A)
| Raise (e : exn).
Arguments Ok {A} a.
Arguments Raise {A} e.

Definition bind {A B : Type} (r : result A) (k : A -> result B) : result B :=
  match r with
  | Ok a => k a
  | Raise e => Raise e
  end.

Notation "x <- r ;; k" := (bind r (fun x => k))
  (at level 61, r at next level, right associativity).

Definition raised {A : Type} (r : result A) : bool :=
  match r with Ok _ => false | Raise _ => true end.

(** [a // b] on integers. *)
Definition floordiv (a b : Z) : result Z :=
  if b =? 0
  then Raise (mk_exn ZeroDivisionError "integer division or modulo by zero")
  else Ok (a / b).

(* ------------------------------------------------------------------ *)
(** ** Strings *)

Definition ascii_lower (c : ascii) : ascii :=
  let n := N_of_ascii c in
  if ((65 <=? n) && (n <=? 90))%N then ascii_of_N (n + 32) else c.

(** [p.startswith(key)]. *)
Fixpoint startswith (key p : string) : bool :=
  match key, p with
  | EmptyString, _ => true
  | String a key', String b p' => Ascii.eqb a b && startswith key' p'
  | String _ _, EmptyString => false
  end.

(** [key in p]: [key] starts at some position of [p]. *)
Fixpoint contains (key p : string) : bool :=
  startswith key p ||
  match p with
  | EmptyString => false
  | String _ p' => contains key p'
  end.

(** The characters outside ASCII whose lower-casing has an ASCII character
    in it, in UTF-8: KELVIN SIGN (U+212A), which becomes "k", and LATIN
    CAPITAL LETTER I WITH DOT ABOVE (U+0130), which becomes "i" followed by
    COMBINING DOT ABOVE (U+0307). *)
Definition KELVIN_SIGN : string :=
  String "226" (String "132" (String "170" "")).
Definition CAPITAL_I_WITH_DOT : string :=
  String "196" (String "176" "").
Definition COMBINING_DOT : string :=
  String "204" (String "135" "").

(** [s.lower()], from left to right; [skip] counts the bytes still to pass
    of a character that is lower-cased already.  ASCII capitals become small
    letters and the two characters above become what Unicode says.  Any
    other character outside ASCII is left as it is: Python may put another
    character outside ASCII in its place, which changes nothing to where
    ASCII text occurs. *)
Fixpoint lower_from (skip : nat) (s : string) : string :=
  match s with
  | EmptyString => EmptyString
  | String c s' =>
      match skip with
      | S n => lower_from n s'
      | O =>
          if startswith KELVIN_SIGN s
          then String "k" (lower_from 2%nat s')
          else if startswith CAPITAL_I_WITH_DOT s
          then String "i" (COMBINING_DOT ++ lower_from 1%nat s')
          else String (ascii_lower c) (lower_from 0%nat s')
      end
  end.

Definition lower (s : string) : string := lower_from 0%nat s.

(** [prompt or ""]: a missing prompt reads as the empty string. *)
Definition or_empty (prompt : option string) : string :=
  match prompt with
  | Some s => s
  | None => ""
  end.

(** [str(n)] for an integer. *)
Definition str_of_int (n : Z) : string := NilEmpty.string_of_int (Z.to_int n).

(* ------------------------------------------------------------------ *)
(** ** Keyword tables *)

Definition POSITION_KEYWORDS : list string :=
  [ "top-left"; "top-right"; "bottom-left"; "bottom-right";
    "left"; "right"; "top"; "bottom"; "center"; "middle" ].

Definition ACTION_KEYWORDS : list string :=
  [ "walking"; "running"; "sitting"; "standing"; "waving"; "talking";
    "reading"; "pointing"; "dancing"; "jumping"; "holding"; "looking" ].

(* ------------------------------------------------------------------ *)
(** ** Position inference *)

(** A dict literal, in source order; [getitem] is [d[key]]. *)
Definition dict (V : Type) : Type := list (string * V).

Fixpoint getitem {V : Type} (d : dict V) (key : string) : result V :=
  match d with
  | [] => Raise (mk_exn KeyError key)
  | (k, v) :: d' => if String.eqb k key then Ok v else getitem d' key
  end.

Definition pad : Z := 40.

Definition spots (W H : Z) : dict (Z * Z) :=
  [ ("top-left", (pad, pad));
    ("top-right", (W - pad, pad));
    ("bottom-left", (pad, H - pad));
    ("bottom-right", (W - pad, H - pad));
    ("left", (pad, H / 2));
    ("right", (W - pad, H / 2));
    ("top", (W / 2, pad));
    ("bottom", (W / 2, H - pad));
    ("center", (W / 2, H / 2));
    ("middle", (W / 2, H / 2)) ].

(** The keyword the [for key in POSITION_KEYWORDS] loop returns on: the
    first one, in list order, that occurs in the lower-cased prompt. *)
Definition matched_keyword (p : string) : option string :=
  find (fun key => contains key p) POSITION_KEYWORDS.

Definition infer_position_from_prompt
    (prompt : option string) (W H index total : Z) : result (Z * Z) :=
  let p := lower (or_empty prompt) in
  match matched_keyword p with
  | Some key => getitem (spots W H) key
  | None =>
      q <- floordiv ((index + 1) * (W - 2 * pad)) (total + 1) ;;
      let x := pad + q in
      let y := H - pad in
      Ok (x, y)
  end.

(** ** Action extraction *)

Definition extract_actions (prompt : option string) : list string :=
  let p := lower (or_empty prompt) in
  filter (fun v => contains v p) ACTION_KEYWORDS.

(* ------------------------------------------------------------------ *)
(** ** Floating point: IEEE binary64 *)

Definition float : Type := spec_float.
Definition binary64_prec : Z := 53.
Definition binary64_emax : Z := 1024.

(** [float(n)]: the nearest binary64 value, ties to even; Python raises
    [OverflowError] where the rounding would give an infinity. *)
Definition float_of_int (n : Z) : result float :=
  match binary_normalize binary64_prec binary64_emax n 0 false with
  | S754_infinity _ =>
      Raise (mk_exn OverflowError "int too large to convert to float")
  | f => Ok f
  end.

Definition float_mul (a b : float) : float :=
  SFmul binary64_prec binary64_emax a b.
Definition float_sub (a b : float) : float :=
  SFsub binary64_prec binary64_emax a b.
Definition float_div (a b : float) : float :=
  SFdiv binary64_prec binary64_emax a b.

(** [n * f] with an [int] on the left: the integer is converted first. *)
Definition int_mul_float (n : Z) (f : float) : result float :=
  a <- float_of_int n ;; Ok (float_mul a f).

(** [int(f)]: truncation towards zero; NaN and the infinities raise. *)
Definition int_of_float (f : float) : result Z :=
  match f with
  | S754_zero _ => Ok 0
  | S754_finite s m e =>
      let magnitude := Z.shiftl (Z.pos m) e in
      Ok (if s then - magnitude else magnitude)
  | S754_infinity _ =>
      Raise (mk_exn OverflowError "cannot convert float infinity to integer")
  | S754_nan =>
      Raise (mk_exn ValueError "cannot convert float NaN to integer")
  end.

(** The integer part of a finite float in the sense of [math.floor]: the
    greatest integer below or equal to its exact value. *)
Definition float_floor (f : float) : option Z :=
  match f with
  | S754_zero _ => Some 0
  | S754_finite s m e => Some (Z.shiftl (if s then Z.neg m else Z.pos m) e)
  | _ => None
  end.

(** [f > 0.0]. *)
Definition float_pos (f : float) : bool :=
  match f with
  | S754_finite false _ _ | S754_infinity false => true
  | _ => false
  end.

(** The literal [0.50]. *)
Definition float_0_5 : float := S754_finite false 4503599627370496 (-53).

(** [k / 100.0], the scale the slider sets for [k] percent. *)
Definition percent (k : Z) : float :=
  match float_of_int k, float_of_int 100 with
  | Ok a, Ok b => float_div a b
  | _, _ => S754_nan
  end.

(** A float that is not below zero: a zero of either sign, a positive
    finite value, plus infinity or NaN. *)
Definition not_negative (f : float) : Prop :=
  match f with
  | S754_finite true _ _ | S754_infinity true => False
  | _ => True
  end.

(** [m * 2^k] on positive numbers, for [k >= 0]. *)
Definition pshift (m : positive) (k : Z) : positive :=
  match k with
  | Z.pos p => Pos.iter xO m p
  | _ => m
  end.

(** The number of binary digits of a positive number. *)
Definition digits (m : positive) : Z := Z.pos (digits2_pos m).

(** The binary64 float of value [m * 2^e] ([- m * 2^e] when [s] is set), for
    a positive [m] of at most 53 digits: the mantissa is [m] shifted up to
    53 digits. *)
Definition dyadic (s : bool) (m : positive) (e : Z) : float :=
  S754_finite s (pshift m (53 - digits m)) (digits m + e - 53).

(** A scale as the program meets it: a finite float above zero and below
    [2^53] (a mantissa of at most 53 digits, an exponent of at most zero). *)
Definition ordinary_scale (s : float) : bool :=
  match s with
  | S754_finite false m e => (digits m <=? 53) && (e <=? 0)
  | _ => false
  end.

(** The floor of the binary64 product [n * s], where there is one. *)
Definition floor_of_product (n : Z) (s : float) : option Z :=
  match int_mul_float n s with
  | Ok r => float_floor r
  | Raise _ => None
  end.


(** [f] holds of [0], ..., [n - 1]. *)
Fixpoint all_below_nat (n : nat) (f : Z -> bool) : bool :=
  match n with
  | O => true
  | S n' => f (Z.of_nat n') && all_below_nat n' f
  end.

Definition all_below (n : Z) (f : Z -> bool) : bool :=
  all_below_nat (Z.to_nat n) f.

(** [w2, h2] of [scale_image]. *)
Definition scaled_size (w h : Z) (scale : float) : result (Z * Z) :=
  fw <- int_mul_float w scale ;;
  iw <- int_of_float fw ;;
  let w2 := Z.max 1 iw in
  fh <- int_mul_float h scale ;;
  ih <- int_of_float fh ;;
  let h2 := Z.max 1 ih in
  Ok (w2, h2).

(** [a / b] on integers, the true division.  Operands below [2^53] in
    magnitude are binary64 values and the quotient is rounded once, as
    Python does; for larger operands Python rounds the exact quotient, which
    this model does not follow (nothing below goes that far). *)
Definition int_truediv (a b : Z) : result float :=
  if b =? 0 then Raise (mk_exn ZeroDivisionError "division by zero")
  else
    fa <- float_of_int a ;;
    fb <- float_of_int b ;;
    Ok (float_div fa fb).

(** [n - f] with an [int] on the left. *)
Definition int_sub_float (n : Z) (f : float) : result float :=
  a <- float_of_int n ;; Ok (float_sub a f).

(** The two assignments of [paste_rgba]:
    [x = int(x_center - ow / 2)] and [y = int(y_bottom - oh)]. *)
Definition paste_dest (ow oh x_center y_bottom : Z) : result (Z * Z) :=
  half <- int_truediv ow 2 ;;
  d <- int_sub_float x_center half ;;
  x <- int_of_float d ;;
  let y := y_bottom - oh in
  Ok (x, y).

(* ------------------------------------------------------------------ *)
(** ** The imaging library *)

Definition bytes : Type := list Byte.byte.
Definition rgba : Type := (Z * Z * Z * Z)%type.

Definition alpha (c : rgba) : Z := let '(_, _, _, a) := c in a.

(** What the program uses of Pillow.  Every call may raise.  The laws are
    the documented behaviour the proofs rely on: an image that [resize]
    returns has the requested size, [mirror] and [convert] keep the size,
    [convert] yields the requested mode, a new image has the given size and
    colour everywhere, and [alpha_composite] keeps the size of the base,
    leaves the pixels outside the overlay alone and shows the overlay's
    pixel wherever that pixel is opaque.  Sizes are never negative. *)
Class Pillow : Type := {
  Image : Type;
  size : Image -> Z * Z;
  mode : Image -> string;
  (** [im.getpixel(xy)], [None] outside the image. *)
  getpixel : Image -> Z * Z -> option rgba;
  (** [Image.open(io.BytesIO(b))]. *)
  Image_open : bytes -> result Image;
  convert : Image -> string -> result Image;
  Image_new : string -> Z * Z -> rgba -> result Image;
  (** [im.resize(size, Image.LANCZOS)]. *)
  resize : Image -> Z * Z -> result Image;
  (** [ImageOps.mirror(im)]. *)
  mirror : Image -> result Image;
  (** [base.alpha_composite(overlay, dest)]: the base after the call. *)
  alpha_composite : Image -> Image -> Z * Z -> result Image;
  (** [im.save(buff, format=fmt); buff.getvalue()]. *)
  save : Image -> string -> result bytes;

  size_nonneg : forall im, 0 <= fst (size im) /\ 0 <= snd (size im);
  resize_size : forall im wh im',
    resize im wh = Ok im' -> size im' = wh;
  resize_mode : forall im wh im',
    resize im wh = Ok im' -> mode im' = mode im;
  mirror_size : forall im im',
    mirror im = Ok im' -> size im' = size im;
  mirror_mode : forall im im',
    mirror im = Ok im' -> mode im' = mode im;
  convert_size : forall im m im',
    convert im m = Ok im' -> size im' = size im;
  convert_mode : forall im m im',
    convert im m = Ok im' -> mode im' = m;
  new_size : forall m wh c im,
    Image_new m wh c = Ok im -> size im = wh;
  new_pixel : forall m wh c im p c',
    Image_new m wh c = Ok im -> getpixel im p = Some c' -> c' = c;
  composite_size : forall base overlay dest base',
    alpha_composite base overlay dest = Ok base' -> size base' = size base;
  composite_outside : forall base overlay dest base' px py,
    alpha_composite base overlay dest = Ok base' ->
    getpixel overlay (px - fst dest, py - snd dest) = None ->
    getpixel base' (px, py) = getpixel base (px, py);
  composite_opaque : forall base overlay dest base' px py c,
    alpha_composite base overlay dest = Ok base' ->
    getpixel overlay (px - fst dest, py - snd dest) = Some c ->
    alpha c = 255 ->
    0 <= px < fst (size base) /\ 0 <= py < snd (size base) ->
    getpixel base' (px, py) = Some c
}.

Section Imaging.
Context {PIL : Pillow}.

Definition bytes_to_image (file_bytes : bytes) : result Image :=
  im <- Image_open file_bytes ;; convert im "RGBA".

Definition image_to_bytes (img : Image) (fmt : string) : result bytes :=
  save img fmt.

Definition scale_image (img : Image) (scale : float) : result Image :=
  let '(w, h) := size img in
  wh <- scaled_size w h scale ;;
  resize img wh.

(** [base] after [paste_rgba(base, overlay, x_center, y_bottom)]. *)
Definition paste_rgba (base overlay : Image) (x_center y_bottom : Z)
    : result Image :=
  let '(ow, oh) := size overlay in
  dest <- paste_dest ow oh x_center y_bottom ;;
  alpha_composite base overlay dest.

Definition ensure_rgba (img : Image) : result Image :=
  if String.eqb (mode img) "RGBA" then Ok img else convert img "RGBA".

Definition flip_h_if_needed (img : Image) (flip_h : bool) : result Image :=
  if flip_h then mirror img else Ok img.

(* ------------------------------------------------------------------ *)
(** ** Data model *)

Record Character : Type := mk_Character {
  name : string;
  raw_bytes : bytes;
  x : Z;
  y : Z;
  scale : float;
  flip_h : bool;
  actions : list string;
  z : Z
}.

Definition as_image (self : Character) : result Image :=
  img <- bytes_to_image (raw_bytes self) ;;
  img <- flip_h_if_needed img (flip_h self) ;;
  img <- scale_image img (scale self) ;;
  ensure_rgba img.

(* ------------------------------------------------------------------ *)
(** ** Compositor *)

(** [sorted(l, key=key)]: Python's sort is stable, and a stable sort has
    one possible result (see [stable_sort_unique]); insertion from the right
    computes it. *)
Fixpoint insert_by {A : Type} (key : A -> Z) (a : A) (l : list A) : list A :=
  match l with
  | [] => [a]
  | b :: l' => if key a <=? key b then a :: l else b :: insert_by key a l'
  end.

Fixpoint sorted {A : Type} (key : A -> Z) (l : list A) : list A :=
  match l with
  | [] => []
  | a :: l' => insert_by key a (sorted key l')
  end.

(** The body of [for ch in ...: sprite = ch.as_image(); paste_rgba(...)]. *)
Definition draw_character (composite : Image) (ch : Character) : result Image :=
  sprite <- as_image ch ;;
  paste_rgba composite sprite (x ch) (y ch).

Fixpoint draw_characters (composite : Image) (chs : list Character)
    : result Image :=
  match chs with
  | [] => Ok composite
  | ch :: rest =>
      composite <- draw_character composite ch ;;
      draw_characters composite rest
  end.

(** The scene preview: a fresh canvas, the background, then the characters
    in z-order. *)
Definition compose (canvas_w canvas_h : Z) (bg_img : Image)
    (characters : list Character) : result Image :=
  composite <- Image_new "RGBA" (canvas_w, canvas_h) (0, 0, 0, 0) ;;
  composite <- alpha_composite composite bg_img (0, 0) ;;
  draw_characters composite (sorted z characters).

End Imaging.

(* ------------------------------------------------------------------ *)
(** ** The script: session state and the page it renders *)

Section Script.
Context {PIL : Pillow}.

(** A value handed to [json.dumps]. *)
#[warnings="-register-all"]
Inductive json : Type :=
| JStr (s : string)
| JInt (n : Z)
| JFloat (f : float)
| JBool (b : bool)
| JList (l : list json)
| JDict (d : list (string * json)).

Inductive payload : Type :=
| Data_bytes (b : bytes)
| Data_json (j : json).

(** The Streamlit calls that put something on the page. *)
Inductive Widget : Type :=
| st_success (msg : string)
| st_toast (msg : string)
| st_error (msg : string)
| st_image (img : Image) (caption : string)
| st_download_button (label : string) (data : payload)
    (file_name mime : string) (disabled : bool).

(** [characters] is [st.session_state.characters]; [page] collects the
    widgets in the order the script emits them. *)
Record World : Type := mk_World {
  characters : list Character;
  page : list Widget
}.

(** A piece of the script: it may raise, and the world it leaves behind is
    kept either way. *)
Definition Script (A : Type) : Type := World -> result A * World.

Definition ret {A : Type} (a : A) : Script A := fun w => (Ok a, w).

Definition sbind {A B : Type} (c : Script A) (k : A -> Script B) : Script B :=
  fun w =>
    match c w with
    | (Ok a, w') => k a w'
    | (Raise e, w') => (Raise e, w')
    end.

Notation "x <~ c ;; k" := (sbind c (fun x => k))
  (at level 61, c at next level, right associativity).
Notation "c ;;; k" := (sbind c (fun _ => k))
  (at level 61, right associativity).

Definition lift {A : Type} (r : result A) : Script A := fun w => (r, w).

Definition get_characters : Script (list Character) :=
  fun w => (Ok (characters w), w).

Definition set_characters (l : list Character) : Script unit :=
  fun w => (Ok tt, mk_World l (page w)).

Definition emit (wd : Widget) : Script unit :=
  fun w => (Ok tt, mk_World (characters w) (page w ++ [wd])).

(** [try: body  except Exception as e: handler(e)]. *)
Definition try_except_Exception {A : Type}
    (body : Script A) (handler : exn -> Script A) : Script A :=
  fun w =>
    match body w with
    | (Ok a, w') => (Ok a, w')
    | (Raise e, w') => if is_Exception e then handler e w' else (Raise e, w')
    end.

Fixpoint for_each {A : Type} (l : list A) (body : A -> Script unit)
    : Script unit :=
  match l with
  | [] => ret tt
  | a :: l' => body a ;;; for_each l' body
  end.

Definition len {A : Type} (l : list A) : Z := Z.of_nat (List.length l).

Fixpoint enumerate_from {A : Type} (i : Z) (l : list A) : list (Z * A) :=
  match l with
  | [] => []
  | a :: l' => (i, a) :: enumerate_from (i + 1) l'
  end.

Definition enumerate {A : Type} (l : list A) : list (Z * A) :=
  enumerate_from 0 l.

(** The body of [if add_btn and char_files:]; an uploaded file is the bytes
    [f.read()] returns. *)
Definition add_uploaded_characters (prompt : string) (canvas_w canvas_h : Z)
    (char_files : list bytes) : Script unit :=
  chars0 <~ get_characters ;;
  let total_after := len chars0 + len char_files in
  let actions_from_prompt := extract_actions (Some prompt) in
  for_each (enumerate char_files) (fun '(i, f) =>
    let bts := f in
    chars <~ get_characters ;;
    let idx := len chars + i in
    xy <~ lift (infer_position_from_prompt (Some prompt) canvas_w canvas_h
                  idx total_after) ;;
    let '(x, y) := xy in
    set_characters
      (chars ++ [mk_Character ("Char " ++ str_of_int (idx + 1)) bts x y
                   float_0_5 false actions_from_prompt idx])) ;;;
  emit (st_success
          ("Added " ++ str_of_int (len char_files) ++ " character(s).")).

(** [ch.x, ch.y = x, y; ch.actions = ...] on the [i]-th character. *)
Fixpoint place_at (i : nat) (xy : Z * Z) (acts : list string)
    (l : list Character) : list Character :=
  match l, i with
  | [], _ => []
  | ch :: l', O =>
      mk_Character (name ch) (raw_bytes ch) (fst xy) (snd xy) (scale ch)
        (flip_h ch) acts (z ch) :: l'
  | ch :: l', S i' => ch :: place_at i' xy acts l'
  end.

(** The body of [if auto_place_clicked and st.session_state.characters:]. *)
Definition auto_place (prompt : string) (canvas_w canvas_h : Z) : Script unit :=
  chars0 <~ get_characters ;;
  let actions_from_prompt := extract_actions (Some prompt) in
  let n := len chars0 in
  for_each (enumerate chars0) (fun '(i, _) =>
    xy <~ lift (infer_position_from_prompt (Some prompt) canvas_w canvas_h
                  i n) ;;
    chars <~ get_characters ;;
    set_characters (place_at (Z.to_nat i) xy actions_from_prompt chars)) ;;;
  emit (st_toast "Re-positioned characters from prompt ✅").

(** Scene preview. *)
Definition render_preview (canvas_w canvas_h : Z) (bg_img : Image)
    : Script Image :=
  chars <~ get_characters ;;
  composite <~ lift (compose canvas_w canvas_h bg_img chars) ;;
  emit (st_image composite "Composed scene") ;;;
  ret composite.

Definition character_dict (ch : Character) : json :=
  JDict [ ("name", JStr (name ch)); ("x", JInt (x ch)); ("y", JInt (y ch));
          ("scale", JFloat (scale ch)); ("flip_h", JBool (flip_h ch));
          ("z", JInt (z ch)); ("actions", JList (map JStr (actions ch))) ].

Definition scene_dict (prompt : string) (canvas_w canvas_h : Z)
    (chars : list Character) : json :=
  JDict [ ("prompt", JStr prompt);
          ("canvas", JDict [ ("width", JInt canvas_w);
                             ("height", JInt canvas_h) ]);
          ("characters", JList (map character_dict chars)) ].

(** [build_pdf_doc].  [pdf_pages] stands for the statements of the [try]
    block, which draw the report with reportlab from what they read: it
    returns [buff.getvalue()] or raises. *)
Definition build_pdf_doc (pdf_pages : list Character -> result bytes)
    : Script (option bytes) :=
  try_except_Exception
    (chars <~ get_characters ;;
     b <~ lift (pdf_pages chars) ;;
     ret (Some b))
    (fun e =>
       emit (st_error ("PDF generation failed: " ++ exn_str e)) ;;;
       ret None).

Definition png_button (png_bytes : bytes) : Widget :=
  st_download_button "⬇️ Download PNG" (Data_bytes png_bytes)
    "scene.png" "image/png" false.

Definition json_button (prompt : string) (canvas_w canvas_h : Z)
    (chars : list Character) : Widget :=
  st_download_button "⬇️ Download Scene JSON"
    (Data_json (scene_dict prompt canvas_w canvas_h chars))
    "scene.json" "application/json" false.

(** [data=pdf_bytes if pdf_bytes else b"", disabled=(pdf_bytes is None)]. *)
Definition pdf_button (pdf_bytes : option bytes) : Widget :=
  st_download_button "⬇️ Download Documentation PDF"
    (Data_bytes match pdf_bytes with
                | Some (_ :: _ as b) => b
                | _ => []
                end)
    "documentation.pdf" "application/pdf"
    match pdf_bytes with None => true | Some _ => false end.

(** The three export columns, in script order. *)
Definition export_buttons (prompt : string) (canvas_w canvas_h : Z)
    (composite : Image) (pdf_pages : list Character -> result bytes)
    : Script unit :=
  png_bytes <~ lift (image_to_bytes composite "PNG") ;;
  emit (png_button png_bytes) ;;;
  chars <~ get_characters ;;
  emit (json_button prompt canvas_w canvas_h chars) ;;;
  pdf_bytes <~ build_pdf_doc pdf_pages ;;
  emit (pdf_button pdf_bytes).

(** Preview and export, as one render pass runs them. *)
Definition preview_and_export (prompt : string) (canvas_w canvas_h : Z)
    (bg_img : Image) (pdf_pages : Image -> list Character -> result bytes)
    : Script unit :=
  composite <~ render_preview canvas_w canvas_h bg_img ;;
  export_buttons prompt canvas_w canvas_h composite (pdf_pages composite).

End Script.

(* ------------------------------------------------------------------ *)
(** ** The specification's tables and formulas *)

(** The anchor the specification associates with a position keyword: the
    corners and the edge midpoints sit 40 pixels inside the canvas, and
    [center] and [middle] name the canvas midpoint. *)
Definition anchor (W H : Z) (key : string) : Z * Z :=
  if String.eqb key "top-left" then (40, 40)
  else if String.eqb key "top-right" then (W - 40, 40)
  else if String.eqb key "bottom-left" then (40, H - 40)
  else if String.eqb key "bottom-right" then (W - 40, H - 40)
  else if String.eqb key "left" then (40, H / 2)
  else if String.eqb key "right" then (W - 40, H / 2)
  else if String.eqb key "top" then (W / 2, 40)
  else if String.eqb key "bottom" then (W / 2, H - 40)
  else (W / 2, H / 2).

(** No position keyword occurs in the lower-cased prompt. *)
Definition no_position_keyword (prompt : option string) : Prop :=
  forall k, In k POSITION_KEYWORDS ->
            contains k (lower (or_empty prompt)) = false.

(** Ignoring case.  An ASCII small letter [c] is written as itself or as
    its capital, and "k" also as the Kelvin sign; [spells s k] says that [s]
    is the keyword [k] written in one of these ways, letter by letter. *)
Definition is_small (c : ascii) : bool :=
  let n := N_of_ascii c in ((97 <=? n) && (n <=? 122))%N.

Definition capital (c : ascii) : ascii := ascii_of_N (N_of_ascii c - 32).

Inductive writes : string -> ascii -> Prop :=
| writes_small c : writes (String c "") c
| writes_capital c : is_small c = true -> writes (String (capital c) "") c
| writes_kelvin : writes KELVIN_SIGN "k".

Inductive spells : string -> string -> Prop :=
| spells_nil : spells "" ""
| spells_cons piece c s k :
    writes piece c -> spells s k -> spells (piece ++ s) (String c k).

(** Two texts that differ in the case of ASCII letters only. *)
Inductive same_up_to_case : string -> string -> Prop :=
| same_nil : same_up_to_case "" ""
| same_char c s t :
    same_up_to_case s t -> same_up_to_case (String c s) (String c t)
| same_raised c s t :
    is_small c = true -> same_up_to_case s t ->
    same_up_to_case (String c s) (String (capital c) t)
| same_lowered c s t :
    is_small c = true -> same_up_to_case s t ->
    same_up_to_case (String (capital c) s) (String c t).

(** A keyword of small letters that does not end in "i". *)
Fixpoint small_letters (k : string) : bool :=
  match k with
  | EmptyString => true
  | String c k' =>
      is_small c &&
      negb (Ascii.eqb c "i" && match k' with EmptyString => true | _ => false end) &&
      small_letters k'
  end.

(** A text before which another text can be cut off without cutting a
    character in two: it does not start with one of the bytes that end the
    Kelvin sign or the dotted capital I. *)
Definition safe_start (X : string) : Prop :=
  match X with
  | EmptyString => True
  | String c _ =>
      Ascii.eqb "132" c = false /\ Ascii.eqb "170" c = false /\
      Ascii.eqb "176" c = false
  end.

(** The fallback abscissa of the character with index [i] among [N]:
    [pad + (i+1) * (W - 2*pad) / (N+1)], the division rounding down. *)
Definition fallback_x (W i N : Z) : Z := 40 + (i + 1) * (W - 2 * 40) / (N + 1).

(** The half-integer [x_center - ow / 2] with its fraction dropped towards
    zero, in exact arithmetic: the quotient of [2 * x_center - ow] by [2]
    rounded towards zero. *)
Definition paste_x (x_center ow : Z) : Z := Z.quot (2 * x_center - ow) 2.

(** Where a sprite of size [(ow, oh)] anchored at [(x_center, y_bottom)]
    goes, in exact arithmetic. *)
Definition paste_origin (ow oh x_center y_bottom : Z) : Z * Z :=
  (paste_x x_center ow, y_bottom - oh).

(** [l] lists some of the elements of [m], in the order [m] has them. *)
Inductive Subseq {A : Type} : list A -> list A -> Prop :=
| Subseq_nil : Subseq [] []
| Subseq_skip a l m : Subseq l m -> Subseq l (a :: m)
| Subseq_keep a l m : Subseq l m -> Subseq (a :: l) (a :: m).

(* ------------------------------------------------------------------ *)
(** ** A small raster library

    An implementation of the [Pillow] interface that runs: an image is a
    size, a mode and a pixel function; a file is six bytes (width, height
    and one colour); resizing takes the nearest source pixel and compositing
    shows the overlay where it is opaque.  It shows that the laws of
    [Pillow] can be met and gives the theorems inputs to run on. *)

Record raster : Type := mk_raster {
  r_width : N;
  r_height : N;
  r_mode : string;
  r_px : Z * Z -> rgba
}.

Definition r_size (im : raster) : Z * Z :=
  (Z.of_N (r_width im), Z.of_N (r_height im)).

Definition r_inside (im : raster) (p : Z * Z) : bool :=
  (0 <=? fst p) && (fst p <? Z.of_N (r_width im)) &&
  (0 <=? snd p) && (snd p <? Z.of_N (r_height im)).

Definition r_getpixel (im : raster) (p : Z * Z) : option rgba :=
  if r_inside im p then Some (r_px im p) else None.

Definition byte_val (b : Byte.byte) : Z := Z.of_N (Byte.to_N b).

Definition r_open (b : bytes) : result raster :=
  match b with
  | [w; h; cr; cg; cb; ca] =>
      Ok (mk_raster (Byte.to_N w) (Byte.to_N h) "RGB"
            (fun _ => (byte_val cr, byte_val cg, byte_val cb, byte_val ca)))
  | _ => Raise (mk_exn UnidentifiedImageError "cannot identify image file")
  end.

Definition r_convert (im : raster) (m : string) : result raster :=
  Ok (mk_raster (r_width im) (r_height im) m (r_px im)).

Definition r_new (m : string) (wh : Z * Z) (c : rgba) : result raster :=
  if (fst wh <? 0) || (snd wh <? 0)
  then Raise (mk_exn ValueError "Width and height must be >= 0")
  else Ok (mk_raster (Z.to_N (fst wh)) (Z.to_N (snd wh)) m (fun _ => c)).

Definition r_resize (im : raster) (wh : Z * Z) : result raster :=
  if (fst wh <=? 0) || (snd wh <=? 0)
  then Raise (mk_exn ValueError "height and width must be > 0")
  else Ok (mk_raster (Z.to_N (fst wh)) (Z.to_N (snd wh)) (r_mode im)
             (fun p => r_px im (fst p * Z.of_N (r_width im) / fst wh,
                                snd p * Z.of_N (r_height im) / snd wh))).

Definition r_mirror (im : raster) : result raster :=
  Ok (mk_raster (r_width im) (r_height im) (r_mode im)
        (fun p => r_px im (Z.of_N (r_width im) - 1 - fst p, snd p))).

Definition r_alpha_composite (base overlay : raster) (dest : Z * Z)
    : result raster :=
  Ok (mk_raster (r_width base) (r_height base) (r_mode base)
        (fun p =>
           match r_getpixel overlay (fst p - fst dest, snd p - snd dest) with
           | Some c => if alpha c =? 255 then c else r_px base p
           | None => r_px base p
           end)).

Definition r_save (im : raster) (fmt : string) : result bytes :=
  match Byte.of_N (r_width im), Byte.of_N (r_height im) with
  | Some w, Some h => Ok [w; h]
  | _, _ => Raise (mk_exn ValueError "image too large")
  end.

(** Draw order is compared by key. *)
Definition key_le {A : Type} (key : A -> Z) (a b : A) : Prop := key a <= key b.

(** The elements of [l] whose key is [k], in the order [l] has them. *)
Definition with_key {A : Type} (key : A -> Z) (k : Z) (l : list A) : list A :=
  filter (fun a => key a =? k) l.

(** Where [paste_rgba] puts the sprite of a character. *)
Definition sprite_dest {PIL : Pillow} (sprite : Image) (ch : Character)
    : result (Z * Z) :=
  paste_dest (fst (size sprite)) (snd (size sprite)) (x ch) (y ch).

(** A piece of the script that leaves the character list as it found it,
    whether it returns or raises. *)
Definition preserves_characters {PIL : Pillow} {A : Type} (c : Script A)
    : Prop :=
  forall w, characters (snd (c w)) = characters w.

(** What the PDF column adds to the page: the button alone, or the error
    message and the disabled button. *)
Definition pdf_widgets {PIL : Pillow} (outcome : result bytes) : list Widget :=
  match outcome with
  | Ok b => [pdf_button (Some b)]
  | Raise e =>
      [st_error ("PDF generation failed: " ++ exn_str e); pdf_button None]
  end.


(* ------------------------------------------------------------------ *)
(** ** The raster library as an instance of the interface *)

#[export, refine]
Instance RasterPillow : Pillow := {|
  Image := raster;
  size := r_size;
  mode := r_mode;
  getpixel := r_getpixel;
  Image_open := r_open;
  convert := r_convert;
  Image_new := r_new;
  resize := r_resize;
  mirror := r_mirror;
  alpha_composite := r_alpha_composite;
  save := r_save
|}.
Proof.
  - (* size_nonneg *)
    intros im. unfold r_size. simpl. lia.
  - (* resize_size *)
    intros im [w h] im'. unfold r_resize. simpl.
    destruct (w <=? 0) eqn:Ew; [discriminate|].
    destruct (h <=? 0) eqn:Eh; [discriminate|]. simpl.
    intros E. injection E as <-. unfold r_size. simpl.
    now rewrite !Z2N.id by lia.
  - (* resize_mode *)
    intros im wh im'. unfold r_resize. destruct (_ || _); [discriminate|].
    intros E. now injection E as <-.
  - (* mirror_size *)
    intros im im' E. now injection E as <-.
  - (* mirror_mode *)
    intros im im' E. now injection E as <-.
  - (* convert_size *)
    intros im m im' E. now injection E as <-.
  - (* convert_mode *)
    intros im m im' E. now injection E as <-.
  - (* new_size *)
    intros m [w h] c im. unfold r_new. simpl.
    destruct (w <? 0) eqn:Ew; [discriminate|].
    destruct (h <? 0) eqn:Eh; [discriminate|]. simpl.
    intros E. injection E as <-. unfold r_size. simpl.
    now rewrite !Z2N.id by lia.
  - (* new_pixel *)
    intros m wh c im p c'. unfold r_new. destruct (_ || _); [discriminate|].
    intros E. injection E as <-. unfold r_getpixel. simpl.
    destruct (r_inside _ p); [|discriminate]. intros E. now injection E.
  - (* composite_size *)
    intros base overlay dest base' E. now injection E as <-.
  - (* composite_outside *)
    intros base overlay dest base' px py E Hout. injection E as <-.
    unfold r_getpixel at 1 3. unfold r_inside. simpl. now rewrite Hout.
  - (* composite_opaque *)
    intros base overlay dest base' px py c E Hc Ha [[H1 H2] [H3 H4]].
    injection E as <-. unfold r_size in H2, H4. simpl in H2, H4.
    apply Z.leb_le in H1, H3. apply Z.ltb_lt in H2, H4.
    unfold r_getpixel at 1. unfold r_inside. simpl.
    rewrite H1, H2, H3, H4. simpl. now rewrite Hc, Ha.
Defined.

(** Sample images of the raster library: a dark 8x6 canvas, an opaque red
    3x5 sprite, an opaque blue 2x2 sprite. *)
Definition demo_canvas : Image :=
  mk_raster 8 6 "RGBA" (fun _ => (10, 10, 10, 255)).
Definition demo_red : Image :=
  mk_raster 3 5 "RGBA" (fun _ => (255, 0, 0, 255)).
Definition demo_blue : Image :=
  mk_raster 2 2 "RGBA" (fun _ => (0, 0, 255, 255)).

(** Two square images, of 10 and of 100 pixels. *)
Definition demo_ten : Image :=
  mk_raster 10 10 "RGBA" (fun _ => (0, 255, 0, 255)).

(** Two characters for the raster library: a red 3x5 sprite in front
    ([z = 1]) and a blue 2x2 sprite behind it ([z = 0]), both anchored at
    (4, 6) and drawn at full scale. *)
Definition demo_front : Character :=
  mk_Character "Char 1"
    [Byte.x03; Byte.x05; Byte.xff; Byte.x00; Byte.x00; Byte.xff]
    4 6 (percent 100) false [] 1.
Definition demo_back : Character :=
  mk_Character "Char 2"
    [Byte.x02; Byte.x02; Byte.x00; Byte.x00; Byte.xff; Byte.xff]
    4 6 (percent 100) false [] 0.

(** An empty session. *)
Definition demo_world : World := mk_World [] [].

(* ------------------------------------------------------------------ *)
(** ** Scales at the edge, and the percentage shown for a scale *)

(** A scale that is zero or a finite value below zero, of magnitude below
    [2^53]. *)
Definition nonpositive_scale (s : float) : bool :=
  match s with
  | S754_zero _ => true
  | S754_finite true m e => (digits m <=? 53) && (e <=? 0)
  | _ => false
  end.

(** [f * n] with an [int] on the right: the integer is converted first. *)
Definition float_mul_int (f : float) (n : Z) : result float :=
  b <- float_of_int n ;; Ok (float_mul f b).

(** [int(ch.scale * 100)]: the percentage the scale slider starts from and
    the report prints. *)
Definition scale_percent (scale : float) : result Z :=
  p <- float_mul_int scale 100 ;; int_of_float p.

(** The percentages at which [int((k / 100.0) * 100)] is [k - 1]. *)
Definition percent_off_by_one : list Z := [29; 57; 58; 113; 114; 115; 116].

(* ------------------------------------------------------------------ *)
(** ** The background *)

Section Background.
Context {PIL : Pillow}.

(** [bg_img]: the uploaded background, decoded and resized to the canvas,
    or a blank dark one.  [bg_file] is what [bg_file.read()] returns, or
    [None] when no file was uploaded. *)
Definition bg_img (bg_file : option bytes) (canvas_w canvas_h : Z)
    : result Image :=
  match bg_file with
  | Some b =>
      im <- bytes_to_image b ;;
      im <- resize im (canvas_w, canvas_h) ;;
      ensure_rgba im
  | None => Image_new "RGBA" (canvas_w, canvas_h) (10, 10, 10, 255)
  end.

End Background.

(* ------------------------------------------------------------------ *)
(** ** The two placement buttons *)

Section Buttons.
Context {PIL : Pillow}.

(** [if add_btn and char_files: ...]: an empty list of files is false. *)
Definition if_add_btn (add_btn : bool) (prompt : string)
    (canvas_w canvas_h : Z) (char_files : list bytes) : Script unit :=
  if add_btn && negb (len char_files =? 0)
  then add_uploaded_characters prompt canvas_w canvas_h char_files
  else ret tt.

(** [if auto_place_clicked and st.session_state.characters: ...]. *)
Definition if_auto_place_clicked (auto_place_clicked : bool) (prompt : string)
    (canvas_w canvas_h : Z) : Script unit :=
  fun w =>
    if auto_place_clicked && negb (len (characters w) =? 0)
    then auto_place prompt canvas_w canvas_h w
    else ret tt w.

End Buttons.

(** A character whose upload is not an image of the raster library. *)
Definition demo_broken : Character :=
  mk_Character "Char 3" [] 4 6 float_0_5 false [] 2.

(* ------------------------------------------------------------------ *)
(** ** The per-character controls *)

(** What the widgets of one character's expander return in a run: the
    text input, the two sliders of the left and right column, the
    checkbox and the three buttons.  ([new_flip_h] is the checkbox, which
    the source binds to a local [flip_h].) *)
Record Controls : Type := mk_Controls {
  new_name : string;
  new_scale : Z;
  new_flip_h : bool;
  z_up : bool;
  new_x : Z;
  new_y : Z;
  z_down : bool;
  remove : bool
}.

(** The Streamlit calls of the controls, as one run of the script sees
    them.  What a widget returns is the input of the user in this run; any
    call may raise instead (a slider does when its [value] lies outside its
    range).  The arguments are those of the source: label, then bounds,
    value and step where there are any, then the key.
    [st_experimental_rerun] is the exception in which the call
    [st.experimental_rerun()] ends: the rerun request of Streamlit, which
    stops the run of the script, or [AttributeError] in a Streamlit that no
    longer has the function. *)
Class Streamlit : Type := {
  st_info : string -> result unit;
  st_columns : Z -> result unit;
  st_columns_spec : list Z -> result unit;
  st_expander : string -> bool -> result unit;
  st_text_input : string -> string -> string -> result string;
  st_slider : string -> Z -> Z -> Z -> Z -> string -> result Z;
  st_checkbox : string -> bool -> string -> result bool;
  st_button : string -> string -> result bool;
  st_caption : string -> result unit;
  st_experimental_rerun : exn
}.

(** [sep.join(l)]. *)
Fixpoint join (sep : string) (l : list string) : string :=
  match l with
  | [] => ""
  | [a] => a
  | a :: l' => a ++ sep ++ join sep l'
  end.

(** The text under the controls of a character. *)
Definition caption_text (acts : list string) : string :=
  "Actions from prompt: "
  ++ (if len acts =? 0 then "—" else join ", " acts).

(** The literal [100.0]. *)
Definition float_100 : float := S754_finite false 7036874417766400 (-46).

(** [new_scale / 100.0]: the integer is converted first. *)
Definition div_100 (n : Z) : result float :=
  a <- float_of_int n ;; Ok (float_div a float_100).

(** [==] on floats: IEEE equality. *)
Definition float_eqb (a b : float) : bool := SFeqb a b.

Fixpoint list_eqb {A : Type} (eqb : A -> A -> bool) (l m : list A) : bool :=
  match l, m with
  | [], [] => true
  | a :: l', b :: m' => eqb a b && list_eqb eqb l' m'
  | _, _ => false
  end.

Section Controls.
Context {PIL : Pillow} {ST : Streamlit}.

Notation "x <~ c ;; k" := (sbind c (fun x => k))
  (at level 61, c at next level, right associativity).
Notation "c ;;; k" := (sbind c (fun _ => k))
  (at level 61, right associativity).

(** Assignments to the fields of a character. *)
Definition set_name (v : string) (ch : Character) : Character :=
  mk_Character v (raw_bytes ch) (x ch) (y ch) (scale ch) (flip_h ch)
    (actions ch) (z ch).
Definition set_scale (v : float) (ch : Character) : Character :=
  mk_Character (name ch) (raw_bytes ch) (x ch) (y ch) v (flip_h ch)
    (actions ch) (z ch).
Definition set_flip_h (v : bool) (ch : Character) : Character :=
  mk_Character (name ch) (raw_bytes ch) (x ch) (y ch) (scale ch) v
    (actions ch) (z ch).
Definition set_xy (vx vy : Z) (ch : Character) : Character :=
  mk_Character (name ch) (raw_bytes ch) vx vy (scale ch) (flip_h ch)
    (actions ch) (z ch).
Definition set_z (v : Z) (ch : Character) : Character :=
  mk_Character (name ch) (raw_bytes ch) (x ch) (y ch) (scale ch) (flip_h ch)
    (actions ch) v.

(** [==] on characters, as the dataclass defines it: field by field, in
    the order of the fields.  (Python takes two references to one object
    for equal before it compares them, which shows on a NaN only; the
    scales the program sets are finite.) *)
Definition Character_eqb (a b : Character) : bool :=
  String.eqb (name a) (name b) &&
  list_eqb Byte.eqb (raw_bytes a) (raw_bytes b) &&
  (x a =? x b) && (y a =? y b) &&
  float_eqb (scale a) (scale b) &&
  Bool.eqb (flip_h a) (flip_h b) &&
  list_eqb String.eqb (actions a) (actions b) &&
  (z a =? z b).

(** The character objects are the positions of the session's list: an
    assignment to a field of the object at [pos] rewrites that entry. *)
Fixpoint update_nth {A : Type} (pos : nat) (f : A -> A) (l : list A)
    : list A :=
  match l, pos with
  | [], _ => []
  | a :: l', O => f a :: l'
  | a :: l', S pos' => a :: update_nth pos' f l'
  end.

Definition update_at (pos : nat) (f : Character -> Character) : Script unit :=
  fun w => (Ok tt, mk_World (update_nth pos f (characters w)) (page w)).

(** [l.remove(ch)] for the object [ch] at [pos], of value [v]: the first
    entry that is [ch] itself or equal to it goes. *)
Fixpoint list_remove (pos : nat) (v : Character) (l : list Character)
    : list Character :=
  match l with
  | [] => []
  | a :: l' =>
      match pos with
      | O => l'
      | S pos' => if Character_eqb a v then l' else a :: list_remove pos' v l'
      end
  end.

Definition remove_character (pos : nat) : Script unit :=
  fun w =>
    match nth_error (characters w) pos with
    | Some ch =>
        (Ok tt, mk_World (list_remove pos ch (characters w)) (page w))
    | None => (Ok tt, w)
    end.

(** The character that the assignments under "Apply edits" make of [ch]:
    name, scale, flip and position are those of the widgets, the z-order
    moves by one per button, the image bytes and the actions stay. *)
Definition edited (u : Controls) (ch : Character) : Character :=
  mk_Character (new_name u) (raw_bytes ch) (new_x u) (new_y u)
    (percent (new_scale u)) (new_flip_h u) (actions ch)
    (z ch + (if z_up u then 1 else 0) - (if z_down u then 1 else 0)).

(** The object the loop variable [ch] refers to: the entry at its position
    in the session's list ([ch0] is its value when the list was sorted). *)
Definition object_at (pos : nat) (ch0 : Character) : Script Character :=
  fun w => (Ok (nth pos (characters w) ch0), w).

(** The widget calls in the expander of the character [ch] of rank [idx],
    in the order of the source: the expander and its two columns, then the
    widgets of the left and of the right column.  The scale slider starts
    from [int(ch.scale * 100)], the position sliders from [ch.x] and [ch.y]
    and run from 0 to the canvas size. *)
Definition read_widgets (canvas_w canvas_h idx : Z) (ch : Character)
    : result Controls :=
  e1 <- st_expander ("🎭 " ++ name ch ++ " — controls") false ;;
  e2 <- st_columns_spec [1; 1] ;;
  v_name <- st_text_input "Name" (name ch) ("name_" ++ str_of_int idx) ;;
  p <- scale_percent (scale ch) ;;
  v_scale <- st_slider "Scale (%)" 20 200 p 5 ("s_" ++ str_of_int idx) ;;
  v_flip <- st_checkbox "Flip horizontally" (flip_h ch)
              ("flip_" ++ str_of_int idx) ;;
  v_up <- st_button "Bring Forward ⬆️" ("zu_" ++ str_of_int idx) ;;
  v_x <- st_slider "X (center)" 0 canvas_w (x ch) 2
           ("x_" ++ str_of_int idx) ;;
  v_y <- st_slider "Y (bottom)" 0 canvas_h (y ch) 2
           ("y_" ++ str_of_int idx) ;;
  v_down <- st_button "Send Backward ⬇️" ("zd_" ++ str_of_int idx) ;;
  v_rm <- st_button "🗑️ Remove" ("rm_" ++ str_of_int idx) ;;
  Ok (mk_Controls v_name v_scale v_flip v_up v_x v_y v_down v_rm).

(** The statements under "Apply edits" for the character at [pos], with
    the values [u] of its widgets.  After a removal the rerun call raises,
    and the run stops there. *)
Definition apply_edits (u : Controls) (pos : nat) : Script unit :=
  update_at pos (set_name (new_name u)) ;;;
  s <~ lift (div_100 (new_scale u)) ;;
  update_at pos (set_scale s) ;;;
  update_at pos (set_flip_h (new_flip_h u)) ;;;
  update_at pos (set_xy (new_x u) (new_y u)) ;;;
  (if z_up u then update_at pos (fun ch => set_z (z ch + 1) ch) else ret tt) ;;;
  (if z_down u then update_at pos (fun ch => set_z (z ch - 1) ch) else ret tt) ;;;
  if remove u
  then remove_character pos ;;; lift (Raise st_experimental_rerun)
  else ret tt.

(** The body of the loop over [enumerate(sorted(characters, key=z))]: a
    visit is the rank [idx] in z-order, which keys the widgets, and the
    position [pos] of the character in the session's list.  (The column
    [cols[idx % 2]] the expander goes to is layout only.) *)
Definition visit (canvas_w canvas_h : Z) (v : Z * (Z * Character))
    : Script unit :=
  let '(idx, (pos, ch0)) := v in
  ch <~ object_at (Z.to_nat pos) ch0 ;;
  u <~ lift (read_widgets canvas_w canvas_h idx ch) ;;
  apply_edits u (Z.to_nat pos) ;;;
  ch <~ object_at (Z.to_nat pos) ch0 ;;
  lift (st_caption (caption_text (actions ch))).

(** The characters with their positions, in z-order. *)
Definition in_z_order (chars : list Character) : list (Z * Character) :=
  sorted (fun p => z (snd p)) (enumerate chars).

(** The per-character controls of one run: a notice when there is no
    character, else the two columns and the loop. *)
Definition manage_characters (canvas_w canvas_h : Z) : Script unit :=
  chars <~ get_characters ;;
  if len chars =? 0
  then lift (st_info
    "No characters yet. Upload PNG characters in the section above.")
  else
    lift (st_columns 2) ;;;
    for_each (enumerate (in_z_order chars)) (visit canvas_w canvas_h).

End Controls.

(** The visits still to make find their characters where the sort saw
    them: positions are distinct and the entry at each is the one that was
    sorted. *)
Definition fresh (visits : list (Z * (Z * Character)))
    (cur : list Character) : Prop :=
  NoDup (map (fun v => fst (snd v)) visits) /\
  forall idx pos ch, In (idx, (pos, ch)) visits ->
    0 <= pos /\ nth_error cur (Z.to_nat pos) = Some ch.

(** A run of Streamlit in which the user leaves every input widget at the
    value it starts from and clicks the buttons whose keys are in
    [clicked].  A slider refuses a starting value outside its range, and
    the rerun call is no longer there. *)
Definition demo_streamlit (clicked : list string) : Streamlit := {|
  st_info := fun _ => Ok tt;
  st_columns := fun _ => Ok tt;
  st_columns_spec := fun _ => Ok tt;
  st_expander := fun _ _ => Ok tt;
  st_text_input := fun _ value _ => Ok value;
  st_slider := fun _ min_value max_value value _ _ =>
    if (min_value <=? value) && (value <=? max_value) then Ok value
    else Raise (mk_exn StreamlitAPIException
                  ("The default `value` of " ++ str_of_int value
                   ++ " must lie between the `min_value` of "
                   ++ str_of_int min_value ++ " and the `max_value` of "
                   ++ str_of_int max_value ++ ", inclusively."));
  st_checkbox := fun _ value _ => Ok value;
  st_button := fun _ key => Ok (existsb (String.eqb key) clicked);
  st_caption := fun _ => Ok tt;
  st_experimental_rerun :=
    mk_exn AttributeError
      "module 'streamlit' has no attribute 'experimental_rerun'"
|}.

(** What the widgets of rank [idx] return in such a run on the session
    [demo_back; demo_front] in z-order, with the buttons [zu] and [rm]
    clicked as given. *)
Definition demo_ui (zu rm : Z -> bool) (idx : Z) : Controls :=
  mk_Controls (if idx =? 0 then "Char 2" else "Char 1") 100 false (zu idx)
    4 6 false (rm idx).

(** A character anchored right of an 8 pixel wide canvas. *)
Definition demo_outside : Character :=
  mk_Character "Char 3"
    [Byte.x02; Byte.x02; Byte.x00; Byte.x00; Byte.xff; Byte.xff]
    10 6 (percent 100) false [] 2.

(** A dark background too wide for the file format of the raster library,
    whose header holds the width in one byte. *)
Definition demo_wide : Image :=
  mk_raster 300 6 "RGBA" (fun _ => (10, 10, 10, 255)).

(* ------------------------------------------------------------------ *)
(** * Properties *)

(** ** Runs on concrete inputs *)

Example infer_right :
  infer_position_from_prompt (Some "Sitting at a table on the RIGHT") 1280 720 0 2
  = Ok (1240, 360).
Proof. reflexivity. Qed.

Example infer_fallback :
  infer_position_from_prompt (Some "two friends") 1280 720 1 6 = Ok (382, 680).
Proof. reflexivity. Qed.

Example extract_order :
  extract_actions (Some "Looking around, then WALKING") = ["walking"; "looking"].
Proof. reflexivity. Qed.

Example percent_80 : percent 80 = S754_finite false 7205759403792794 (-53).
Proof. reflexivity. Qed.

Example scaled_size_80 : scaled_size 640 481 (percent 80) = Ok (512, 384).
Proof. reflexivity. Qed.

Example scaled_size_tiny : scaled_size 1 3 (percent 20) = Ok (1, 1).
Proof. reflexivity. Qed.

(** The products are binary64 products: 115/100 is stored a little below
    1.15, 70/100 a little below 0.7, and the product with 10 rounds to 7. *)
Example scaled_size_binary64 :
  scaled_size 100 10 (percent 115) = Ok (114, 11) /\
  scaled_size 10 100 (percent 70) = Ok (7, 70).
Proof. split; reflexivity. Qed.

Example paste_dest_odd : paste_dest 3 5 10 20 = Ok (8, 15).
Proof. reflexivity. Qed.

Example paste_dest_neg : paste_dest 3 5 0 20 = Ok (-1, 15).
Proof. reflexivity. Qed.

(* ------------------------------------------------------------------ *)
(** ** Substrings and lower-casing *)

Lemma startswith_spec (key p : string) :
  startswith key p = true <-> exists post, p = key ++ post.
Proof.
  revert p; induction key as [|a key IH]; intros p; simpl.
  - split; [intros _; now exists p | reflexivity].
  - destruct p as [|b p].
    + split; [discriminate | intros [post E]; discriminate].
    + rewrite andb_true_iff, Ascii.eqb_eq, IH. split.
      * intros [-> [post ->]]. now exists post.
      * intros [post E]. injection E as -> ->. split; [reflexivity | now exists post].
Qed.

(** [contains key p] holds exactly when [key] is a substring of [p]. *)
Lemma contains_spec (key p : string) :
  contains key p = true <-> exists pre post, p = pre ++ key ++ post.
Proof.
  induction p as [|b p IH]; simpl; rewrite orb_true_iff, startswith_spec.
  - split.
    + intros [[post E] | F]; [|discriminate]. now exists "", post.
    + intros [pre [post E]]. left. destruct pre; [now exists post | discriminate].
  - rewrite IH. split.
    + intros [[post E] | [pre [post E]]].
      * now exists "", post.
      * exists (String b pre), post. simpl. now rewrite E.
    + intros [pre [post E]]. destruct pre as [|c pre]; simpl in E.
      * left. now exists post.
      * right. injection E as _ E. now exists pre, post.
Qed.

(** A small letter is not a byte of a character outside ASCII, and
    lower-casing leaves it alone; its capital becomes the letter. *)
Lemma small_cases (c : ascii) :
  is_small c = true ->
  ascii_lower c = c /\ ascii_lower (capital c) = c /\
  (forall X, startswith KELVIN_SIGN (String c X) = false) /\
  (forall X, startswith CAPITAL_I_WITH_DOT (String c X) = false) /\
  (forall X, startswith KELVIN_SIGN (String (capital c) X) = false) /\
  (forall X, startswith CAPITAL_I_WITH_DOT (String (capital c) X) = false) /\
  safe_start (String c "") /\ safe_start (String (capital c) "") /\
  Ascii.eqb c "204" = false.
Proof.
  destruct c as [[|] [|] [|] [|] [|] [|] [|] [|]]; intros H;
    try discriminate H; repeat split; reflexivity.
Qed.

(** What lower-cases to a small letter: the letter or its capital. *)
Lemma ascii_lower_small (a c : ascii) :
  ascii_lower a = c -> is_small c = true -> a = c \/ a = capital c.
Proof.
  intros <-.
  destruct a as [[|] [|] [|] [|] [|] [|] [|] [|]]; intros H;
    try discriminate H; (left; reflexivity) || (right; reflexivity).
Qed.

Lemma small_letters_inv (c : ascii) (k : string) :
  small_letters (String c k) = true ->
  is_small c = true /\ small_letters k = true /\
  (k = "" -> c <> "i"%char).
Proof.
  simpl. rewrite !andb_true_iff, negb_true_iff. intros [[Hc Hi] Hk].
  repeat split; trivial. intros -> ->. discriminate.
Qed.

Lemma lower_from_kelvin (X : string) :
  lower_from 0 (KELVIN_SIGN ++ X) = String "k" (lower_from 0 X).
Proof. reflexivity. Qed.

(** The lower-cased text starts with the keyword exactly when the text
    starts with a way to write the keyword. *)
Lemma startswith_lower_spells (k : string) :
  small_letters k = true ->
  forall p, startswith k (lower_from 0 p) = true ->
            exists s rest, p = s ++ rest /\ spells s k.
Proof.
  induction k as [|c k IH]; intros Hk p Hp.
  - exists "", p. split; [reflexivity | constructor].
  - destruct (small_letters_inv _ _ Hk) as [Hc [Hk' Hi]].
    destruct p as [|a p]; [discriminate|].
    cbn [lower_from] in Hp.
    destruct (startswith KELVIN_SIGN (String a p)) eqn:EK.
    + apply startswith_spec in EK. destruct EK as [X EX]. rewrite EX.
      assert (Ep : lower_from 2 p = lower_from 0 X).
      { simpl in EX. injection EX as _ ->. reflexivity. }
      rewrite Ep in Hp. simpl in Hp. apply andb_prop in Hp as [Ec Hp].
      apply Ascii.eqb_eq in Ec. subst c.
      destruct (IH Hk' X Hp) as [s [rest [-> Hs]]].
      exists (KELVIN_SIGN ++ s), rest. split.
      * reflexivity.
      * apply spells_cons; [constructor | exact Hs].
    + destruct (startswith CAPITAL_I_WITH_DOT (String a p)) eqn:EI.
      * exfalso. simpl in Hp. apply andb_prop in Hp as [Ec Hp].
        apply Ascii.eqb_eq in Ec. subst c.
        destruct k as [|c2 k]; [now apply Hi|].
        destruct (small_letters_inv _ _ Hk') as [Hc2 _].
        simpl in Hp. apply andb_prop in Hp as [Ec2 _].
        apply Ascii.eqb_eq in Ec2. subst c2. discriminate Hc2.
      * simpl in Hp. apply andb_prop in Hp as [Ec Hp].
        apply Ascii.eqb_eq in Ec.
        destruct (IH Hk' p Hp) as [s [rest [-> Hs]]].
        exists (String a s), rest. split; [reflexivity|].
        change (String a s) with (String a "" ++ s).
        apply spells_cons; [|exact Hs].
        destruct (ascii_lower_small a c (eq_sym Ec) Hc) as [-> | ->];
          now constructor.
Qed.

Lemma spells_startswith_lower (s k : string) :
  spells s k -> small_letters k = true ->
  forall rest, startswith k (lower_from 0 (s ++ rest)) = true.
Proof.
  induction 1 as [|piece c s k Hw Hs IH]; intros Hk rest; [reflexivity|].
  destruct (small_letters_inv _ _ Hk) as [Hc [Hk' _]].
  destruct (small_cases c Hc) as [L1 [L2 [K1 [I1 [K2 [I2 _]]]]]].
  destruct Hw as [c|c Hs'|].
  - cbn [append lower_from]. rewrite K1, I1, L1. simpl.
    rewrite Ascii.eqb_refl. now apply IH.
  - cbn [append lower_from]. rewrite K2, I2, L2. simpl.
    rewrite Ascii.eqb_refl. now apply IH.
  - change ((KELVIN_SIGN ++ s) ++ rest) with (KELVIN_SIGN ++ (s ++ rest)).
    rewrite lower_from_kelvin. simpl. now apply IH.
Qed.

Lemma spells_safe_start (s k rest : string) :
  spells s k -> small_letters k = true -> k <> "" -> safe_start (s ++ rest).
Proof.
  intros Hs Hk Hne. destruct Hs as [|piece c s k Hw Hs]; [congruence|].
  destruct (small_letters_inv _ _ Hk) as [Hc _].
  destruct (small_cases c Hc) as [_ [_ [_ [_ [_ [_ [S1 [S2 _]]]]]]]].
  destruct Hw as [c|c Hs'|]; [exact S1 | exact S2 | repeat split].
Qed.

(** Before a safe start, the same test tells whether a text starts with
    one of the two characters. *)
Lemma startswith_kelvin_app (a : ascii) (pre X : string) :
  safe_start X ->
  startswith KELVIN_SIGN (String a (pre ++ X))
  = startswith KELVIN_SIGN (String a pre) /\
  startswith CAPITAL_I_WITH_DOT (String a (pre ++ X))
  = startswith CAPITAL_I_WITH_DOT (String a pre).
Proof.
  intros HX.
  destruct pre as [|b [|c pre]]; destruct X as [|x X]; simpl in *;
    try (split; reflexivity); destruct HX as [H1 [H2 H3]];
    rewrite ?H1, ?H2, ?H3, ?andb_false_r; split; reflexivity.
Qed.

(** Lower-casing a text goes through its start without looking further
    than a safe start. *)
Lemma lower_from_app (pre : string) :
  forall (skip : nat) (X : string),
    safe_start X -> (skip <= String.length pre)%nat ->
    lower_from skip (pre ++ X) = lower_from skip pre ++ lower_from 0 X.
Proof.
  induction pre as [|a pre IH]; intros skip X HX Hskip.
  - simpl in Hskip. replace skip with 0%nat by lia. reflexivity.
  - destruct skip as [|n].
    + destruct (startswith_kelvin_app a pre X HX) as [EK EI].
      change (String a pre ++ X) with (String a (pre ++ X)).
      cbn [lower_from]. rewrite EK, EI.
      destruct (startswith KELVIN_SIGN (String a pre)) eqn:K.
      * apply startswith_spec in K. destruct K as [post K].
        simpl in K. injection K as _ ->.
        rewrite IH by (trivial; simpl; lia). reflexivity.
      * destruct (startswith CAPITAL_I_WITH_DOT (String a pre)) eqn:I.
        -- apply startswith_spec in I. destruct I as [post I].
           simpl in I. injection I as _ ->.
           rewrite IH by (trivial; simpl; lia). reflexivity.
        -- rewrite IH by (trivial; lia). reflexivity.
    + simpl. apply IH; [exact HX | simpl in Hskip; lia].
Qed.

Lemma contains_cons (k : string) (a : ascii) (X : string) :
  contains k X = true -> contains k (String a X) = true.
Proof. intros H. simpl. rewrite H. apply orb_true_r. Qed.

Lemma contains_app_l (k pre X : string) :
  contains k X = true -> contains k (pre ++ X) = true.
Proof.
  intros H. induction pre as [|a pre IH]; [exact H|].
  now apply contains_cons.
Qed.

Lemma startswith_contains (k X : string) :
  startswith k X = true -> contains k X = true.
Proof. intros H. destruct X; simpl; rewrite H; reflexivity. Qed.

(** A keyword of small letters occurs in the lower-cased text exactly when
    a way to write it occurs in the text: the search ignores case. *)
Lemma contains_lower_spec (k p : string) :
  small_letters k = true -> k <> "" ->
  (contains k (lower p) = true <->
   exists pre s post, p = pre ++ s ++ post /\ spells s k).
Proof.
  intros Hk Hne. unfold lower. split.
  - assert (G : forall skip,
               contains k (lower_from skip p) = true ->
               exists pre s post, p = pre ++ s ++ post /\ spells s k).
    { induction p as [|a p IH]; intros skip Hc.
      - destruct k; [congruence | destruct skip; discriminate].
      - assert (Tail : forall n, contains k (lower_from n p) = true ->
                  exists pre s post,
                    String a p = pre ++ s ++ post /\ spells s k).
        { intros n Hn. destruct (IH n Hn) as [pre [s [post [-> Hs]]]].
          now exists (String a pre), s, post. }
        destruct skip as [|n]; [|exact (Tail n Hc)].
        assert (Head : startswith k (lower_from 0 (String a p)) = true ->
                  exists pre s post,
                    String a p = pre ++ s ++ post /\ spells s k).
        { intros Hh.
          destruct (startswith_lower_spells k Hk _ Hh) as [s [rest [E Hs]]].
          now exists "", s, rest. }
        destruct (startswith k (lower_from 0 (String a p))) eqn:Hh;
          [now apply Head|].
        cbn [lower_from] in Hc, Hh.
        destruct k as [|c k]; [congruence|].
        destruct (small_letters_inv _ _ Hk) as [Hsm _].
        destruct (small_cases c Hsm) as [_ [_ [_ [_ [_ [_ [S1 [_ N204]]]]]]]].
        destruct S1 as [N132 [N170 N176]].
        destruct (startswith KELVIN_SIGN (String a p)).
        + cbn [contains] in Hc. rewrite Hh in Hc. exact (Tail _ Hc).
        + destruct (startswith CAPITAL_I_WITH_DOT (String a p)).
          * cbn [append COMBINING_DOT] in Hh.
            cbn [contains append COMBINING_DOT] in Hc. rewrite Hh in Hc.
            cbn [orb startswith] in Hc.
            rewrite N204 in Hc. cbn [andb orb] in Hc.
            assert (N135 : Ascii.eqb c "135" = false).
            { clear - Hsm.
              destruct c as [[|] [|] [|] [|] [|] [|] [|] [|]];
                try discriminate Hsm; reflexivity. }
            rewrite N135 in Hc. cbn [andb orb] in Hc. exact (Tail _ Hc).
          * cbn [contains] in Hc. rewrite Hh in Hc. exact (Tail _ Hc). }
    apply G.
  - intros [pre [s [post [-> Hs]]]].
    rewrite lower_from_app
      by (try apply (spells_safe_start s k post Hs Hk Hne); lia).
    apply contains_app_l, startswith_contains.
    now apply spells_startswith_lower.
Qed.

(** Texts that differ in case only have one lower-casing. *)
Lemma same_up_to_case_startswith (K : string) :
  (forall c, is_small c = true ->
             contains (String c "") K = false /\
             contains (String (capital c) "") K = false) ->
  forall s t, same_up_to_case s t -> startswith K s = startswith K t.
Proof.
  induction K as [|a K IH]; intros HK s t Hst; [reflexivity|].
  assert (HK' : forall c, is_small c = true ->
                  contains (String c "") K = false /\
                  contains (String (capital c) "") K = false).
  { intros c Hc. destruct (HK c Hc) as [H1 H2]. simpl in H1, H2.
    apply orb_false_elim in H1 as [_ H1]. apply orb_false_elim in H2 as [_ H2].
    auto. }
  assert (Ha : forall c, is_small c = true ->
                 Ascii.eqb a c = false /\ Ascii.eqb a (capital c) = false).
  { intros c Hc. destruct (HK c Hc) as [H1 H2]. simpl in H1, H2.
    apply orb_false_elim in H1 as [H1 _]. apply orb_false_elim in H2 as [H2 _].
    rewrite andb_true_r in H1, H2.
    rewrite (Ascii.eqb_sym a c), (Ascii.eqb_sym a (capital c)). auto. }
  destruct Hst as [|c s t Hst|c s t Hc Hst|c s t Hc Hst]; simpl.
  - reflexivity.
  - now rewrite (IH HK' s t Hst).
  - destruct (Ha c Hc) as [-> ->]. reflexivity.
  - destruct (Ha c Hc) as [-> ->]. reflexivity.
Qed.

Lemma same_up_to_case_lower (s t : string) :
  same_up_to_case s t -> forall skip, lower_from skip s = lower_from skip t.
Proof.
  assert (NK : forall c, is_small c = true ->
                 contains (String c "") KELVIN_SIGN = false /\
                 contains (String (capital c) "") KELVIN_SIGN = false).
  { intros c. destruct c as [[|] [|] [|] [|] [|] [|] [|] [|]]; intros H;
      try discriminate H; split; reflexivity. }
  assert (NI : forall c, is_small c = true ->
                 contains (String c "") CAPITAL_I_WITH_DOT = false /\
                 contains (String (capital c) "") CAPITAL_I_WITH_DOT = false).
  { intros c. destruct c as [[|] [|] [|] [|] [|] [|] [|] [|]]; intros H;
      try discriminate H; split; reflexivity. }
  intros Hst.
  induction Hst as [|c s t Hst IH|c s t Hc Hst IH|c s t Hc Hst IH];
    intros skip; [reflexivity| | |];
    (destruct skip as [|n]; [|simpl; apply IH]).
  - cbn [lower_from].
    rewrite (same_up_to_case_startswith KELVIN_SIGN NK _ _
               (same_char c s t Hst)),
            (same_up_to_case_startswith CAPITAL_I_WITH_DOT NI _ _
               (same_char c s t Hst)).
    now rewrite !IH.
  - destruct (small_cases c Hc) as [L1 [L2 [K1 [I1 [K2 [I2 _]]]]]].
    cbn [lower_from]. rewrite K1, I1, K2, I2, L1, L2. now rewrite IH.
  - destruct (small_cases c Hc) as [L1 [L2 [K1 [I1 [K2 [I2 _]]]]]].
    cbn [lower_from]. rewrite K1, I1, K2, I2, L1, L2. now rewrite IH.
Qed.

(* ------------------------------------------------------------------ *)
(** ** Position inference *)

Lemma find_first {A : Type} (f : A -> bool) (l : list A) (k : A) :
  find f l = Some k <->
  exists pre post,
    l = (pre ++ k :: post)%list /\ f k = true /\ (forall a, In a pre -> f a = false).
Proof.
  induction l as [|b l IH]; simpl.
  - split; [discriminate | intros [pre [post [E _]]]; destruct pre; discriminate].
  - destruct (f b) eqn:Fb.
    + split.
      * intros E. injection E as ->. exists [], l. simpl. tauto.
      * intros [pre [post [E [Fk Hpre]]]]. destruct pre as [|c pre]; simpl in E.
        -- now injection E as ->.
        -- injection E as Eb _. rewrite (Hpre b) in Fb; [discriminate | now left].
    + rewrite IH. split.
      * intros [pre [post [-> [Fk Hpre]]]]. exists (b :: pre), post. simpl.
        repeat split; trivial. intros a [<- | Ha]; auto.
      * intros [pre [post [E [Fk Hpre]]]]. destruct pre as [|c pre]; simpl in E.
        -- injection E as -> _. congruence.
        -- injection E as -> ->. exists pre, post. repeat split; trivial.
           intros a Ha. apply Hpre. now right.
Qed.

Lemma find_none_iff {A : Type} (f : A -> bool) (l : list A) :
  find f l = None <-> forall a, In a l -> f a = false.
Proof.
  induction l as [|b l IH]; simpl.
  - split; [intros _ a [] | reflexivity].
  - destruct (f b) eqn:Fb.
    + split; [discriminate | intros Hall; rewrite Hall in Fb; [discriminate | now left]].
    + rewrite IH. split.
      * intros Hl a [<- | Ha]; auto.
      * intros Hall a Ha. apply Hall. now right.
Qed.

(** Every keyword of the list has an entry in [spots], and the entry is the
    anchor the specification gives. *)
Lemma getitem_spots (W H : Z) (key : string) :
  In key POSITION_KEYWORDS -> getitem (spots W H) key = Ok (anchor W H key).
Proof.
  unfold POSITION_KEYWORDS. simpl.
  intros Hin. repeat destruct Hin as [<- | Hin]; try reflexivity. contradiction.
Qed.

(** The loop returns on the first keyword, in list order, that occurs. *)
Lemma infer_first_match (prompt : option string) (W H index total : Z)
    (pre post : list string) (key : string) :
  POSITION_KEYWORDS = (pre ++ key :: post)%list ->
  contains key (lower (or_empty prompt)) = true ->
  (forall k, In k pre -> contains k (lower (or_empty prompt)) = false) ->
  matched_keyword (lower (or_empty prompt)) = Some key /\
  infer_position_from_prompt prompt W H index total = Ok (anchor W H key).
Proof.
  intros E Hkey Hpre.
  assert (M : matched_keyword (lower (or_empty prompt)) = Some key).
  { unfold matched_keyword. apply find_first. now exists pre, post. }
  split; [exact M|].
  unfold infer_position_from_prompt. rewrite M. apply getitem_spots.
  rewrite E. apply in_or_app. right. now left.
Qed.

Lemma infer_no_keyword (prompt : option string) (W H index total : Z) :
  no_position_keyword prompt ->
  infer_position_from_prompt prompt W H index total =
  (q <- floordiv ((index + 1) * (W - 2 * pad)) (total + 1) ;;
   Ok (pad + q, H - pad)).
Proof.
  intros Hno. unfold infer_position_from_prompt.
  replace (matched_keyword (lower (or_empty prompt))) with (@None string);
    [reflexivity|].
  symmetry. apply find_none_iff. exact Hno.
Qed.

(** A keyword whose occurrence accounts for every position keyword found in
    the prompt (those found are pieces of its own text) is the one matched. *)
Lemma infer_covering_keyword (prompt : option string) (W H index total : Z)
    (key : string) :
  In key POSITION_KEYWORDS ->
  contains key (lower (or_empty prompt)) = true ->
  (forall k, In k POSITION_KEYWORDS ->
             contains k (lower (or_empty prompt)) = true ->
             contains k key = true) ->
  infer_position_from_prompt prompt W H index total = Ok (anchor W H key).
Proof.
  intros Hin Hkey Hcover.
  set (p := lower (or_empty prompt)) in *.
  assert (Hfalse : forall k, In k POSITION_KEYWORDS -> contains k key = false ->
                             contains k p = false).
  { intros k Hk Hn. destruct (contains k p) eqn:E; [|reflexivity].
    rewrite (Hcover k Hk E) in Hn. discriminate. }
  unfold POSITION_KEYWORDS in Hin. simpl in Hin.
  repeat destruct Hin as [<- | Hin]; try contradiction;
    match goal with
    | |- infer_position_from_prompt _ _ _ _ _ = Ok (anchor _ _ ?k) =>
        let rec split_at pre l :=
          lazymatch l with
          | k :: ?post =>
              apply (infer_first_match prompt W H index total pre post k);
              [ reflexivity | exact Hkey
              | intros k' Hk'; apply Hfalse;
                [ unfold POSITION_KEYWORDS; simpl in Hk' |- *;
                  repeat destruct Hk' as [<- | Hk']; tauto
                | simpl in Hk'; repeat destruct Hk' as [<- | Hk'];
                  try contradiction; reflexivity ] ]
          | ?a :: ?rest => split_at (pre ++ [a])%list rest
          end in
        let l := eval unfold POSITION_KEYWORDS in POSITION_KEYWORDS in
        split_at (@nil string) l
    end.
Qed.

Lemma matched_keyword_in (p key : string) :
  matched_keyword p = Some key ->
  In key POSITION_KEYWORDS /\ contains key p = true.
Proof. intros M. apply find_some in M. exact M. Qed.

(** [infer_position_from_prompt] raises in one situation only: no keyword
    matched and [total + 1] is zero. *)
Lemma infer_raises_iff (prompt : option string) (W H index total : Z) :
  raised (infer_position_from_prompt prompt W H index total) = true <->
  no_position_keyword prompt /\ total = -1.
Proof.
  unfold infer_position_from_prompt.
  destruct (matched_keyword (lower (or_empty prompt))) as [key|] eqn:M.
  - destruct (matched_keyword_in _ _ M) as [Hin Hc].
    rewrite (getitem_spots W H key Hin). simpl. split; [discriminate|].
    intros [Hno _]. rewrite (Hno key Hin) in Hc. discriminate.
  - unfold matched_keyword in M.
    pose proof (proj1 (find_none_iff _ _) M) as Hno. unfold floordiv.
    destruct (total + 1 =? 0) eqn:E; simpl.
    + apply Z.eqb_eq in E. split; [intros _; split; [exact Hno | lia] | reflexivity].
    + apply Z.eqb_neq in E. split; [discriminate | intros [_ Ht]; lia].
Qed.

(** C1. A prompt in which one position keyword occurs, alone or with
    keywords that are pieces of its own text (as "top" and "left" are of
    "top-left"), is placed at that keyword's anchor, whatever [index] and
    [total] are: a corner 40 pixels inside both edges, the midpoint of an
    edge 40 pixels inside it, or the canvas midpoint for "center" and
    "middle".  This covers every prompt in which exactly one of the ten
    keywords occurs, and the prompts that name one corner.  With a 1280x720
    canvas and the prompt "sitting at a table on the right" every character
    is anchored at (1240, 360). *)
Theorem single_keyword_anchor (prompt : option string) (W H : Z) (key : string) :
  In key POSITION_KEYWORDS ->
  contains key (lower (or_empty prompt)) = true ->
  (forall k, In k POSITION_KEYWORDS ->
             contains k (lower (or_empty prompt)) = true ->
             contains k key = true) ->
  (forall index total,
      infer_position_from_prompt prompt W H index total = Ok (anchor W H key)) /\
  (forall index total index' total',
      infer_position_from_prompt prompt W H index total =
      infer_position_from_prompt prompt W H index' total') /\
  (forall index total,
      infer_position_from_prompt (Some "sitting at a table on the right")
        1280 720 index total = Ok (1240, 360)).
Proof.
  intros Hin Hkey Hcover.
  assert (G : forall index total,
             infer_position_from_prompt prompt W H index total
             = Ok (anchor W H key))
    by (intros index total; now apply infer_covering_keyword).
  split; [exact G|]. split.
  - intros. now rewrite !G.
  - intros index total.
    apply (infer_first_match (Some "sitting at a table on the right")
             1280 720 index total
             ["top-left"; "top-right"; "bottom-left"; "bottom-right"; "left"]
             ["top"; "bottom"; "center"; "middle"] "right").
    + reflexivity.
    + reflexivity.
    + intros k Hk. simpl in Hk.
      repeat destruct Hk as [<- | Hk]; try reflexivity. contradiction.
Qed.

Lemma single_keyword_anchor_witness :
  infer_position_from_prompt (Some "put her in the TOP-LEFT corner")
    1280 720 0 2 = Ok (40, 40) /\
  infer_position_from_prompt (Some "sitting at a table on the right")
    1280 720 0 2 = Ok (1240, 360) /\
  infer_position_from_prompt (Some "sitting at a table on the right")
    1280 720 1 2 = Ok (1240, 360).
Proof.
  split.
  - destruct (single_keyword_anchor (Some "put her in the TOP-LEFT corner")
                1280 720 "top-left") as [G _].
    + simpl; tauto.
    + reflexivity.
    + intros k Hk Hc. simpl in Hk.
      repeat destruct Hk as [<- | Hk];
        try reflexivity; try contradiction; vm_compute in Hc; discriminate.
    + exact (G 0 2).
  - destruct (single_keyword_anchor (Some "sitting at a table on the right")
                1280 720 "right") as [G _].
    + simpl; tauto.
    + reflexivity.
    + intros k Hk Hc. simpl in Hk.
      repeat destruct Hk as [<- | Hk];
        try reflexivity; try contradiction; vm_compute in Hc; discriminate.
    + split; [exact (G 0 2) | exact (G 1 2)].
Defined.

(** C2. The keywords are tried in the order of [POSITION_KEYWORDS] and the
    first one that occurs in the lower-cased prompt decides the anchor.  A
    prompt in which "top-left" occurs is therefore matched on "top-left",
    never on "top" or "left", and is placed at (40, 40); that point differs
    from the "top" anchor unless [W / 2 = 40] and from the "left" anchor
    unless [H / 2 = 40]. *)
Theorem priority_order (prompt : option string) (W H index total : Z) :
  (forall pre key post,
      POSITION_KEYWORDS = (pre ++ key :: post)%list ->
      contains key (lower (or_empty prompt)) = true ->
      (forall k, In k pre -> contains k (lower (or_empty prompt)) = false) ->
      matched_keyword (lower (or_empty prompt)) = Some key /\
      infer_position_from_prompt prompt W H index total = Ok (anchor W H key)) /\
  (contains "top-left" (lower (or_empty prompt)) = true ->
   matched_keyword (lower (or_empty prompt)) = Some "top-left" /\
   matched_keyword (lower (or_empty prompt)) <> Some "top" /\
   matched_keyword (lower (or_empty prompt)) <> Some "left" /\
   infer_position_from_prompt prompt W H index total = Ok (40, 40) /\
   (W / 2 <> 40 ->
    infer_position_from_prompt prompt W H index total <> Ok (anchor W H "top")) /\
   (H / 2 <> 40 ->
    infer_position_from_prompt prompt W H index total <> Ok (anchor W H "left"))).
Proof.
  split.
  - intros pre key post. apply infer_first_match.
  - intros Htl.
    destruct (infer_first_match prompt W H index total [] _ "top-left"
                eq_refl Htl) as [M I].
    { intros k []. }
    rewrite M, I. repeat split; try discriminate.
    + change (anchor W H "top") with (W / 2, 40).
      change (anchor W H "top-left") with (40, 40).
      intros HW E. injection E as E. congruence.
    + change (anchor W H "left") with (40, H / 2).
      change (anchor W H "top-left") with (40, 40).
      intros HH E. injection E as E. congruence.
Qed.

Lemma priority_order_witness :
  contains "top-left" "put her in the top-left corner" = true /\
  contains "top" "put her in the top-left corner" = true /\
  contains "left" "put her in the top-left corner" = true /\
  infer_position_from_prompt (Some "put her in the top-left corner")
    1280 720 0 1 = Ok (40, 40) /\
  infer_position_from_prompt (Some "put her in the top-left corner")
    1280 720 0 1 <> Ok (anchor 1280 720 "top") /\
  infer_position_from_prompt (Some "put her in the top-left corner")
    1280 720 0 1 <> Ok (anchor 1280 720 "left").
Proof.
  destruct (priority_order (Some "put her in the top-left corner")
              1280 720 0 1) as [_ P].
  destruct (P eq_refl) as [_ [_ [_ [I [T L]]]]].
  do 3 (split; [reflexivity|]). split; [exact I|].
  split; [apply T | apply L]; vm_compute; discriminate.
Defined.

(** C9. The divisor of the fallback spacing is [total + 1]: with
    [total >= 0], and so with no character at all, the function returns a
    point and raises nothing. *)
Theorem no_division_by_zero (prompt : option string) (W H index total : Z) :
  0 <= total ->
  exists xy, infer_position_from_prompt prompt W H index total = Ok xy.
Proof.
  intros Ht.
  destruct (infer_position_from_prompt prompt W H index total) as [xy|e] eqn:E.
  - now exists xy.
  - assert (R : raised (infer_position_from_prompt prompt W H index total) = true)
      by now rewrite E.
    apply infer_raises_iff in R. lia.
Qed.

Lemma no_division_by_zero_witness :
  0 <= 0 /\
  exists xy, infer_position_from_prompt (Some "two friends") 1280 720 0 0 = Ok xy.
Proof.
  split; [lia|]. apply (no_division_by_zero (Some "two friends") 1280 720 0 0). lia.
Defined.

(** The guard is tight: one character short of none, the division fails. *)
Example infer_total_minus_one :
  infer_position_from_prompt (Some "two friends") 1280 720 0 (-1)
  = Raise (mk_exn ZeroDivisionError "integer division or modulo by zero").
Proof. reflexivity. Qed.

(* ------------------------------------------------------------------ *)
(** ** Fallback spacing *)

(** Consecutive quotients of an arithmetic progression by [M] step by the
    quotient of the common difference, or by one more. *)
Lemma div_step (a D M : Z) :
  0 < M -> D / M <= (a + D) / M - a / M <= D / M + 1.
Proof.
  intros HM.
  pose proof (Z.div_mod a M ltac:(lia)) as Ea.
  pose proof (Z.div_mod D M ltac:(lia)) as Ed.
  pose proof (Z.mod_pos_bound a M HM) as Ba.
  pose proof (Z.mod_pos_bound D M HM) as Bd.
  assert (E : a + D = (a / M + D / M) * M + (a mod M + D mod M)) by lia.
  rewrite E, Z.div_add_l by lia.
  assert (0 <= (a mod M + D mod M) / M <= 1).
  { split; [apply Z.div_pos; lia|].
    apply Z.lt_succ_r. apply Z.div_lt_upper_bound; lia. }
  lia.
Qed.

Lemma div_step_exact (a D M : Z) :
  0 < M -> D mod M = 0 -> (a + D) / M - a / M = D / M.
Proof.
  intros HM Hd.
  pose proof (Z.div_mod D M ltac:(lia)) as Ed. rewrite Hd, Z.add_0_r in Ed.
  rewrite Ed at 1. rewrite (Z.mul_comm M), Z.div_add by lia. lia.
Qed.

Lemma fallback_gap (W i N : Z) :
  fallback_x W (i + 1) N - fallback_x W i N =
  ((i + 1) * (W - 2 * 40) + (W - 2 * 40)) / (N + 1)
  - ((i + 1) * (W - 2 * 40)) / (N + 1).
Proof.
  unfold fallback_x.
  replace ((i + 1 + 1) * (W - 2 * 40))
    with ((i + 1) * (W - 2 * 40) + (W - 2 * 40)) by ring.
  ring.
Qed.

Lemma fallback_ends (W N : Z) :
  0 <= N -> fallback_x W (-1) N = 40 /\ fallback_x W N N = W - 40.
Proof.
  intros HN. unfold fallback_x. split.
  - replace ((-1 + 1) * (W - 2 * 40)) with 0 by ring.
    rewrite Z.div_0_l by lia. reflexivity.
  - rewrite Z.mul_comm, Z.div_mul by lia. ring.
Qed.

(** C3, as the code has it.  With no position keyword in the prompt and [N]
    characters, the character of index [i] is placed at
    [x = pad + (i+1) * (W - 2*pad) // (N+1)] (the division rounds down) and
    [y = H - pad].  Counting the two ends [pad] and [W - pad] as indices
    [-1] and [N], each step from one abscissa to the next is the quotient
    [(W - 2*pad) // (N+1)] or one pixel more, and exactly the quotient when
    [N + 1] divides [W - 2*pad]; the abscissas never decrease on a canvas at
    least [2*pad] wide, and they increase strictly, staying strictly between
    [pad] and [W - pad], when [N + 1 <= W - 2*pad]. *)
Theorem fallback_spacing (prompt : option string) (W H N : Z) :
  no_position_keyword prompt ->
  0 <= N ->
  (forall i, infer_position_from_prompt prompt W H i N
             = Ok (fallback_x W i N, H - pad)) /\
  (fallback_x W (-1) N = pad /\ fallback_x W N N = W - pad) /\
  (forall i, (W - 2 * pad) / (N + 1)
             <= fallback_x W (i + 1) N - fallback_x W i N
             <= (W - 2 * pad) / (N + 1) + 1) /\
  ((W - 2 * pad) mod (N + 1) = 0 ->
   forall i, fallback_x W (i + 1) N - fallback_x W i N
             = (W - 2 * pad) / (N + 1)) /\
  (2 * pad <= W ->
   forall i, fallback_x W i N <= fallback_x W (i + 1) N) /\
  (N + 1 <= W - 2 * pad ->
   (forall i, fallback_x W i N < fallback_x W (i + 1) N) /\
   (forall i, 0 <= i < N -> pad < fallback_x W i N < W - pad)).
Proof.
  intros Hno HN. unfold pad.
  assert (HM : 0 < N + 1) by lia.
  assert (Gap : forall i, (W - 2 * 40) / (N + 1)
                          <= fallback_x W (i + 1) N - fallback_x W i N
                          <= (W - 2 * 40) / (N + 1) + 1).
  { intros i. rewrite fallback_gap. apply div_step. exact HM. }
  split; [|split; [|split; [|split; [|split]]]].
  - intros i. rewrite infer_no_keyword by exact Hno.
    unfold floordiv, pad, fallback_x.
    destruct (N + 1 =? 0) eqn:E; [apply Z.eqb_eq in E; lia | reflexivity].
  - apply fallback_ends. exact HN.
  - exact Gap.
  - intros Hdiv i. rewrite fallback_gap. apply div_step_exact; assumption.
  - intros HW i. specialize (Gap i).
    assert (0 <= (W - 2 * 40) / (N + 1)) by (apply Z.div_pos; lia). lia.
  - intros Hroom.
    assert (Q : 1 <= (W - 2 * 40) / (N + 1))
      by (apply Z.div_le_lower_bound; lia).
    assert (Inc : forall i, fallback_x W i N < fallback_x W (i + 1) N)
      by (intros i; specialize (Gap i); lia).
    split; [exact Inc|].
    intros i Hi. destruct (fallback_ends W N HN) as [Elo Ehi].
    assert (Up : forall k, 0 <= k ->
               fallback_x W (-1) N + k <= fallback_x W (-1 + k) N).
    { intros k Hk. pattern k. apply natlike_ind; [| |exact Hk].
      - change (-1 + 0) with (-1). lia.
      - intros j Hj IH. specialize (Inc (-1 + j)).
        replace (-1 + Z.succ j) with (-1 + j + 1) by lia. lia. }
    assert (Down : forall k, 0 <= k ->
               fallback_x W (N - k) N + k <= fallback_x W N N).
    { intros k Hk. pattern k. apply natlike_ind; [| |exact Hk].
      - rewrite Z.sub_0_r. lia.
      - intros j Hj IH. specialize (Inc (N - Z.succ j)).
        replace (N - Z.succ j + 1) with (N - j) in Inc by lia. lia. }
    specialize (Up (i + 1) ltac:(lia)). specialize (Down (N - i) ltac:(lia)).
    replace (-1 + (i + 1)) with i in Up by lia.
    replace (N - (N - i)) with i in Down by lia. lia.
Qed.

Lemma fallback_spacing_witness :
  no_position_keyword (Some "two friends") /\
  infer_position_from_prompt (Some "two friends") 1280 720 0 2 = Ok (440, 680) /\
  infer_position_from_prompt (Some "two friends") 1280 720 1 2 = Ok (840, 680) /\
  (1280 - 2 * pad) mod (2 + 1) = 0 /\
  fallback_x 1280 0 2 - fallback_x 1280 (-1) 2 = 400 /\
  fallback_x 1280 1 2 - fallback_x 1280 0 2 = 400 /\
  fallback_x 1280 2 2 - fallback_x 1280 1 2 = 400.
Proof.
  assert (Hno : no_position_keyword (Some "two friends")).
  { intros k Hk. simpl in Hk.
    repeat destruct Hk as [<- | Hk]; try reflexivity. contradiction. }
  split; [exact Hno|].
  destruct (fallback_spacing (Some "two friends") 1280 720 2 Hno ltac:(lia))
    as [I [_ [_ [E _]]]].
  split; [exact (I 0)|]. split; [exact (I 1)|]. split; [reflexivity|].
  split; [exact (E eq_refl (-1))|]. split; [exact (E eq_refl 0) | exact (E eq_refl 1)].
Defined.

(** C3 as stated fails on the code.  On the default 1280x720 canvas six
    characters are not evenly spaced: the first step is 171 pixels and the
    second 172.  On a 480 pixel wide canvas with 800 characters the first
    two share one abscissa, so the sequence is not strictly increasing. *)
Lemma fallback_spacing_counterexample :
  no_position_keyword (Some "two friends") /\
  (exists x0 x1 x2,
      infer_position_from_prompt (Some "two friends") 1280 720 0 6 = Ok (x0, 680) /\
      infer_position_from_prompt (Some "two friends") 1280 720 1 6 = Ok (x1, 680) /\
      infer_position_from_prompt (Some "two friends") 1280 720 2 6 = Ok (x2, 680) /\
      x1 - x0 <> x2 - x1) /\
  (exists x0 x1,
      infer_position_from_prompt (Some "two friends") 480 270 0 800 = Ok (x0, 230) /\
      infer_position_from_prompt (Some "two friends") 480 270 1 800 = Ok (x1, 230) /\
      ~ x0 < x1).
Proof.
  split.
  - intros k Hk. simpl in Hk.
    repeat destruct Hk as [<- | Hk]; try reflexivity. contradiction.
  - split.
    + exists 211, 382, 554. repeat split; try reflexivity. discriminate.
    + exists 40, 40. repeat split; try reflexivity. lia.
Qed.

(* ------------------------------------------------------------------ *)
(** ** Action extraction *)

Lemma Subseq_filter {A : Type} (f : A -> bool) (m : list A) :
  Subseq (filter f m) m.
Proof.
  induction m as [|a m IH]; simpl; [constructor|].
  destruct (f a); now constructor.
Qed.

Lemma Subseq_In {A : Type} (l m : list A) (a : A) :
  Subseq l m -> In a l -> In a m.
Proof.
  induction 1 as [|b l m _ IH|b l m _ IH]; simpl; intros Ha; auto.
  destruct Ha as [<- | Ha]; auto.
Qed.

Lemma Subseq_NoDup {A : Type} (l m : list A) :
  Subseq l m -> NoDup m -> NoDup l.
Proof.
  induction 1 as [|b l m S IH|b l m S IH]; intros Hm; trivial.
  - inversion Hm; auto.
  - inversion Hm as [|? ? Hb Hm']; subst. constructor; auto.
    intros Hin. apply Hb. eapply Subseq_In; eauto.
Qed.

(** Two selections from a list without repetition that have the same
    members are the same list: the order is that of the list selected from. *)
Lemma Subseq_unique {A : Type} (m l l' : list A) :
  NoDup m -> Subseq l m -> Subseq l' m ->
  (forall a, In a l <-> In a l') -> l = l'.
Proof.
  intros Hm. revert l l'.
  induction Hm as [|a m Ha Hm IH]; intros l l' S S' Hsame.
  - inversion S; inversion S'; reflexivity.
  - inversion S as [|? l1 ? S1|? l1 ? S1]; subst;
      inversion S' as [|? l1' ? S1'|? l1' ? S1']; subst.
    + now apply IH.
    + exfalso. apply Ha. apply (Subseq_In l m a S1). apply Hsame. now left.
    + exfalso. apply Ha. apply (Subseq_In l' m a S1'). apply Hsame. now left.
    + f_equal. apply IH; trivial. intros b. split; intros Hb.
      * assert (Hb' : In b (a :: l1')) by (apply Hsame; now right).
        destruct Hb' as [<- | Hb']; [|exact Hb'].
        exfalso. apply Ha. exact (Subseq_In _ _ _ S1 Hb).
      * assert (Hb' : In b (a :: l1)) by (apply Hsame; now right).
        destruct Hb' as [<- | Hb']; [|exact Hb'].
        exfalso. apply Ha. exact (Subseq_In _ _ _ S1' Hb).
Qed.

Lemma ACTION_KEYWORDS_NoDup : NoDup ACTION_KEYWORDS.
Proof.
  unfold ACTION_KEYWORDS.
  repeat (constructor;
          [simpl; intros Hin; repeat destruct Hin as [Hin | Hin];
           try discriminate; contradiction|]).
  constructor.
Qed.

Lemma ACTION_KEYWORDS_small (k : string) :
  In k ACTION_KEYWORDS -> small_letters k = true /\ k <> "".
Proof.
  unfold ACTION_KEYWORDS. simpl. intros Hin.
  repeat destruct Hin as [<- | Hin]; try contradiction;
    (split; [reflexivity | discriminate]).
Qed.

(** C4. [extract_actions] returns exactly the action keywords that occur in
    the prompt when case is ignored: a keyword occurs when a piece of the
    prompt writes it letter by letter, each letter small or capital (or,
    for "k", the Kelvin sign, which lower-cases to "k").  The keywords come
    in the order of [ACTION_KEYWORDS], each once, so the list is determined
    by which keywords occur and not by where they occur; prompts that
    differ in the case of letters only, and so equal prompts, give the same
    list. *)
Theorem extract_actions_spec (prompt : option string) :
  (forall k,
      In k (extract_actions prompt) <->
      In k ACTION_KEYWORDS /\
      exists pre s post,
        or_empty prompt = pre ++ s ++ post /\ spells s k) /\
  Subseq (extract_actions prompt) ACTION_KEYWORDS /\
  NoDup (extract_actions prompt) /\
  (forall l,
      Subseq l ACTION_KEYWORDS ->
      (forall k, In k l <-> In k (extract_actions prompt)) ->
      l = extract_actions prompt) /\
  (forall prompt',
      same_up_to_case (or_empty prompt) (or_empty prompt') ->
      extract_actions prompt' = extract_actions prompt).
Proof.
  assert (S : Subseq (extract_actions prompt) ACTION_KEYWORDS)
    by apply Subseq_filter.
  split; [|split; [exact S|split; [|split]]].
  - intros k. unfold extract_actions. rewrite filter_In. split.
    + intros [Hin Hc]. split; [exact Hin|].
      destruct (ACTION_KEYWORDS_small k Hin) as [Hk Hne].
      now apply (contains_lower_spec k _ Hk Hne).
    + intros [Hin Hs]. split; [exact Hin|].
      destruct (ACTION_KEYWORDS_small k Hin) as [Hk Hne].
      now apply (contains_lower_spec k _ Hk Hne).
  - exact (Subseq_NoDup _ _ S ACTION_KEYWORDS_NoDup).
  - intros l Sl Hsame.
    exact (Subseq_unique _ _ _ ACTION_KEYWORDS_NoDup Sl S Hsame).
  - intros prompt' E. unfold extract_actions, lower.
    now rewrite (same_up_to_case_lower _ _ E 0).
Qed.

Example extract_actions_default_prompt :
  extract_actions
    (Some "Two characters sitting at a table on the right; one is waving, the other is reading.")
  = ["sitting"; "waving"; "reading"].
Proof. reflexivity. Qed.

Example extract_actions_no_prompt : extract_actions None = [].
Proof. reflexivity. Qed.

(** Outside ASCII: the Kelvin sign lower-cases to "k" and completes
    "walking"; the dotted capital I lower-cases to "i" with a combining dot
    and does not complete "sitting"; an accented capital changes nothing to
    the keywords around it. *)
Example extract_actions_kelvin :
  extract_actions (Some ("WAL" ++ KELVIN_SIGN ++ "ING")) = ["walking"] /\
  extract_actions (Some ("S" ++ CAPITAL_I_WITH_DOT ++ "TTING")) = [] /\
  extract_actions (Some "DANCING À LA MODE") = ["dancing"].
Proof. repeat split; reflexivity. Qed.

(* ------------------------------------------------------------------ *)
(** ** Scaling: binary64 products and their integer parts *)

(** Rounding keeps the sign it is given. *)
Lemma binary_round_aux_not_negative (mx ex : Z) (lx : location) :
  not_negative (binary_round_aux binary64_prec binary64_emax false mx ex lx).
Proof.
  unfold binary_round_aux.
  destruct (shr_fexp binary64_prec binary64_emax mx ex lx) as [mrs' e'].
  destruct (shr_fexp _ _ _ e' loc_Exact) as [mrs'' e''].
  destruct (shr_m mrs''); simpl; trivial.
  destruct (_ <=? _); simpl; trivial.
Qed.

Lemma float_of_int_not_negative (n : Z) (f : float) :
  0 <= n -> float_of_int n = Ok f -> not_negative f.
Proof.
  intros Hn. unfold float_of_int, binary_normalize.
  destruct n as [|m|m]; [| |lia].
  - intros E. injection E as <-. exact I.
  - unfold binary_round.
    destruct (shl_align m 0 _) as [mz ez].
    pose proof (binary_round_aux_not_negative (Z.pos mz) ez loc_Exact) as P.
    destruct (binary_round_aux _ _ false (Z.pos mz) ez loc_Exact);
      intros E; try discriminate; injection E as <-; exact P.
Qed.

Lemma float_mul_not_negative (a s : float) :
  not_negative a -> float_pos s = true -> not_negative (float_mul a s).
Proof.
  unfold float_mul, SFmul.
  destruct a as [sa|sa| |sa ma ea]; destruct s as [ss|ss| |ss ms es];
    simpl; try discriminate; trivial;
    destruct sa; try contradiction; destruct ss; try discriminate; trivial.
  intros _ _. apply binary_round_aux_not_negative.
Qed.

(** On a float that is not below zero, truncation and floor agree. *)
Lemma int_of_float_floor (r : float) :
  not_negative r ->
  match float_floor r with
  | Some v => int_of_float r = Ok v /\ 0 <= v
  | None => raised (int_of_float r) = true
  end.
Proof.
  destruct r as [s|s| |s m e]; simpl; try (intros _; split; [reflexivity | lia]);
    trivial.
  destruct s; [contradiction|]. intros _. split; [reflexivity|].
  apply Z.shiftl_nonneg. lia.
Qed.

(** [int(n * s)] for [n >= 0] and [s > 0]: the floor of the binary64
    product, or an exception when the product is not finite. *)
Lemma int_of_product (n : Z) (s : float) :
  0 <= n -> float_pos s = true ->
  match floor_of_product n s with
  | Some v => (r <- int_mul_float n s ;; int_of_float r) = Ok v /\ 0 <= v
  | None => raised (r <- int_mul_float n s ;; int_of_float r) = true
  end.
Proof.
  intros Hn Hs. unfold floor_of_product, int_mul_float.
  destruct (float_of_int n) as [a|e] eqn:Ea; simpl; [|reflexivity].
  apply int_of_float_floor, float_mul_not_negative; trivial.
  now apply (float_of_int_not_negative n).
Qed.

Lemma scaled_size_floor (w h : Z) (s : float) :
  0 <= w -> 0 <= h -> float_pos s = true ->
  match floor_of_product w s, floor_of_product h s with
  | Some iw, Some ih => scaled_size w h s = Ok (Z.max 1 iw, Z.max 1 ih)
  | _, _ => raised (scaled_size w h s) = true
  end.
Proof.
  intros Hw Hh Hs.
  pose proof (int_of_product w s Hw Hs) as Pw.
  pose proof (int_of_product h s Hh Hs) as Ph.
  unfold scaled_size.
  destruct (floor_of_product w s) as [iw|].
  - destruct Pw as [Pw _].
    destruct (int_mul_float w s) as [fw|]; simpl in Pw |- *; [|discriminate].
    rewrite Pw. simpl.
    destruct (floor_of_product h s) as [ih|].
    + destruct Ph as [Ph _].
      destruct (int_mul_float h s) as [fh|]; simpl in Ph |- *; [|discriminate].
      now rewrite Ph.
    + destruct (int_mul_float h s) as [fh|]; simpl in Ph |- *; [|reflexivity].
      destruct (int_of_float fh); [discriminate | reflexivity].
  - destruct (int_mul_float w s) as [fw|]; simpl in Pw |- *; [|reflexivity].
    destruct (int_of_float fw); [discriminate | reflexivity].
Qed.

Lemma all_below_spec (n : Z) (f : Z -> bool) :
  all_below n f = true -> forall k, 0 <= k < n -> f k = true.
Proof.
  unfold all_below. intros Hall k Hk.
  assert (Hk' : 0 <= k < Z.of_nat (Z.to_nat n)) by lia. clear Hk.
  induction (Z.to_nat n) as [|m IH]; [lia|].
  simpl in Hall. apply andb_true_iff in Hall. destruct Hall as [Hm Hall].
  destruct (Z.eq_dec k (Z.of_nat m)) as [-> | Hne]; [exact Hm|].
  apply IH; [exact Hall | lia].
Qed.


(* ------------------------------------------------------------------ *)
(** ** Binary64 arithmetic on half-integers is exact *)

Lemma pshift_val (m : positive) (k : Z) :
  0 <= k -> Z.pos (pshift m k) = Z.pos m * 2 ^ k.
Proof.
  destruct k as [|p|p]; [simpl; lia | | lia]. intros _. unfold pshift.
  induction p as [|p IH] using Pos.peano_ind.
  - simpl Pos.iter. change (2 ^ 1) with 2. rewrite Pos2Z.inj_xO. lia.
  - rewrite Pos.iter_succ, Pos2Z.inj_succ, Z.pow_succ_r by lia.
    rewrite Pos2Z.inj_xO, IH. ring.
Qed.

Lemma pshift_digits (m : positive) (k : Z) :
  0 <= k -> digits (pshift m k) = digits m + k.
Proof.
  unfold digits. destruct k as [|p|p]; [simpl; lia | | lia]. intros _.
  unfold pshift. induction p as [|p IH] using Pos.peano_ind.
  - simpl Pos.iter. simpl digits2_pos. rewrite Pos2Z.inj_succ. lia.
  - rewrite Pos.iter_succ. simpl digits2_pos. rewrite Pos2Z.inj_succ, IH. lia.
Qed.

Lemma pshift_pshift (m : positive) (a b : Z) :
  0 <= a -> 0 <= b -> pshift (pshift m a) b = pshift m (a + b).
Proof.
  intros Ha Hb. apply Pos2Z.inj. rewrite !pshift_val by lia.
  rewrite Z.pow_add_r by lia. ring.
Qed.

Lemma digits_bounds (m : positive) :
  2 ^ (digits m - 1) <= Z.pos m < 2 ^ digits m.
Proof.
  unfold digits. induction m as [m IH|m IH|]; simpl digits2_pos.
  - rewrite Pos2Z.inj_succ, Z.pow_succ_r by lia.
    replace (Z.succ (Z.pos (digits2_pos m)) - 1)
      with (Z.succ (Z.pos (digits2_pos m) - 1)) by lia.
    rewrite Z.pow_succ_r by lia. lia.
  - rewrite Pos2Z.inj_succ, Z.pow_succ_r by lia.
    replace (Z.succ (Z.pos (digits2_pos m)) - 1)
      with (Z.succ (Z.pos (digits2_pos m) - 1)) by lia.
    rewrite Z.pow_succ_r by lia. lia.
  - simpl. lia.
Qed.

Lemma digits_le (m : positive) (n : Z) :
  0 <= n -> Z.pos m < 2 ^ n -> digits m <= n.
Proof.
  intros Hn Hm. destruct (digits_bounds m) as [Lo _].
  destruct (Z_le_gt_dec (digits m) n) as [|Hgt]; [assumption|].
  assert (2 ^ n <= 2 ^ (digits m - 1)) by (apply Z.pow_le_mono_r; lia). lia.
Qed.

Lemma iter_pos_iter {A : Type} (f : A -> A) (p : positive) (a : A) :
  iter_pos f p a = Pos.iter f a p.
Proof.
  revert a. induction p as [p IH|p IH|]; intros a; simpl.
  - rewrite !IH. rewrite <- Pos.iter_swap. now rewrite <- Pos.iter_swap.
  - now rewrite !IH.
  - reflexivity.
Qed.

(** Shifting out zeros loses nothing. *)
Lemma shr_exact (m : positive) (p : positive) :
  iter_pos shr_1 p
    {| shr_m := Z.pos (Pos.iter xO m p); shr_r := false; shr_s := false |}
  = {| shr_m := Z.pos m; shr_r := false; shr_s := false |}.
Proof.
  rewrite iter_pos_iter.
  induction p as [|p IH] using Pos.peano_ind.
  - reflexivity.
  - rewrite (Pos.iter_succ p _ xO). rewrite Pos.iter_succ, <- Pos.iter_swap.
    simpl shr_1. exact IH.
Qed.

Lemma shr_fexp_53 (m : positive) (e : Z) :
  digits m = 53 -> -1074 <= e ->
  shr_fexp binary64_prec binary64_emax (Z.pos m) e loc_Exact
  = ({| shr_m := Z.pos m; shr_r := false; shr_s := false |}, e).
Proof.
  unfold digits. intros Hd He.
  unfold shr_fexp, Zdigits2, fexp, emin, shr_record_of_loc,
    binary64_prec, binary64_emax.
  rewrite Hd.
  replace (Z.max (53 + e - 53) (3 - 1024 - 53) - e) with 0 by lia.
  reflexivity.
Qed.

(** Rounding a mantissa of exactly 53 digits changes nothing. *)
Lemma binary_round_aux_53 (s : bool) (m : positive) (e : Z) :
  digits m = 53 -> -1074 <= e <= 971 ->
  binary_round_aux binary64_prec binary64_emax s (Z.pos m) e loc_Exact
  = S754_finite s m e.
Proof.
  intros Hd He. unfold binary_round_aux.
  rewrite shr_fexp_53 by (trivial; lia).
  cbv beta iota zeta. unfold shr_m at 1, loc_of_shr_record, round_nearest_even.
  rewrite shr_fexp_53 by (trivial; lia).
  cbv beta iota zeta. unfold shr_m, binary64_prec, binary64_emax.
  replace (e <=? 1024 - 53) with true by (symmetry; apply Z.leb_le; lia).
  reflexivity.
Qed.

(** Rounding [m * 2^k] for a mantissa [m] of 53 digits: the [k] zeros are
    shifted out. *)
Lemma binary_round_aux_shift (s : bool) (m : positive) (k e : Z) :
  digits m = 53 -> 0 <= k -> -1074 <= e + k <= 971 ->
  binary_round_aux binary64_prec binary64_emax s (Z.pos (pshift m k)) e
    loc_Exact
  = S754_finite s m (e + k).
Proof.
  intros Hd Hk He. destruct k as [|p|p]; [| |lia].
  - rewrite Z.add_0_r in *. apply binary_round_aux_53; trivial.
  - assert (Hshr : shr_fexp binary64_prec binary64_emax
                     (Z.pos (pshift m (Z.pos p))) e loc_Exact
                   = ({| shr_m := Z.pos m; shr_r := false; shr_s := false |},
                      e + Z.pos p)).
    { unfold shr_fexp, Zdigits2.
      change (Z.pos (digits2_pos (pshift m (Z.pos p))))
        with (digits (pshift m (Z.pos p))).
      rewrite pshift_digits, Hd by lia.
      replace (fexp binary64_prec binary64_emax (53 + Z.pos p + e) - e)
        with (Z.pos p)
        by (unfold fexp, emin, binary64_prec, binary64_emax; lia).
      unfold shr_record_of_loc, shr, pshift. now rewrite shr_exact. }
    unfold binary_round_aux. rewrite Hshr.
    cbv beta iota zeta.
    unfold shr_m at 1, loc_of_shr_record, round_nearest_even.
    rewrite shr_fexp_53 by (trivial; lia).
    cbv beta iota zeta. unfold shr_m, binary64_prec, binary64_emax.
    replace (e + Z.pos p <=? 1024 - 53) with true
      by (symmetry; apply Z.leb_le; lia).
    reflexivity.
Qed.

(** Rounding [m0 * 2^k * 2^e] when [m0] has at most 53 digits: the value is
    kept, the mantissa is brought to 53 digits. *)
Lemma binary_round_exact (s : bool) (m0 : positive) (k e : Z) :
  digits m0 <= 53 -> 0 <= k -> -1074 <= digits m0 + k + e - 53 <= 971 ->
  binary_round binary64_prec binary64_emax s (pshift m0 k) e
  = dyadic s m0 (k + e).
Proof.
  intros Hd Hk He. unfold dyadic.
  pose proof (pshift_digits m0 k Hk) as Dk.
  pose proof (pshift_digits m0 (53 - digits m0) ltac:(lia)) as D53.
  unfold binary_round, shl_align.
  change (Z.pos (digits2_pos (pshift m0 k))) with (digits (pshift m0 k)).
  rewrite Dk.
  replace (fexp binary64_prec binary64_emax (digits m0 + k + e) - e)
    with (digits m0 + k - 53)
    by (unfold fexp, emin, binary64_prec, binary64_emax; lia).
  replace (fexp binary64_prec binary64_emax (digits m0 + k + e))
    with (digits m0 + k + e - 53)
    by (unfold fexp, emin, binary64_prec, binary64_emax; lia).
  destruct (digits m0 + k - 53) as [|p|p] eqn:Ecase.
  - replace (pshift m0 k) with (pshift (pshift m0 (53 - digits m0)) 0)
      by (rewrite pshift_pshift by lia; f_equal; lia).
    rewrite binary_round_aux_shift by lia. f_equal. lia.
  - replace (pshift m0 k)
      with (pshift (pshift m0 (53 - digits m0)) (Z.pos p))
      by (rewrite pshift_pshift by lia; f_equal; lia).
    rewrite binary_round_aux_shift by lia. f_equal. lia.
  - change (Pos.iter xO (pshift m0 k) p) with (pshift (pshift m0 k) (Z.pos p)).
    rewrite pshift_pshift by lia.
    replace (k + Z.pos p) with (53 - digits m0) by lia.
    replace (Z.pos (pshift m0 (53 - digits m0)))
      with (Z.pos (pshift (pshift m0 (53 - digits m0)) 0)) by reflexivity.
    rewrite binary_round_aux_shift by lia. f_equal. lia.
Qed.

Lemma dyadic_int (n : Z) :
  n <> 0 -> Z.abs n < 2 ^ 53 ->
  float_of_int n = Ok (dyadic (n <? 0) (Z.to_pos (Z.abs n)) 0).
Proof.
  intros Hn Hb. unfold float_of_int, binary_normalize.
  destruct n as [|m|m]; [congruence| |]; simpl Z.abs in *; simpl Z.to_pos.
  - replace (binary_round binary64_prec binary64_emax false m 0)
      with (binary_round binary64_prec binary64_emax false (pshift m 0) 0)
      by reflexivity.
    pose proof (digits_le m 53 ltac:(lia) Hb).
    assert (0 < digits m) by (unfold digits; lia).
    rewrite binary_round_exact by lia. reflexivity.
  - replace (binary_round binary64_prec binary64_emax true m 0)
      with (binary_round binary64_prec binary64_emax true (pshift m 0) 0)
      by reflexivity.
    pose proof (digits_le m 53 ltac:(lia) Hb).
    assert (0 < digits m) by (unfold digits; lia).
    rewrite binary_round_exact by lia. reflexivity.
Qed.

(** Halving: dividing by [2.0] lowers the exponent by one. *)
Lemma dyadic_half (s : bool) (m : positive) :
  digits m <= 53 ->
  float_div (dyadic s m 0) (dyadic false 2 0) = dyadic s m (-1).
Proof.
  intros Hd. assert (0 < digits m) by (unfold digits; lia).
  set (m1 := pshift m (53 - digits m)).
  assert (D1 : digits m1 = 53) by (unfold m1; rewrite pshift_digits; lia).
  unfold dyadic. fold m1.
  change (S754_finite false (pshift 2 (53 - digits 2)) (digits 2 + 0 - 53))
    with (S754_finite false 4503599627370496 (-51)).
  unfold float_div, SFdiv, SFdiv_core_binary, Zdigits2.
  change (Z.pos (digits2_pos m1)) with (digits m1). rewrite D1.
  change (Z.pos (digits2_pos 4503599627370496)) with 53.
  replace (Z.min (fexp binary64_prec binary64_emax
                    (53 + (digits m + 0 - 53) - (53 + -51)))
             (digits m + 0 - 53 - -51))
    with (digits m - 55)
    by (unfold fexp, emin, binary64_prec, binary64_emax; lia).
  replace (digits m + 0 - 53 - -51 - (digits m - 55)) with 53 by lia.
  assert (Ediv : Z.div_eucl (Z.shiftl (Z.pos m1) 53) 4503599627370496
                 = (Z.pos (pshift m1 1), 0)).
  { rewrite Z.shiftl_mul_pow2 by lia.
    pose proof (Z.div_eucl_eq (Z.pos m1 * 2 ^ 53) 4503599627370496
                  ltac:(lia)) as E.
    pose proof (Z.mod_pos_bound (Z.pos m1 * 2 ^ 53) 4503599627370496
                  ltac:(lia)) as B.
    unfold Z.modulo in B.
    destruct (Z.div_eucl (Z.pos m1 * 2 ^ 53) 4503599627370496) as [q r].
    change (2 ^ 53) with (4503599627370496 * 2) in E.
    assert (q = 2 * Z.pos m1 /\ r = 0) as [-> ->] by nia.
    reflexivity. }
  rewrite Ediv. change (new_location 4503599627370496 0) with loc_Exact.
  rewrite binary_round_aux_shift by lia.
  rewrite xorb_false_r. f_equal. lia.
Qed.

Lemma shl_align_fst (m : positive) (e ez : Z) :
  ez <= e -> fst (shl_align m e ez) = pshift m (e - ez).
Proof.
  intros Hle. unfold shl_align.
  destruct (ez - e) as [|d|d] eqn:E; simpl fst.
  - replace (e - ez) with 0 by lia. reflexivity.
  - lia.
  - replace (e - ez) with (Z.pos d) by lia. reflexivity.
Qed.

Lemma quot_2_sign (t : Z) :
  Z.quot t 2 = cond_Zopp (t <? 0) (Z.abs t / 2).
Proof.
  unfold cond_Zopp. destruct (t <? 0) eqn:E.
  - apply Z.ltb_lt in E. rewrite Z.abs_neq by lia.
    replace t with (- - t) at 1 by lia.
    rewrite Z.quot_opp_l by lia. now rewrite Z.quot_div_nonneg by lia.
  - apply Z.ltb_ge in E. rewrite Z.abs_eq by lia.
    now rewrite Z.quot_div_nonneg by lia.
Qed.

Lemma int_of_dyadic_int (s : bool) (m : positive) :
  digits m <= 53 ->
  int_of_float (dyadic s m 0) = Ok (cond_Zopp s (Z.pos m)).
Proof.
  intros Hd. assert (0 < digits m) by (unfold digits; lia).
  unfold dyadic, int_of_float. cbv zeta.
  rewrite Z.shiftl_div_pow2 by lia. rewrite pshift_val by lia.
  replace (- (digits m + 0 - 53)) with (53 - digits m) by lia.
  rewrite Z.div_mul by (apply Z.pow_nonzero; lia).
  now destruct s.
Qed.

Lemma int_of_dyadic_half (s : bool) (m : positive) :
  digits m <= 53 ->
  int_of_float (dyadic s m (-1)) = Ok (cond_Zopp s (Z.pos m / 2)).
Proof.
  intros Hd. assert (0 < digits m) by (unfold digits; lia).
  unfold dyadic, int_of_float. cbv zeta.
  rewrite Z.shiftl_div_pow2 by lia. rewrite pshift_val by lia.
  replace (- (digits m + -1 - 53)) with (Z.succ (53 - digits m)) by lia.
  rewrite Z.pow_succ_r by lia.
  rewrite Z.div_mul_cancel_r by (try apply Z.pow_nonzero; lia).
  now destruct s.
Qed.

(** The difference of an integer and a half-integer, both small enough, is
    computed without rounding. *)
Lemma dyadic_sub (sx : bool) (mx mo : positive) :
  digits mx <= 53 -> digits mo <= 53 ->
  Z.abs (cond_Zopp sx (2 * Z.pos mx) - Z.pos mo) < 2 ^ 53 ->
  float_sub (dyadic sx mx 0) (dyadic false mo (-1))
  = match cond_Zopp sx (2 * Z.pos mx) - Z.pos mo with
    | 0 => S754_zero false
    | t => dyadic (t <? 0) (Z.to_pos (Z.abs t)) (-1)
    end.
Proof.
  intros Hx Ho. set (t := cond_Zopp sx (2 * Z.pos mx) - Z.pos mo). intros Bt.
  assert (0 < digits mx) by (unfold digits; lia).
  assert (0 < digits mo) by (unfold digits; lia).
  unfold float_sub, dyadic at 1 2, SFsub. cbv zeta.
  set (ez := Z.min (digits mx + 0 - 53) (digits mo + -1 - 53)).
  assert (Hez : ez <= -1) by (unfold ez; lia).
  rewrite !shl_align_fst by (unfold ez; lia).
  rewrite !pshift_pshift by (unfold ez; lia).
  replace (53 - digits mx + (digits mx + 0 - 53 - ez)) with (- ez) by lia.
  replace (53 - digits mo + (digits mo + -1 - 53 - ez)) with (- 1 - ez) by lia.
  assert (EM : cond_Zopp sx (Z.pos (pshift mx (- ez)))
               - cond_Zopp false (Z.pos (pshift mo (- 1 - ez)))
               = t * 2 ^ (- 1 - ez)).
  { rewrite !pshift_val by lia. unfold t.
    replace (- ez) with (Z.succ (- 1 - ez)) by lia.
    rewrite Z.pow_succ_r by lia. destruct sx; cbn [cond_Zopp]; ring. }
  rewrite EM. clear EM.
  destruct t as [|p|p]; simpl Z.abs in Bt; simpl Z.to_pos.
  - reflexivity.
  - pose proof (digits_le p 53 ltac:(lia) Bt).
    assert (0 < digits p) by (unfold digits; lia).
    rewrite <- pshift_val by lia. unfold binary_normalize; cbv beta iota.
    rewrite binary_round_exact by lia.
    replace (- 1 - ez + ez) with (-1) by lia. reflexivity.
  - pose proof (digits_le p 53 ltac:(lia) Bt).
    assert (0 < digits p) by (unfold digits; lia).
    replace (Z.neg p * 2 ^ (- 1 - ez)) with (Z.neg (pshift p (- 1 - ez)))
      by (rewrite <- Pos2Z.opp_pos, pshift_val by lia; lia).
    unfold binary_normalize; cbv beta iota.
    rewrite binary_round_exact by lia.
    replace (- 1 - ez + ez) with (-1) by lia. reflexivity.
Qed.

(** For anchors and sprite widths up to [2^51], binary64 arithmetic computes
    [int(x_center - ow / 2)] without rounding: [paste_rgba] pastes at the
    exact half-integer truncated towards zero. *)
Lemma paste_dest_exact (ow oh x_center y_bottom : Z) :
  - 2 ^ 51 <= x_center <= 2 ^ 51 -> 0 <= ow <= 2 ^ 51 ->
  paste_dest ow oh x_center y_bottom
  = Ok (paste_origin ow oh x_center y_bottom).
Proof.
  intros Hx Ho.
  enough (E : (half <- int_truediv ow 2 ;;
               d <- int_sub_float x_center half ;; int_of_float d)
              = Ok (paste_x x_center ow)).
  { unfold paste_dest, paste_origin.
    destruct (int_truediv ow 2) as [half|e]; [|discriminate E].
    cbn [bind] in E |- *.
    destruct (int_sub_float x_center half) as [d|e]; [|discriminate E].
    cbn [bind] in E |- *. now rewrite E. }
  unfold int_truediv, int_sub_float, paste_x.
  change (2 =? 0) with false. cbv iota.
  change (float_of_int 2) with (Ok (dyadic false 2 0)).
  change (2 ^ 51) with 2251799813685248 in Hx, Ho.
  assert (P : forall n, n <> 0 -> Z.abs n <= 2251799813685248 ->
                        digits (Z.to_pos (Z.abs n)) <= 52).
  { intros n Hn Hb. apply digits_le; [lia|].
    rewrite Z2Pos.id by lia. change (2 ^ 52) with 4503599627370496. lia. }
  assert (Hint : forall n, n <> 0 -> Z.abs n <= 2251799813685248 ->
             float_of_int n = Ok (dyadic (n <? 0) (Z.to_pos (Z.abs n)) 0)).
  { intros n Hn Hb. apply dyadic_int; trivial.
    change (2 ^ 53) with 9007199254740992. lia. }
  assert (Hsign : forall n, cond_Zopp (n <? 0) (Z.abs n) = n).
  { intros n. unfold cond_Zopp.
    destruct (n <? 0) eqn:E; [apply Z.ltb_lt in E | apply Z.ltb_ge in E]; lia. }
  destruct (Z.eq_dec ow 0) as [-> | Hne];
    destruct (Z.eq_dec x_center 0) as [-> | Hxe].
  - reflexivity.
  - change (float_of_int 0) with (Ok (S754_zero false)).
    rewrite (Hint x_center) by lia. cbn [bind].
    change (float_div (S754_zero false) (dyadic false 2 0))
      with (S754_zero false).
    change (float_sub ?f (S754_zero false)) with f.
    rewrite int_of_dyadic_int by (pose proof (P x_center Hxe); lia).
    f_equal. rewrite Z2Pos.id, Hsign by lia.
    replace (2 * x_center - 0) with (x_center * 2) by ring.
    now rewrite Z.quot_mul by lia.
  - change (float_of_int 0) with (Ok (S754_zero false)).
    rewrite (Hint ow) by lia. cbn [bind].
    replace (ow <? 0) with false by (symmetry; apply Z.ltb_ge; lia).
    rewrite dyadic_half by (pose proof (P ow Hne); lia).
    change (float_sub (S754_zero false) (dyadic false ?m (-1)))
      with (dyadic true m (-1)).
    rewrite int_of_dyadic_half by (pose proof (P ow Hne); lia).
    f_equal. rewrite Z2Pos.id by lia. rewrite quot_2_sign.
    replace (2 * 0 - ow <? 0) with true by (symmetry; apply Z.ltb_lt; lia).
    cbn [cond_Zopp]. f_equal. f_equal. lia.
  - rewrite (Hint ow), (Hint x_center) by lia. cbn [bind].
    replace (ow <? 0) with false by (symmetry; apply Z.ltb_ge; lia).
    rewrite dyadic_half by (pose proof (P ow Hne); lia).
    assert (Et : cond_Zopp (x_center <? 0)
                   (2 * Z.pos (Z.to_pos (Z.abs x_center)))
                 - Z.pos (Z.to_pos (Z.abs ow))
                 = 2 * x_center - ow).
    { rewrite !Z2Pos.id by lia. specialize (Hsign x_center).
      unfold cond_Zopp in *. destruct (x_center <? 0); lia. }
    assert (Bt : Z.abs (2 * x_center - ow) < 2 ^ 53)
      by (change (2 ^ 53) with 9007199254740992; lia).
    rewrite dyadic_sub
      by (rewrite ?Et; trivial; pose proof (P x_center Hxe);
          pose proof (P ow Hne); lia).
    rewrite Et. rewrite quot_2_sign.
    destruct (2 * x_center - ow) as [|p|p] eqn:T.
    + reflexivity.
    + rewrite int_of_dyadic_half by (apply digits_le; simpl in Bt; lia).
      reflexivity.
    + rewrite int_of_dyadic_half by (apply digits_le; simpl in Bt; lia).
      reflexivity.
Qed.

(** *** Products that stay finite *)

Lemma shr_1_bounds (mrs : shr_record) :
  0 <= shr_m mrs -> 0 <= shr_m (shr_1 mrs) <= shr_m mrs.
Proof.
  destruct mrs as [m r s]. simpl. destruct m as [|p|p]; simpl; try lia.
  destruct p; simpl; lia.
Qed.

Lemma iter_shr_1_bounds (p : positive) (mrs : shr_record) :
  0 <= shr_m mrs ->
  0 <= shr_m (iter_pos shr_1 p mrs) <= shr_m mrs.
Proof.
  rewrite iter_pos_iter. intros H0.
  induction p as [|p IH] using Pos.peano_ind.
  - apply shr_1_bounds, H0.
  - rewrite Pos.iter_succ.
    pose proof (shr_1_bounds (Pos.iter shr_1 mrs p) ltac:(lia)). lia.
Qed.

(** A right shift to the working precision: the mantissa does not grow and
    the exponent is the larger of the old one and the one the format asks
    for. *)
Lemma shr_fexp_bounds (m e : Z) (l : location) :
  0 <= m ->
  0 <= shr_m (fst (shr_fexp binary64_prec binary64_emax m e l)) <= m /\
  snd (shr_fexp binary64_prec binary64_emax m e l)
  = Z.max e (fexp binary64_prec binary64_emax (Zdigits2 m + e)).
Proof.
  intros Hm. unfold shr_fexp, shr.
  assert (Hr : shr_m (shr_record_of_loc m l) = m)
    by (destruct l as [|[ | | ]]; reflexivity).
  destruct (fexp binary64_prec binary64_emax (Zdigits2 m + e) - e)
    as [|p|p] eqn:En; simpl fst; simpl snd.
  - rewrite Hr. lia.
  - pose proof (iter_shr_1_bounds p (shr_record_of_loc m l)) as B.
    rewrite Hr in B. lia.
  - rewrite Hr. lia.
Qed.

Lemma round_nearest_even_bounds (m : Z) (l : location) :
  0 <= m -> 0 <= round_nearest_even m l <= m + 1.
Proof.
  intros Hm. unfold round_nearest_even.
  destruct l as [|[ | | ]]; try lia. destruct (Z.even m); lia.
Qed.

Lemma Zdigits2_nonneg (a : Z) : 0 <= Zdigits2 a.
Proof. destruct a; simpl; lia. Qed.

Lemma Zdigits2_le (a b : Z) : 0 <= a <= b -> Zdigits2 a <= Zdigits2 b.
Proof.
  intros [Ha Hab]. destruct a as [|p|p]; [apply Zdigits2_nonneg | | lia].
  destruct b as [|q|q]; try lia. simpl.
  pose proof (digits_bounds p) as [Lo _]. pose proof (digits_bounds q) as [_ Hi].
  unfold digits in *.
  destruct (Z_le_gt_dec (Z.pos (digits2_pos p)) (Z.pos (digits2_pos q)))
    as [|Hgt]; [assumption|].
  assert (2 ^ Z.pos (digits2_pos q) <= 2 ^ (Z.pos (digits2_pos p) - 1))
    by (apply Z.pow_le_mono_r; lia).
  lia.
Qed.

Lemma Zdigits2_succ (m : Z) : 0 <= m -> Zdigits2 (m + 1) <= Zdigits2 m + 1.
Proof.
  intros Hm. destruct m as [|p|p]; [simpl; lia | | lia].
  transitivity (Zdigits2 (Z.pos p~0)).
  - apply Zdigits2_le. lia.
  - simpl. lia.
Qed.

Lemma digits_mul (a b : positive) : digits (a * b) <= digits a + digits b.
Proof.
  pose proof (digits_bounds a) as [_ Ha]. pose proof (digits_bounds b) as [_ Hb].
  assert (0 < digits a) by (unfold digits; lia).
  assert (0 < digits b) by (unfold digits; lia).
  apply digits_le; [lia|]. rewrite Pos2Z.inj_mul, Z.pow_add_r by lia. nia.
Qed.

(** Rounding a mantissa of moderate length at a moderate exponent gives a
    finite float or a zero, never an infinity. *)
Lemma binary_round_aux_finite (s : bool) (m e : Z) (l : location) :
  0 <= m -> Zdigits2 m <= 200 -> e <= 100 ->
  match binary_round_aux binary64_prec binary64_emax s m e l with
  | S754_zero s' | S754_finite s' _ _ => s' = s
  | _ => False
  end.
Proof.
  intros Hm Hd He. unfold binary_round_aux.
  pose proof (shr_fexp_bounds m e l Hm) as [B1 E1].
  destruct (shr_fexp binary64_prec binary64_emax m e l) as [mrs' e'].
  simpl fst in B1. simpl snd in E1.
  set (m1 := round_nearest_even (shr_m mrs') (loc_of_shr_record mrs')).
  pose proof (round_nearest_even_bounds (shr_m mrs')
                (loc_of_shr_record mrs') ltac:(lia)) as R. fold m1 in R.
  pose proof (shr_fexp_bounds m1 e' loc_Exact ltac:(lia)) as [B2 E2].
  destruct (shr_fexp binary64_prec binary64_emax m1 e' loc_Exact)
    as [mrs'' e''].
  simpl fst in B2. simpl snd in E2.
  assert (D1 : Zdigits2 m1 <= 201).
  { transitivity (Zdigits2 (m + 1)); [apply Zdigits2_le; lia|].
    pose proof (Zdigits2_succ m Hm). lia. }
  pose proof (Zdigits2_nonneg m). pose proof (Zdigits2_nonneg m1).
  assert (e'' <= 971).
  { rewrite E2, E1. unfold fexp, emin, binary64_prec, binary64_emax. lia. }
  destruct (shr_m mrs'') as [|p|p]; [reflexivity | | lia].
  unfold binary64_prec, binary64_emax.
  replace (e'' <=? 1024 - 53) with true by (symmetry; apply Z.leb_le; lia).
  reflexivity.
Qed.

(** For a length below [2^53] and an ordinary scale, the product is finite
    and has a floor. *)
Lemma floor_of_product_ordinary (n : Z) (s : float) :
  0 <= n < 2 ^ 53 -> ordinary_scale s = true ->
  exists v, floor_of_product n s = Some v.
Proof.
  intros Hn Hs. unfold floor_of_product, int_mul_float.
  destruct s as [ | | |ss ms es]; try discriminate.
  destruct ss; [discriminate|]. simpl in Hs.
  apply andb_prop in Hs as [Hds Hes].
  apply Z.leb_le in Hds, Hes.
  destruct (Z.eq_dec n 0) as [-> | Hne].
  - exists 0. reflexivity.
  - rewrite dyadic_int by (rewrite ?Z.abs_eq; lia).
    cbn [bind]. unfold dyadic, float_mul, SFmul.
    set (mn := pshift (Z.to_pos (Z.abs n)) (53 - digits (Z.to_pos (Z.abs n)))).
    assert (Dn : digits (Z.to_pos (Z.abs n)) <= 53).
    { apply digits_le; [lia|]. rewrite Z2Pos.id, Z.abs_eq; lia. }
    assert (0 < digits (Z.to_pos (Z.abs n))) by (unfold digits; lia).
    assert (Dmn : digits mn = 53) by (unfold mn; rewrite pshift_digits; lia).
    pose proof (binary_round_aux_finite (xorb (n <? 0) false)
                  (Z.pos (mn * ms))
                  (digits (Z.to_pos (Z.abs n)) + 0 - 53 + es) loc_Exact
                  ltac:(lia)) as F.
    destruct (binary_round_aux _ _ _ _ _ loc_Exact) as [s'|s'| |s' m' e'].
    + exists 0. reflexivity.
    + exfalso. apply F; [|lia].
      change (Zdigits2 (Z.pos (mn * ms))) with (digits (mn * ms)).
      pose proof (digits_mul mn ms). lia.
    + exfalso. apply F; [|lia].
      change (Zdigits2 (Z.pos (mn * ms))) with (digits (mn * ms)).
      pose proof (digits_mul mn ms). lia.
    + eexists. reflexivity.
Qed.

(** *** The integer part of a product, against exact arithmetic *)









Section ImagingFacts.
Context {PIL : Pillow}.



(** The sprite of a character: the uploaded image, decoded and converted
    to RGBA, mirrored if asked, scaled.  It is an RGBA image whose size is
    the scaled size of the decoded one. *)
Lemma as_image_spec (ch : Character) (sprite : Image) :
  as_image ch = Ok sprite ->
  exists im,
    Image_open (raw_bytes ch) = Ok im /\
    mode sprite = "RGBA" /\
    scaled_size (fst (size im)) (snd (size im)) (scale ch) = Ok (size sprite).
Proof.
  unfold as_image, bytes_to_image.
  destruct (Image_open (raw_bytes ch)) as [im|e]; [|discriminate]. simpl.
  destruct (convert im "RGBA") as [im1|e] eqn:E1; [|discriminate]. simpl.
  pose proof (convert_size _ _ _ E1) as S1.
  pose proof (convert_mode _ _ _ E1) as M1.
  assert (F : forall im2, flip_h_if_needed im1 (flip_h ch) = Ok im2 ->
                          size im2 = size im /\ mode im2 = "RGBA").
  { unfold flip_h_if_needed. intros im2. destruct (flip_h ch); intros E.
    - rewrite (mirror_size _ _ E), (mirror_mode _ _ E). auto.
    - injection E as <-. auto. }
  destruct (flip_h_if_needed im1 (flip_h ch)) as [im2|e]; [|discriminate].
  destruct (F im2 eq_refl) as [S2 M2]. simpl.
  unfold scale_image. rewrite S2. destruct (size im) as [w h] eqn:Esz.
  destruct (scaled_size w h (scale ch)) as [wh|e] eqn:Ess; [|discriminate].
  simpl.
  destruct (resize im2 wh) as [im3|e] eqn:E3; [|discriminate]. simpl.
  pose proof (resize_size _ _ _ E3) as S3.
  pose proof (resize_mode _ _ _ E3) as M3.
  unfold ensure_rgba. rewrite M3, M2. simpl.
  intros E. injection E as <-. exists im.
  split; [reflexivity|]. split; [now rewrite M3|].
  rewrite Esz, S3. exact Ess.
Qed.

(** Truncation towards zero of the half-integer [x_center - ow / 2]. *)
Lemma paste_x_cases (x_center ow : Z) :
  (ow <= 2 * x_center -> paste_x x_center ow = x_center - (ow + 1) / 2) /\
  (2 * x_center <= ow -> paste_x x_center ow = x_center - ow / 2) /\
  (Z.even ow = true -> paste_x x_center ow = x_center - ow / 2) /\
  2 * x_center - ow - 1 <= 2 * paste_x x_center ow <= 2 * x_center - ow + 1.
Proof.
  unfold paste_x.
  assert (Pos : ow <= 2 * x_center ->
                Z.quot (2 * x_center - ow) 2 = x_center - (ow + 1) / 2).
  { intros Hp. rewrite Z.quot_div_nonneg by lia.
    Z.to_euclidean_division_equations. lia. }
  assert (Neg : 2 * x_center <= ow ->
                Z.quot (2 * x_center - ow) 2 = x_center - ow / 2).
  { intros Hn. replace (2 * x_center - ow) with (- (ow - 2 * x_center)) by ring.
    rewrite Z.quot_opp_l by lia. rewrite Z.quot_div_nonneg by lia.
    Z.to_euclidean_division_equations. lia. }
  split; [exact Pos|]. split; [exact Neg|]. split.
  - intros Hev. apply Z.even_spec in Hev. destruct Hev as [k ->].
    destruct (Z_le_gt_dec (2 * k) (2 * x_center)) as [Hle|Hgt].
    + rewrite Pos by lia. Z.to_euclidean_division_equations. lia.
    + apply Neg. lia.
  - destruct (Z_le_gt_dec ow (2 * x_center)) as [Hle|Hgt].
    + rewrite Pos by lia. Z.to_euclidean_division_equations. lia.
    + rewrite Neg by lia. Z.to_euclidean_division_equations. lia.
Qed.

(** C5, as the code has it.  [paste_rgba] composites the sprite at
    [(trunc(anchor_x - w/2), anchor_y - h)], where [trunc] drops the
    fraction towards zero (coordinates and widths up to [2^51], far beyond
    any image).  The bottom edge is on [anchor_y]; the left edge is
    [anchor_x - w/2] exactly when [w] is even, and for an odd [w] it is
    [anchor_x - (w+1)/2] when [anchor_x - w/2 >= 0] and [anchor_x - (w-1)/2]
    otherwise, so the centre is within half a pixel of [anchor_x]. *)
Theorem paste_rgba_origin (base overlay : Image) (anchor_x anchor_y w h : Z) :
  size overlay = (w, h) ->
  - 2 ^ 51 <= anchor_x <= 2 ^ 51 -> w <= 2 ^ 51 ->
  paste_rgba base overlay anchor_x anchor_y
  = alpha_composite base overlay (paste_origin w h anchor_x anchor_y) /\
  snd (paste_origin w h anchor_x anchor_y) = anchor_y - h /\
  (Z.even w = true ->
   fst (paste_origin w h anchor_x anchor_y) = anchor_x - w / 2) /\
  (w <= 2 * anchor_x ->
   fst (paste_origin w h anchor_x anchor_y) = anchor_x - (w + 1) / 2) /\
  (2 * anchor_x <= w ->
   fst (paste_origin w h anchor_x anchor_y) = anchor_x - w / 2) /\
  2 * anchor_x - w - 1
  <= 2 * fst (paste_origin w h anchor_x anchor_y)
  <= 2 * anchor_x - w + 1.
Proof.
  intros Hsz Hx Hw.
  destruct (size_nonneg overlay) as [Hw0 _]. rewrite Hsz in Hw0. simpl in Hw0.
  destruct (paste_x_cases anchor_x w) as [Pos [Neg [Ev Near]]].
  split.
  - unfold paste_rgba. rewrite Hsz.
    now rewrite paste_dest_exact by (trivial; lia).
  - simpl. repeat split; trivial; apply Near.
Qed.

End ImagingFacts.



Lemma paste_rgba_origin_witness :
  size demo_blue = (2, 2) /\
  paste_rgba demo_canvas demo_blue 4 6
  = alpha_composite demo_canvas demo_blue (3, 4).
Proof.
  split; [reflexivity|].
  refine (proj1 (paste_rgba_origin demo_canvas demo_blue 4 6 2 2 eq_refl _ _)).
  - vm_compute. split; discriminate.
  - vm_compute. discriminate.
Defined.

(** C5 as stated fails on the code for a sprite of odd width.  A 3x5 sprite
    anchored at (4, 6) is pasted at (2, 1): the left edge is neither
    [4 - 3/2] with an integer division, which is 3, nor the exact value
    two and a half. *)
Lemma paste_rgba_origin_counterexample :
  size demo_red = (3, 5) /\
  paste_dest 3 5 4 6 = Ok (2, 1) /\
  paste_rgba demo_canvas demo_red 4 6
  = alpha_composite demo_canvas demo_red (2, 1) /\
  paste_dest 3 5 4 6 <> Ok (4 - 3 / 2, 6 - 5) /\
  (forall x y, paste_dest 3 5 4 6 = Ok (x, y) -> 2 * x <> 2 * 4 - 3).
Proof.
  split; [reflexivity|]. split; [reflexivity|]. split; [reflexivity|].
  split; [discriminate|].
  intros x y E. vm_compute in E. injection E as <- <-. discriminate.
Qed.

(* ------------------------------------------------------------------ *)
(** ** Stable sorting *)

Section StableSort.
Context {A : Type} (key : A -> Z).

Lemma insert_by_perm (a : A) (l : list A) :
  Permutation (insert_by key a l) (a :: l).
Proof.
  induction l as [|b l IH]; simpl; [reflexivity|].
  destruct (key a <=? key b); [reflexivity|].
  rewrite IH. apply perm_swap.
Qed.

Lemma sorted_perm (l : list A) : Permutation (sorted key l) l.
Proof.
  induction l as [|a l IH]; simpl; [reflexivity|].
  rewrite insert_by_perm. now constructor.
Qed.

Lemma insert_by_Sorted (a : A) (l : list A) :
  Sorted (key_le key) l -> Sorted (key_le key) (insert_by key a l).
Proof.
  induction 1 as [|b l Hl IH Hb]; simpl; [repeat constructor|].
  destruct (key a <=? key b) eqn:E.
  - apply Z.leb_le in E. repeat constructor; trivial.
  - apply Z.leb_gt in E. constructor; [exact IH|].
    destruct Hb as [|c l Hbc]; simpl.
    + constructor. unfold key_le. lia.
    + destruct (key a <=? key c); constructor; unfold key_le in *; lia.
Qed.

Lemma sorted_Sorted (l : list A) : StronglySorted (key_le key) (sorted key l).
Proof.
  apply Sorted_StronglySorted.
  - intros a b c. unfold key_le. lia.
  - induction l as [|a l IH]; simpl; [constructor | now apply insert_by_Sorted].
Qed.

(** Insertion goes before the elements of the same key. *)
Lemma insert_by_with_key (k : Z) (a : A) (l : list A) :
  with_key key k (insert_by key a l) = with_key key k (a :: l).
Proof.
  unfold with_key. induction l as [|b l IH]; simpl; [reflexivity|].
  destruct (key a <=? key b) eqn:E; [reflexivity|].
  apply Z.leb_gt in E. simpl. rewrite IH. simpl.
  destruct (key a =? k) eqn:Ea; destruct (key b =? k) eqn:Eb; trivial.
  apply Z.eqb_eq in Ea, Eb. lia.
Qed.

(** Stability: the elements of one key keep the order they came in. *)
Lemma sorted_stable (k : Z) (l : list A) :
  with_key key k (sorted key l) = with_key key k l.
Proof.
  induction l as [|a l IH]; simpl; [reflexivity|].
  rewrite insert_by_with_key. unfold with_key in *. simpl. now rewrite IH.
Qed.

Lemma with_key_In (k : Z) (a : A) (l : list A) :
  In a (with_key key k l) <-> In a l /\ key a = k.
Proof. unfold with_key. now rewrite filter_In, Z.eqb_eq. Qed.

(** Two lists in key order with the same elements of each key, in the same
    order, are equal. *)
Lemma stable_order_unique (l1 l2 : list A) :
  StronglySorted (key_le key) l1 -> StronglySorted (key_le key) l2 ->
  (forall k, with_key key k l1 = with_key key k l2) -> l1 = l2.
Proof.
  intros S1. revert l2.
  induction S1 as [|a t1 S1 IH Ha]; intros l2 S2 Hsame.
  - destruct l2 as [|b t2]; [reflexivity|].
    specialize (Hsame (key b)). unfold with_key in Hsame. simpl in Hsame.
    rewrite Z.eqb_refl in Hsame. discriminate.
  - destruct S2 as [|b t2 S2 Hb].
    + specialize (Hsame (key a)). unfold with_key in Hsame. simpl in Hsame.
      rewrite Z.eqb_refl in Hsame. discriminate.
    + assert (Hab : key a = key b).
      { assert (In a (b :: t2)) as Ia.
        { apply (with_key_In (key a)). rewrite <- Hsame.
          apply with_key_In. split; [now left | reflexivity]. }
        assert (In b (a :: t1)) as Ib.
        { apply (with_key_In (key b)). rewrite Hsame.
          apply with_key_In. split; [now left | reflexivity]. }
        rewrite Forall_forall in Ha, Hb. unfold key_le in Ha, Hb.
        destruct Ia as [<- | Ia]; [reflexivity|].
        destruct Ib as [<- | Ib]; [reflexivity|].
        specialize (Ha b Ib). specialize (Hb a Ia). lia. }
      pose proof (Hsame (key a)) as Hk. unfold with_key in Hk. simpl in Hk.
      rewrite <- Hab, Z.eqb_refl in Hk. injection Hk as <- Hk.
      f_equal. apply IH; [exact S2|].
      intros k. specialize (Hsame k). unfold with_key in *. simpl in Hsame.
      destruct (key a =? k); [now injection Hsame | exact Hsame].
Qed.

(** A stable sort by key has one possible result. *)
Lemma stable_sort_unique (l l' : list A) :
  StronglySorted (key_le key) l' ->
  (forall k, with_key key k l' = with_key key k l) ->
  l' = sorted key l.
Proof.
  intros S Hsame. apply stable_order_unique; [exact S | apply sorted_Sorted|].
  intros k. now rewrite sorted_stable.
Qed.

Lemma Subseq_nil_l (l : list A) : Subseq [] l.
Proof. induction l; [apply Subseq_nil | now apply Subseq_skip]. Qed.

Lemma Subseq_insert_by (s l : list A) (c : A) :
  Subseq s l -> Subseq s (insert_by key c l).
Proof.
  induction 1 as [|b l m S IH|b l m S IH]; simpl.
  - apply Subseq_skip, Subseq_nil.
  - destruct (key c <=? key b).
    + now apply Subseq_skip, Subseq_skip.
    + now apply Subseq_skip.
  - destruct (key c <=? key b).
    + now apply Subseq_skip, Subseq_keep.
    + now apply Subseq_keep.
Qed.

Lemma Subseq_single (b : A) (l : list A) : In b l -> Subseq [b] l.
Proof.
  induction l as [|c l IH]; simpl; [contradiction|].
  intros [-> | Hb].
  - apply Subseq_keep, Subseq_nil_l.
  - apply Subseq_skip. auto.
Qed.

Lemma insert_by_before (a b : A) (l : list A) :
  In b l -> key a <= key b -> Subseq [a; b] (insert_by key a l).
Proof.
  induction l as [|d l IH]; simpl; [contradiction|].
  intros Hb Hab. destruct (key a <=? key d) eqn:E.
  - apply Subseq_keep, Subseq_single. exact Hb.
  - apply Z.leb_gt in E. apply Subseq_skip. apply IH; trivial.
    destruct Hb as [-> | Hb]; [lia | exact Hb].
Qed.

Lemma insert_by_after (a b : A) (l : list A) :
  StronglySorted (key_le key) l ->
  In b l -> key b < key a -> Subseq [b; a] (insert_by key a l).
Proof.
  induction 1 as [|d l Sl IH Hd]; simpl; [contradiction|].
  intros Hb Hba. rewrite Forall_forall in Hd. unfold key_le in Hd.
  destruct (key a <=? key d) eqn:E.
  - apply Z.leb_le in E. exfalso.
    destruct Hb as [-> | Hb]; [lia | specialize (Hd b Hb); lia].
  - destruct Hb as [-> | Hb].
    + apply Subseq_keep, Subseq_single.
      apply (Permutation_in a (Permutation_sym (insert_by_perm a l))). now left.
    + apply Subseq_skip. now apply IH.
Qed.

(** Of two elements, the one with the smaller key comes first after
    sorting, and with equal keys the one that came first stays first. *)
Lemma sorted_keeps_order (a b : A) (l : list A) :
  Subseq [a; b] l -> key a <= key b -> Subseq [a; b] (sorted key l).
Proof.
  induction l as [|c l IH]; intros S Hab; [inversion S|].
  simpl. inversion S as [|? ? ? S'|? ? ? S']; subst.
  - apply Subseq_insert_by. now apply IH.
  - apply insert_by_before; trivial.
    apply (Permutation_in b (Permutation_sym (sorted_perm l))).
    apply (Subseq_In [b] l); [exact S' | now left].
Qed.

Lemma sorted_swaps_order (a b : A) (l : list A) :
  Subseq [a; b] l -> key b < key a -> Subseq [b; a] (sorted key l).
Proof.
  induction l as [|c l IH]; intros S Hba; [inversion S|].
  simpl. inversion S as [|? ? ? S'|? ? ? S']; subst.
  - apply Subseq_insert_by. now apply IH.
  - apply insert_by_after; trivial; [apply sorted_Sorted|].
    apply (Permutation_in b (Permutation_sym (sorted_perm l))).
    apply (Subseq_In [b] l); [exact S' | now left].
Qed.

End StableSort.

(* ------------------------------------------------------------------ *)
(** ** Compositing *)

Section CompositorFacts.
Context {PIL : Pillow}.

Lemma draw_characters_app (c : Image) (l1 l2 : list Character) :
  draw_characters c (l1 ++ l2)%list
  = (c' <- draw_characters c l1 ;; draw_characters c' l2).
Proof.
  revert c; induction l1 as [|ch l1 IH]; intros c; simpl; [reflexivity|].
  destruct (draw_character c ch) as [c'|e]; simpl; [apply IH | reflexivity].
Qed.

(** Drawing a character is one [alpha_composite] of its sprite, at the
    origin [paste_rgba] computes. *)
Lemma draw_character_inv (c c' : Image) (ch : Character) :
  draw_character c ch = Ok c' ->
  exists sprite dest,
    as_image ch = Ok sprite /\
    sprite_dest sprite ch = Ok dest /\
    alpha_composite c sprite dest = Ok c'.
Proof.
  unfold draw_character. destruct (as_image ch) as [sprite|e]; [|discriminate].
  simpl. intros E. exists sprite.
  unfold paste_rgba in E. unfold sprite_dest.
  destruct (size sprite) as [ow oh]. simpl fst. simpl snd.
  destruct (paste_dest ow oh (x ch) (y ch)) as [dest|e]; [|discriminate].
  exists dest. auto.
Qed.

Lemma draw_character_size (c c' : Image) (ch : Character) :
  draw_character c ch = Ok c' -> size c' = size c.
Proof.
  intros E. apply draw_character_inv in E.
  destruct E as [sprite [dest [_ [_ E]]]].
  now apply composite_size in E.
Qed.

Lemma draw_characters_size (c c' : Image) (l : list Character) :
  draw_characters c l = Ok c' -> size c' = size c.
Proof.
  revert c; induction l as [|ch l IH]; intros c; simpl.
  - intros E. now injection E as <-.
  - destruct (draw_character c ch) as [c1|e] eqn:E1; [|discriminate]. simpl.
    intros E. rewrite (IH _ E). now apply draw_character_size in E1.
Qed.

(** Characters whose sprites do not reach a point leave it as it was. *)
Lemma draw_characters_outside (c c' : Image) (l : list Character) (px py : Z) :
  draw_characters c l = Ok c' ->
  (forall ch sprite dest,
      In ch l -> as_image ch = Ok sprite -> sprite_dest sprite ch = Ok dest ->
      getpixel sprite (px - fst dest, py - snd dest) = None) ->
  getpixel c' (px, py) = getpixel c (px, py).
Proof.
  revert c; induction l as [|ch l IH]; intros c; simpl.
  - intros E _. now injection E as <-.
  - destruct (draw_character c ch) as [c1|e] eqn:E1; [|discriminate]. simpl.
    intros E Hout. rewrite (IH _ E) by (intros; eapply Hout; eauto).
    apply draw_character_inv in E1. destruct E1 as [sprite [dest [Es [Ed Ec]]]].
    apply (composite_outside _ _ _ _ _ _ Ec). apply (Hout ch); auto.
Qed.

(** A sprite drawn later hides what was drawn before it: where the sprite
    of [ch] is opaque, and no character drawn after [ch] reaches, the
    composite shows the sprite of [ch], whatever was drawn earlier. *)
Lemma later_sprite_occludes (c final : Image) (pre post : list Character)
    (ch : Character) (sprite : Image) (dest : Z * Z) (px py : Z) (col : rgba) :
  draw_characters c (pre ++ ch :: post)%list = Ok final ->
  as_image ch = Ok sprite ->
  sprite_dest sprite ch = Ok dest ->
  0 <= px < fst (size c) /\ 0 <= py < snd (size c) ->
  getpixel sprite (px - fst dest, py - snd dest) = Some col ->
  alpha col = 255 ->
  (forall ch' sprite' dest',
      In ch' post -> as_image ch' = Ok sprite' ->
      sprite_dest sprite' ch' = Ok dest' ->
      getpixel sprite' (px - fst dest', py - snd dest') = None) ->
  getpixel final (px, py) = Some col.
Proof.
  intros E Es Ed Hin Hcol Ha Hpost.
  rewrite draw_characters_app in E.
  destruct (draw_characters c pre) as [c1|e] eqn:E1; [|discriminate].
  simpl in E.
  destruct (draw_character c1 ch) as [c2|e] eqn:E2; [|discriminate].
  simpl in E.
  rewrite (draw_characters_outside _ _ _ _ _ E Hpost).
  apply draw_character_inv in E2.
  destruct E2 as [sprite' [dest' [Es' [Ed' Ec]]]].
  rewrite Es in Es'. injection Es' as <-.
  rewrite Ed in Ed'. injection Ed' as <-.
  apply (composite_opaque _ _ _ _ _ _ _ Ec Hcol Ha).
  now rewrite (draw_characters_size _ _ _ E1).
Qed.

(** C6. The compositor makes a fresh transparent canvas of the canvas size,
    composites the background onto it, then draws the characters one after
    the other in the order [sorted(..., key=z)] gives: ascending z, and for
    equal z the order of the character list.  That order is the only one a
    stable sort by z can give, so the image is determined; and a sprite
    drawn later covers, where it is opaque, everything drawn before it. *)
Theorem compositor_order (canvas_w canvas_h : Z) (bg_img : Image)
    (chars : list Character) :
  compose canvas_w canvas_h bg_img chars
  = (c0 <- Image_new "RGBA" (canvas_w, canvas_h) (0, 0, 0, 0) ;;
     c1 <- alpha_composite c0 bg_img (0, 0) ;;
     draw_characters c1 (sorted z chars)) /\
  (forall c0,
      Image_new "RGBA" (canvas_w, canvas_h) (0, 0, 0, 0) = Ok c0 ->
      size c0 = (canvas_w, canvas_h) /\
      forall p col, getpixel c0 p = Some col -> alpha col = 0) /\
  Permutation (sorted z chars) chars /\
  StronglySorted (key_le z) (sorted z chars) /\
  (forall k, with_key z k (sorted z chars) = with_key z k chars) /\
  (forall a b, Subseq [a; b] chars -> z a <= z b ->
               Subseq [a; b] (sorted z chars)) /\
  (forall a b, Subseq [a; b] chars -> z b < z a ->
               Subseq [b; a] (sorted z chars)) /\
  (forall order,
      StronglySorted (key_le z) order ->
      (forall k, with_key z k order = with_key z k chars) ->
      order = sorted z chars) /\
  (forall c final pre ch post sprite dest px py col,
      sorted z chars = (pre ++ ch :: post)%list ->
      draw_characters c (sorted z chars) = Ok final ->
      as_image ch = Ok sprite ->
      sprite_dest sprite ch = Ok dest ->
      0 <= px < fst (size c) /\ 0 <= py < snd (size c) ->
      getpixel sprite (px - fst dest, py - snd dest) = Some col ->
      alpha col = 255 ->
      (forall ch' sprite' dest',
          In ch' post -> as_image ch' = Ok sprite' ->
          sprite_dest sprite' ch' = Ok dest' ->
          getpixel sprite' (px - fst dest', py - snd dest') = None) ->
      getpixel final (px, py) = Some col).
Proof.
  split; [reflexivity|]. split.
  { intros c0 E. split; [exact (new_size _ _ _ _ E)|].
    intros p col Hp. now rewrite (new_pixel _ _ _ _ _ _ E Hp). }
  split; [apply sorted_perm|]. split; [apply sorted_Sorted|].
  split; [intros k; apply sorted_stable|].
  split; [intros a b; apply sorted_keeps_order|].
  split; [intros a b; apply sorted_swaps_order|].
  split; [intros order; apply stable_sort_unique|].
  intros c final pre ch post sprite dest px py col Eorder E Es Ed Hin Hcol Ha
    Hpost.
  rewrite Eorder in E.
  exact (later_sprite_occludes _ _ _ _ _ _ _ _ _ _ E Es Ed Hin Hcol Ha Hpost).
Qed.

End CompositorFacts.

(** With the raster library: the blue sprite comes first in the list but
    has the lower z, so the red one is drawn after it and shows where the
    two overlap; with equal z the list order decides. *)
Example compose_front_over_back :
  sorted z [demo_front; demo_back] = [demo_back; demo_front] /\
  (r <- compose 8 6 demo_canvas [demo_front; demo_back] ;;
   Ok (getpixel r (3, 5), getpixel r (2, 1),
       getpixel r (0, 0)))
  = Ok (Some (255, 0, 0, 255), Some (255, 0, 0, 255), Some (10, 10, 10, 255)).
Proof. split; reflexivity. Qed.

Lemma compositor_order_witness :
  sorted z [demo_front; demo_back] = [demo_back; demo_front] /\
  exists final,
    draw_characters demo_canvas (sorted z [demo_front; demo_back]) = Ok final /\
    getpixel final (3, 5) = Some (255, 0, 0, 255).
Proof.
  split; [reflexivity|].
  destruct (compositor_order 8 6 demo_canvas [demo_front; demo_back])
    as [_ [_ [_ [_ [_ [_ [_ [_ Occ]]]]]]]].
  destruct (draw_characters demo_canvas (sorted z [demo_front; demo_back]))
    as [final|e] eqn:E; [|vm_compute in E; discriminate].
  exists final. split; [reflexivity|].
  destruct (as_image demo_front) as [sprite|e] eqn:Es;
    [|vm_compute in Es; discriminate].
  apply (Occ demo_canvas final [demo_back] demo_front [] sprite (2, 1) 3 5
           (255, 0, 0, 255)); trivial.
  - vm_compute in Es. injection Es as <-. reflexivity.
  - vm_compute. repeat split; discriminate.
  - vm_compute in Es. injection Es as <-. reflexivity.
  - intros ch' sprite' dest' [].
Defined.

(* ------------------------------------------------------------------ *)
(** ** The render pass: what it leaves alone, and the PDF column *)

Section ScriptFacts.
Context {PIL : Pillow}.

Lemma preserves_ret {A : Type} (a : A) : preserves_characters (ret a).
Proof. intros w. reflexivity. Qed.

Lemma preserves_lift {A : Type} (r : result A) : preserves_characters (lift r).
Proof. intros w. reflexivity. Qed.

Lemma preserves_get_characters : preserves_characters get_characters.
Proof. intros w. reflexivity. Qed.

Lemma preserves_emit (wd : Widget) : preserves_characters (emit wd).
Proof. intros w. reflexivity. Qed.

Lemma preserves_sbind {A B : Type} (c : Script A) (k : A -> Script B) :
  preserves_characters c -> (forall a, preserves_characters (k a)) ->
  preserves_characters (sbind c k).
Proof.
  intros Hc Hk w. unfold sbind. specialize (Hc w).
  destruct (c w) as [[a|e] w']; simpl in *; [|exact Hc].
  now rewrite Hk.
Qed.

Lemma preserves_try_except {A : Type} (body : Script A)
    (handler : exn -> Script A) :
  preserves_characters body -> (forall e, preserves_characters (handler e)) ->
  preserves_characters (try_except_Exception body handler).
Proof.
  intros Hb Hh w. unfold try_except_Exception. specialize (Hb w).
  destruct (body w) as [[a|e] w']; simpl in *; [exact Hb|].
  destruct (is_Exception e); simpl; [|exact Hb].
  now rewrite Hh.
Qed.

Create HintDb frame.
#[local] Hint Resolve preserves_ret preserves_lift preserves_get_characters
  preserves_emit : frame.
#[local] Hint Extern 2 (preserves_characters (sbind _ _)) =>
  apply preserves_sbind; [|intros] : frame.
#[local] Hint Extern 2 (preserves_characters (try_except_Exception _ _)) =>
  apply preserves_try_except; [|intros] : frame.

Lemma preserves_build_pdf_doc (pdf_pages : list Character -> result bytes) :
  preserves_characters (build_pdf_doc pdf_pages).
Proof. unfold build_pdf_doc. auto 10 with frame. Qed.

Lemma preserves_render_preview (canvas_w canvas_h : Z) (bg_img : Image) :
  preserves_characters (render_preview canvas_w canvas_h bg_img).
Proof. unfold render_preview. auto 10 with frame. Qed.

Lemma preserves_export_buttons (prompt : string) (canvas_w canvas_h : Z)
    (composite : Image) (pdf_pages : list Character -> result bytes) :
  preserves_characters
    (export_buttons prompt canvas_w canvas_h composite pdf_pages).
Proof.
  unfold export_buttons.
  pose proof (preserves_build_pdf_doc pdf_pages). auto 12 with frame.
Qed.

(** The sprite of a character is computed from its bytes, flip flag and
    scale, and from nothing else. *)
Lemma as_image_reads (ch ch' : Character) :
  raw_bytes ch = raw_bytes ch' -> flip_h ch = flip_h ch' ->
  scale ch = scale ch' -> as_image ch = as_image ch'.
Proof. unfold as_image. now intros -> -> ->. Qed.

(** C10. Building the preview and exporting it leaves the character list
    as it was: the same characters in the same order, every field of each
    unchanged, whether the pass completes or raises on the way.  The pass
    only adds widgets to the page, and each sprite is derived anew from the
    character's bytes, flip flag and scale. *)
Theorem preview_and_export_frame (prompt : string) (canvas_w canvas_h : Z)
    (bg_img : Image) (pdf_pages : Image -> list Character -> result bytes)
    (w : World) :
  characters (snd (preview_and_export prompt canvas_w canvas_h bg_img
                     pdf_pages w)) = characters w /\
  Forall2 (fun ch ch' =>
             name ch' = name ch /\ raw_bytes ch' = raw_bytes ch /\
             x ch' = x ch /\ y ch' = y ch /\ scale ch' = scale ch /\
             flip_h ch' = flip_h ch /\ actions ch' = actions ch /\
             z ch' = z ch)
    (characters w)
    (characters (snd (preview_and_export prompt canvas_w canvas_h bg_img
                        pdf_pages w))) /\
  characters (snd (render_preview canvas_w canvas_h bg_img w)) = characters w /\
  (forall ch ch',
      raw_bytes ch = raw_bytes ch' -> flip_h ch = flip_h ch' ->
      scale ch = scale ch' -> as_image ch = as_image ch').
Proof.
  assert (P : preserves_characters
                (preview_and_export prompt canvas_w canvas_h bg_img pdf_pages)).
  { unfold preview_and_export. apply preserves_sbind.
    - apply preserves_render_preview.
    - intros composite. apply preserves_export_buttons. }
  split; [apply P|]. split.
  - rewrite (P w). induction (characters w) as [|ch l IH]; constructor; auto.
    repeat split.
  - split; [apply preserves_render_preview | exact as_image_reads].
Qed.

Lemma build_pdf_doc_returns (pdf_pages : list Character -> result bytes)
    (w : World) (b : bytes) :
  pdf_pages (characters w) = Ok b ->
  build_pdf_doc pdf_pages w = (Ok (Some b), w).
Proof.
  intros E. unfold build_pdf_doc, try_except_Exception, sbind, get_characters,
    lift, ret. now rewrite E.
Qed.

Lemma build_pdf_doc_catches (pdf_pages : list Character -> result bytes)
    (w : World) (e : exn) :
  pdf_pages (characters w) = Raise e -> is_Exception e = true ->
  build_pdf_doc pdf_pages w
  = (Ok None,
     mk_World (characters w)
       (page w ++ [st_error ("PDF generation failed: " ++ exn_str e)])).
Proof.
  intros E He. unfold build_pdf_doc, try_except_Exception, sbind,
    get_characters, lift, ret, emit. now rewrite E, He.
Qed.

(** What [except Exception] does not catch goes through: an exit request
    raised while the report is drawn leaves [build_pdf_doc] as it is. *)
Lemma build_pdf_doc_propagates (pdf_pages : list Character -> result bytes)
    (w : World) (e : exn) :
  pdf_pages (characters w) = Raise e -> is_Exception e = false ->
  build_pdf_doc pdf_pages w = (Raise e, w).
Proof.
  intros E He. unfold build_pdf_doc, try_except_Exception, sbind,
    get_characters, lift, ret. now rewrite E, He.
Qed.

(** C8. However drawing the report fails with an [Exception],
    [build_pdf_doc] returns [None] and raises nothing, after putting the
    error message on the page; when drawing succeeds it returns the bytes.
    The character list is untouched.  In the export columns the PNG and JSON
    buttons are on the page before the PDF is attempted and are the same
    whether it succeeds or fails; a failure adds the error message and a
    disabled PDF button, nothing else, and the script goes on. *)
Theorem build_pdf_doc_never_raises
    (pdf_pages : list Character -> result bytes) (w : World) :
  (forall e, pdf_pages (characters w) = Raise e -> is_Exception e = true) ->
  (exists r w', build_pdf_doc pdf_pages w = (Ok r, w') /\
                characters w' = characters w /\
                (r = None <-> raised (pdf_pages (characters w)) = true)) /\
  (forall e, pdf_pages (characters w) = Raise e ->
             build_pdf_doc pdf_pages w
             = (Ok None,
                mk_World (characters w)
                  (page w ++
                   [st_error ("PDF generation failed: " ++ exn_str e)]))) /\
  (forall prompt canvas_w canvas_h composite png_bytes,
      image_to_bytes composite "PNG" = Ok png_bytes ->
      export_buttons prompt canvas_w canvas_h composite pdf_pages w
      = (Ok tt,
         mk_World (characters w)
           (page w ++
            png_button png_bytes
            :: json_button prompt canvas_w canvas_h (characters w)
            :: pdf_widgets (pdf_pages (characters w))))).
Proof.
  intros Hexc. split; [|split].
  - destruct (pdf_pages (characters w)) as [b|e] eqn:E.
    + exists (Some b), w. rewrite (build_pdf_doc_returns _ _ _ E).
      repeat split; simpl; discriminate.
    + eexists None, _. rewrite (build_pdf_doc_catches _ _ _ E (Hexc e eq_refl)).
      repeat split; reflexivity.
  - intros e E. apply build_pdf_doc_catches; auto.
  - intros prompt canvas_w canvas_h composite png_bytes Epng.
    unfold export_buttons. unfold sbind at 1. unfold lift. rewrite Epng.
    unfold sbind at 1. unfold emit at 1.
    unfold sbind at 1. unfold get_characters. simpl characters.
    unfold sbind at 1. unfold emit at 1. simpl characters. simpl page.
    unfold sbind at 1.
    set (w2 := mk_World (characters w) _).
    assert (Hc : characters w2 = characters w) by reflexivity.
    destruct (pdf_pages (characters w)) as [b|e] eqn:E.
    + rewrite (build_pdf_doc_returns pdf_pages w2 b) by (now rewrite Hc).
      unfold emit, w2. simpl. now rewrite <- !app_assoc.
    + rewrite (build_pdf_doc_catches pdf_pages w2 e)
        by (rewrite ?Hc; auto).
      unfold emit, w2. simpl. now rewrite <- !app_assoc.
Qed.

End ScriptFacts.

Lemma build_pdf_doc_never_raises_witness :
  build_pdf_doc
    (fun _ => Raise (mk_exn ImportError "No module named 'reportlab'"))
    demo_world
  = (Ok None,
     mk_World []
       [st_error "PDF generation failed: No module named 'reportlab'"]).
Proof.
  destruct (build_pdf_doc_never_raises
              (fun _ => Raise (mk_exn ImportError "No module named 'reportlab'"))
              demo_world) as [_ [C _]].
  - intros e E. injection E as <-. reflexivity.
  - exact (C _ eq_refl).
Defined.

(** A render pass on two characters: the page gains the preview and the
    three buttons, the characters stay. *)
Example preview_and_export_run :
  let w := mk_World [demo_front; demo_back] [] in
  let w' := snd (preview_and_export "two friends" 8 6 demo_canvas
                   (fun _ _ => Ok [Byte.x25; Byte.x50; Byte.x44; Byte.x46]) w) in
  characters w' = [demo_front; demo_back] /\ List.length (page w') = 4%nat.
Proof. split; reflexivity. Qed.

(** Uploading two sprites with the prompt of the specification's example:
    both are anchored at (1240, 360).  The index grows with the list as well
    as with the loop counter, so the second upload is "Char 3" with z = 2. *)
Example add_two_characters :
  let w := snd (add_uploaded_characters "sitting at a table on the right"
                  1280 720 [raw_bytes demo_front; raw_bytes demo_back]
                  demo_world) in
  map (fun ch => (name ch, x ch, y ch, z ch, actions ch)) (characters w)
  = [ ("Char 1", 1240, 360, 0, ["sitting"]);
      ("Char 3", 1240, 360, 2, ["sitting"]) ].
Proof. reflexivity. Qed.

(** Re-placing from a prompt without keyword spreads them along the bottom
    and keeps z. *)
Example auto_place_two_characters :
  let w := snd (auto_place "two friends walking" 1280 720
                  (mk_World [demo_front; demo_back] [])) in
  map (fun ch => (x ch, y ch, z ch, actions ch)) (characters w)
  = [ (440, 680, 1, ["walking"]); (840, 680, 0, ["walking"]) ].
Proof. reflexivity. Qed.

(* ------------------------------------------------------------------ *)
(** ** Anchors stay inside the canvas *)

Lemma anchor_bounds (W H : Z) (key : string) :
  80 <= W -> 80 <= H -> In key POSITION_KEYWORDS ->
  40 <= fst (anchor W H key) <= W - 40 /\
  40 <= snd (anchor W H key) <= H - 40.
Proof.
  intros HW HH Hin.
  pose proof (Z.div_mod W 2 ltac:(lia)). pose proof (Z.mod_pos_bound W 2 ltac:(lia)).
  pose proof (Z.div_mod H 2 ltac:(lia)). pose proof (Z.mod_pos_bound H 2 ltac:(lia)).
  unfold POSITION_KEYWORDS in Hin. simpl in Hin.
  repeat destruct Hin as [<- | Hin]; try contradiction; simpl; lia.
Qed.

Lemma fallback_bounds (W index total : Z) :
  80 <= W -> 0 <= index < total ->
  0 <= (index + 1) * (W - 2 * pad) / (total + 1) <= W - 2 * pad.
Proof.
  unfold pad. intros HW Hi. split.
  - apply Z.div_pos; nia.
  - apply Z.div_le_upper_bound; nia.
Qed.

Lemma infer_inside_canvas (prompt : option string) (W H index total : Z) :
  80 <= W -> 80 <= H -> 0 <= index < total ->
  exists x y,
    infer_position_from_prompt prompt W H index total = Ok (x, y) /\
    pad <= x <= W - pad /\ pad <= y <= H - pad.
Proof.
  intros HW HH Hi. unfold infer_position_from_prompt.
  destruct (matched_keyword (lower (or_empty prompt))) as [key|] eqn:M.
  - destruct (matched_keyword_in _ _ M) as [Hin _].
    rewrite (getitem_spots W H key Hin).
    pose proof (anchor_bounds W H key HW HH Hin) as B.
    destruct (anchor W H key) as [x y]. exists x, y. unfold pad. simpl in B.
    split; [reflexivity | exact B].
  - unfold floordiv.
    replace (total + 1 =? 0) with false by (symmetry; apply Z.eqb_neq; lia).
    cbn [bind]. eexists _, _. split; [reflexivity|].
    pose proof (fallback_bounds W index total HW Hi). unfold pad in *. lia.
Qed.

(** X1. On a canvas of at least 80 by 80 pixels, the anchor of a character
    with [0 <= index < total] lies at least 40 pixels inside every edge,
    whatever the prompt: [infer_position_from_prompt] returns, and its
    point [(x, y)] satisfies [40 <= x <= W - 40] and [40 <= y <= H - 40]. *)
Theorem anchor_inside_canvas (prompt : option string) (W H index total : Z) :
  80 <= W -> 80 <= H -> 0 <= index < total ->
  exists x y,
    infer_position_from_prompt prompt W H index total = Ok (x, y) /\
    pad <= x <= W - pad /\ pad <= y <= H - pad.
Proof. exact (infer_inside_canvas prompt W H index total). Qed.

Lemma anchor_inside_canvas_witness :
  exists x y,
    infer_position_from_prompt (Some "two friends talking") 1280 720 0 2
    = Ok (x, y) /\
    pad <= x <= 1280 - pad /\ pad <= y <= 720 - pad.
Proof. apply anchor_inside_canvas; lia. Defined.

(* ------------------------------------------------------------------ *)
(** ** Scaling by a scale that is not a positive number *)

(** [int(n * s)] for [n >= 0] and a scale that is zero or below: the
    product is finite and not above zero, so the integer is not above zero. *)
Lemma int_of_product_nonpositive (n : Z) (s : float) :
  0 <= n < 2 ^ 53 -> nonpositive_scale s = true ->
  exists v, (r <- int_mul_float n s ;; int_of_float r) = Ok v /\ v <= 0.
Proof.
  intros Hn Hs. unfold int_mul_float.
  destruct (Z.eq_dec n 0) as [-> | Hne].
  - change (float_of_int 0) with (Ok (S754_zero false)). cbn [bind].
    destruct s as [ss|ss| |ss ms es]; try discriminate;
      exists 0; split; try reflexivity; lia.
  - rewrite dyadic_int by (rewrite ?Z.abs_eq; lia).
    replace (n <? 0) with false by (symmetry; apply Z.ltb_ge; lia).
    cbn [bind]. unfold dyadic, float_mul, SFmul.
    destruct s as [ss|ss| |ss ms es]; try discriminate.
    + exists 0. split; [reflexivity | lia].
    + destruct ss; [|discriminate]. simpl in Hs.
      apply andb_prop in Hs as [Hds Hes]. apply Z.leb_le in Hds, Hes.
      set (mn := pshift (Z.to_pos (Z.abs n)) (53 - digits (Z.to_pos (Z.abs n)))).
      assert (Dn : digits (Z.to_pos (Z.abs n)) <= 53).
      { apply digits_le; [lia|]. rewrite Z2Pos.id, Z.abs_eq; lia. }
      assert (0 < digits (Z.to_pos (Z.abs n))) by (unfold digits; lia).
      assert (Dmn : digits mn = 53) by (unfold mn; rewrite pshift_digits; lia).
      pose proof (binary_round_aux_finite (xorb false true)
                    (Z.pos (mn * ms))
                    (digits (Z.to_pos (Z.abs n)) + 0 - 53 + es) loc_Exact
                    ltac:(lia)) as F.
      assert (D : Zdigits2 (Z.pos (mn * ms)) <= 200).
      { change (Zdigits2 (Z.pos (mn * ms))) with (digits (mn * ms)).
        pose proof (digits_mul mn ms). lia. }
      specialize (F D ltac:(lia)).
      destruct (binary_round_aux _ _ _ _ _ loc_Exact) as [s'|s'| |s' m' e'];
        try contradiction.
      * exists 0. split; [reflexivity | lia].
      * simpl in F. subst s'. eexists. split; [reflexivity|].
        pose proof (Z.shiftl_nonneg (Z.pos m') e'). lia.
Qed.

Section ScaleEdgeFacts.
Context {PIL : Pillow}.

(** X2. A scale of zero, or a finite scale below zero whose magnitude is
    below [2^53], is no error: both products are zero or negative,
    [max(1, ...)] lifts them to 1, and [scale_image] asks [resize] for a
    1x1 image (sizes below [2^53]).  The bound on the magnitude is needed:
    see [scale_image_negative_overflow]. *)
Theorem scale_image_nonpositive (img : Image) (s : float) (w h : Z) :
  size img = (w, h) -> w < 2 ^ 53 -> h < 2 ^ 53 ->
  nonpositive_scale s = true ->
  scale_image img s = resize img (1, 1).
Proof.
  intros Hsz Hw Hh Hs.
  pose proof (size_nonneg img) as [Pw Ph]. rewrite Hsz in Pw, Ph.
  simpl in Pw, Ph.
  destruct (int_of_product_nonpositive w s ltac:(lia) Hs) as [iw [Ew Lw]].
  destruct (int_of_product_nonpositive h s ltac:(lia) Hs) as [ih [Eh Lh]].
  unfold scale_image. rewrite Hsz. unfold scaled_size.
  destruct (int_mul_float w s) as [fw|]; [|discriminate]. cbn [bind] in Ew |- *.
  rewrite Ew. cbn [bind].
  destruct (int_mul_float h s) as [fh|]; [|discriminate]. cbn [bind] in Eh |- *.
  rewrite Eh. cbn [bind].
  now rewrite !Z.max_l by lia.
Qed.

(** X3. A scale that is not a number makes [scale_image] raise
    [ValueError], and an infinite scale makes it raise [OverflowError] (or
    [ValueError] for an image of width zero, where the product is not a
    number); [resize] is not reached.  Sizes below [2^53]. *)
Theorem scale_image_not_finite (img : Image) (s : float) (w h : Z) :
  size img = (w, h) -> w < 2 ^ 53 -> h < 2 ^ 53 ->
  (s = S754_nan ->
   scale_image img s
   = Raise (mk_exn ValueError "cannot convert float NaN to integer")) /\
  (forall sign, s = S754_infinity sign -> 0 < w ->
   scale_image img s
   = Raise (mk_exn OverflowError "cannot convert float infinity to integer")) /\
  (forall sign, s = S754_infinity sign -> w = 0 ->
   scale_image img s
   = Raise (mk_exn ValueError "cannot convert float NaN to integer")).
Proof.
  intros Hsz Hw Hh.
  pose proof (size_nonneg img) as [Pw _]. rewrite Hsz in Pw. simpl in Pw.
  unfold scale_image. rewrite Hsz. unfold scaled_size, int_mul_float.
  repeat split.
  - intros ->. destruct (Z.eq_dec w 0) as [-> | Hne]; [reflexivity|].
    rewrite dyadic_int by (rewrite ?Z.abs_eq; lia). reflexivity.
  - intros sign -> Hpos.
    rewrite dyadic_int by (rewrite ?Z.abs_eq; lia). reflexivity.
  - intros sign -> ->. reflexivity.
Qed.

End ScaleEdgeFacts.

(** A negative scale near the end of the binary64 range: the product
    with the width 10 overflows to minus infinity, and [int] raises. *)
Example scale_image_negative_overflow :
  scale_image demo_ten (S754_finite true 9007199254740991 971)
  = Raise (mk_exn OverflowError "cannot convert float infinity to integer").
Proof. reflexivity. Qed.

Lemma scale_image_nonpositive_witness :
  scale_image demo_red (S754_zero false) = resize demo_red (1, 1).
Proof.
  apply (scale_image_nonpositive demo_red (S754_zero false) 3 5);
    reflexivity.
Defined.

Lemma scale_image_not_finite_witness :
  scale_image demo_red S754_nan
  = Raise (mk_exn ValueError "cannot convert float NaN to integer").
Proof.
  apply (scale_image_not_finite demo_red S754_nan 3 5); reflexivity.
Defined.

(* ------------------------------------------------------------------ *)
(** ** Sprites, the background and the composite *)

Section SpriteFacts.
Context {PIL : Pillow}.

Lemma scaled_size_positive (w h : Z) (s : float) (wh : Z * Z) :
  scaled_size w h s = Ok wh -> 1 <= fst wh /\ 1 <= snd wh.
Proof.
  unfold scaled_size.
  destruct (int_mul_float w s) as [fw|]; [|discriminate]. cbn [bind].
  destruct (int_of_float fw) as [iw|]; [|discriminate]. cbn [bind].
  destruct (int_mul_float h s) as [fh|]; [|discriminate]. cbn [bind].
  destruct (int_of_float fh) as [ih|]; [|discriminate]. cbn [bind].
  intros E. injection E as <-. simpl. lia.
Qed.

(** The decoded image is RGBA already, and mirroring and resizing keep the
    mode: the last step of [as_image] hands the scaled image on as it is. *)
Lemma as_image_no_second_convert (ch : Character) :
  as_image ch
  = (img <- bytes_to_image (raw_bytes ch) ;;
     img <- flip_h_if_needed img (flip_h ch) ;;
     scale_image img (scale ch)).
Proof.
  unfold as_image, bytes_to_image.
  destruct (Image_open (raw_bytes ch)) as [im|e]; [|reflexivity]. cbn [bind].
  destruct (convert im "RGBA") as [im1|e] eqn:E1; [|reflexivity]. cbn [bind].
  pose proof (convert_mode _ _ _ E1) as M1.
  assert (F : forall im2, flip_h_if_needed im1 (flip_h ch) = Ok im2 ->
                          mode im2 = "RGBA").
  { unfold flip_h_if_needed. intros im2. destruct (flip_h ch); intros E.
    - now rewrite (mirror_mode _ _ E).
    - now injection E as <-. }
  destruct (flip_h_if_needed im1 (flip_h ch)) as [im2|e]; [|reflexivity].
  cbn [bind]. specialize (F im2 eq_refl).
  unfold scale_image. destruct (size im2) as [w h].
  destruct (scaled_size w h (scale ch)) as [wh|e]; [|reflexivity]. cbn [bind].
  destruct (resize im2 wh) as [im3|e] eqn:E3; [|reflexivity]. cbn [bind].
  unfold ensure_rgba. now rewrite (resize_mode _ _ _ E3), F.
Qed.

(** X4. The sprite [as_image] returns is an RGBA image of at least one
    pixel in each direction, whatever the scale; and since the decoded
    image is RGBA from the start, the closing [ensure_rgba] never converts:
    [as_image] is decoding, mirroring if asked, and scaling. *)
Theorem as_image_sprite (ch : Character) :
  as_image ch
  = (img <- bytes_to_image (raw_bytes ch) ;;
     img <- flip_h_if_needed img (flip_h ch) ;;
     scale_image img (scale ch)) /\
  (forall sprite, as_image ch = Ok sprite ->
     mode sprite = "RGBA" /\
     1 <= fst (size sprite) /\ 1 <= snd (size sprite)).
Proof.
  split; [apply as_image_no_second_convert|].
  intros sprite E. destruct (as_image_spec ch sprite E) as [im [_ [M S]]].
  split; [exact M|]. exact (scaled_size_positive _ _ _ _ S).
Qed.

(** Drawing a list of characters raises as soon as one of them has no
    sprite. *)
Lemma draw_characters_raises (c : Image) (l : list Character) (ch : Character) :
  In ch l -> raised (as_image ch) = true ->
  raised (draw_characters c l) = true.
Proof.
  revert c. induction l as [|a l IH]; intros c Hin Hr; [contradiction|].
  simpl. destruct Hin as [-> | Hin].
  - unfold draw_character. destruct (as_image ch); [discriminate | reflexivity].
  - destruct (draw_character c a) as [c1|e]; [|reflexivity]. cbn [bind].
    now apply IH.
Qed.

Lemma compose_raises (canvas_w canvas_h : Z) (bg : Image)
    (chars : list Character) (ch : Character) :
  In ch chars -> raised (as_image ch) = true ->
  raised (compose canvas_w canvas_h bg chars) = true.
Proof.
  intros Hin Hr. unfold compose.
  destruct (Image_new _ _ _) as [c0|e]; [|reflexivity]. cbn [bind].
  destruct (alpha_composite c0 bg (0, 0)) as [c1|e]; [|reflexivity]. cbn [bind].
  apply (draw_characters_raises c1 _ ch); [|exact Hr].
  apply (Permutation_in ch (Permutation_sym (sorted_perm z chars))). exact Hin.
Qed.

(** X5. An upload that cannot be decoded is fatal for the whole render
    pass: [as_image] raises the decoder's exception for that character,
    [compose] raises whatever the other characters are, and the pass ends
    there with nothing put on the page (no preview, no export button) and
    the character list as it was. *)
Theorem undecodable_character_blocks_preview
    (prompt : string) (canvas_w canvas_h : Z) (bg : Image)
    (pdf_pages : Image -> list Character -> result bytes)
    (w : World) (ch : Character) (e : exn) :
  In ch (characters w) ->
  Image_open (raw_bytes ch) = Raise e ->
  as_image ch = Raise e /\
  raised (compose canvas_w canvas_h bg (characters w)) = true /\
  exists e', preview_and_export prompt canvas_w canvas_h bg pdf_pages w
             = (Raise e', w).
Proof.
  intros Hin Hopen.
  assert (Ea : as_image ch = Raise e).
  { unfold as_image, bytes_to_image. now rewrite Hopen. }
  assert (Hr : raised (compose canvas_w canvas_h bg (characters w)) = true).
  { apply (compose_raises _ _ _ _ ch); [exact Hin | now rewrite Ea]. }
  split; [exact Ea|]. split; [exact Hr|].
  unfold preview_and_export, render_preview, sbind, get_characters, lift.
  destruct (compose canvas_w canvas_h bg (characters w)) as [c|e'];
    [discriminate|].
  now exists e'.
Qed.

(** X6. Whatever the sprites are and wherever they are anchored (also
    partly or wholly off the canvas), a composite that [compose] returns has
    the size of the canvas. *)
Theorem compose_size (canvas_w canvas_h : Z) (bg : Image)
    (chars : list Character) (img : Image) :
  compose canvas_w canvas_h bg chars = Ok img ->
  size img = (canvas_w, canvas_h).
Proof.
  unfold compose.
  destruct (Image_new _ _ _) as [c0|e] eqn:E0; [|discriminate]. cbn [bind].
  destruct (alpha_composite c0 bg (0, 0)) as [c1|e] eqn:E1; [|discriminate].
  cbn [bind]. intros E.
  rewrite (draw_characters_size _ _ _ E), (composite_size _ _ _ _ E1).
  exact (new_size _ _ _ _ E0).
Qed.

(** X7. The background the script composes has the size of the canvas,
    uploaded or blank; an uploaded one is RGBA, and as it is RGBA from
    decoding on, [ensure_rgba] hands the resized image on as it is. *)
Theorem bg_img_size (bg_file : option bytes) (canvas_w canvas_h : Z) :
  (forall b, bg_img (Some b) canvas_w canvas_h
             = (im <- bytes_to_image b ;; resize im (canvas_w, canvas_h))) /\
  (forall img, bg_img bg_file canvas_w canvas_h = Ok img ->
     size img = (canvas_w, canvas_h) /\
     (bg_file <> None -> mode img = "RGBA")).
Proof.
  assert (A : forall b, bg_img (Some b) canvas_w canvas_h
             = (im <- bytes_to_image b ;; resize im (canvas_w, canvas_h))).
  { intros b. unfold bg_img, bytes_to_image.
    destruct (Image_open b) as [im|e]; [|reflexivity]. cbn [bind].
    destruct (convert im "RGBA") as [im1|e] eqn:E1; [|reflexivity]. cbn [bind].
    destruct (resize im1 _) as [im2|e] eqn:E2; [|reflexivity]. cbn [bind].
    unfold ensure_rgba.
    now rewrite (resize_mode _ _ _ E2), (convert_mode _ _ _ E1). }
  split; [exact A|].
  intros img. destruct bg_file as [b|].
  - rewrite A. unfold bytes_to_image.
    destruct (Image_open b) as [im|e]; [|discriminate]. cbn [bind].
    destruct (convert im "RGBA") as [im1|e] eqn:E1; [|discriminate]. cbn [bind].
    intros E2. split; [exact (resize_size _ _ _ E2)|]. intros _.
    now rewrite (resize_mode _ _ _ E2), (convert_mode _ _ _ E1).
  - unfold bg_img. intros E. split; [exact (new_size _ _ _ _ E)|].
    intros C. now contradiction C.
Qed.

(** X8. Where the background is opaque and no sprite reaches, the preview
    shows the background: for a point of the canvas at which the background
    has an opaque pixel and which lies outside every character's sprite, the
    composite has the background's pixel.  With the blank background that
    pixel is (10, 10, 10, 255). *)
Theorem background_shows_through (canvas_w canvas_h : Z) (bg : Image)
    (chars : list Character) (img : Image) (px py : Z) (c : rgba) :
  compose canvas_w canvas_h bg chars = Ok img ->
  0 <= px < canvas_w -> 0 <= py < canvas_h ->
  getpixel bg (px, py) = Some c ->
  alpha c = 255 ->
  (forall ch sprite dest,
      In ch chars -> as_image ch = Ok sprite ->
      sprite_dest sprite ch = Ok dest ->
      getpixel sprite (px - fst dest, py - snd dest) = None) ->
  getpixel img (px, py) = Some c /\
  (bg_img None canvas_w canvas_h = Ok bg -> c = (10, 10, 10, 255)).
Proof.
  intros E Hx Hy Hc Ha Hout. split.
  - unfold compose in E.
    destruct (Image_new _ _ _) as [c0|e] eqn:E0; [|discriminate].
    cbn [bind] in E.
    destruct (alpha_composite c0 bg (0, 0)) as [c1|e] eqn:E1; [|discriminate].
    cbn [bind] in E.
    rewrite (draw_characters_outside _ _ _ _ _ E).
    + apply (composite_opaque _ _ _ _ _ _ _ E1).
      * simpl. now rewrite !Z.sub_0_r.
      * exact Ha.
      * rewrite (new_size _ _ _ _ E0). simpl. lia.
    + intros ch sprite dest Hin Es Ed. apply (Hout ch); trivial.
      apply (Permutation_in ch (sorted_perm z chars)). exact Hin.
  - unfold bg_img. intros Eb. exact (new_pixel _ _ _ _ _ _ Eb Hc).
Qed.

End SpriteFacts.

Example as_image_demo_front :
  exists sprite, as_image demo_front = Ok sprite /\ size sprite = (3, 5).
Proof. eexists. split; reflexivity. Qed.

Lemma undecodable_character_blocks_preview_witness :
  as_image demo_broken
  = Raise (mk_exn UnidentifiedImageError "cannot identify image file") /\
  raised (compose 8 6 demo_canvas
            (characters (mk_World [demo_back; demo_broken; demo_front] [])))
  = true /\
  exists e', preview_and_export "" 8 6 demo_canvas (fun _ _ => Ok [])
               (mk_World [demo_back; demo_broken; demo_front] [])
             = (Raise e', mk_World [demo_back; demo_broken; demo_front] []).
Proof.
  apply (undecodable_character_blocks_preview "" 8 6 demo_canvas
           (fun _ _ => Ok [])
           (mk_World [demo_back; demo_broken; demo_front] []) demo_broken).
  - right. left. reflexivity.
  - reflexivity.
Defined.

Lemma compose_size_witness :
  exists img,
    compose 8 6 demo_canvas [demo_front; demo_back] = Ok img /\
    size img = (8, 6).
Proof.
  eexists. split; [reflexivity|].
  apply (compose_size 8 6 demo_canvas [demo_front; demo_back]). reflexivity.
Defined.

Lemma background_shows_through_witness :
  exists img,
    compose 8 6 demo_canvas [demo_front; demo_back] = Ok img /\
    getpixel img (0, 0) = Some (10, 10, 10, 255).
Proof.
  eexists. split; [reflexivity|].
  apply (background_shows_through 8 6 demo_canvas [demo_front; demo_back]
           _ 0 0 (10, 10, 10, 255)); try reflexivity; try lia.
  intros ch sprite dest [<- | [<- | []]] Es Ed;
    vm_compute in Es; injection Es as <-;
    vm_compute in Ed; injection Ed as <-; reflexivity.
Defined.

(* ------------------------------------------------------------------ *)
(** ** Adding characters *)

Lemma infer_returns (prompt : option string) (W H index total : Z) :
  total <> -1 ->
  exists x y, infer_position_from_prompt prompt W H index total = Ok (x, y).
Proof.
  intros Ht.
  destruct (infer_position_from_prompt prompt W H index total) as [[x y]|e] eqn:E.
  - now exists x, y.
  - exfalso. apply Ht.
    apply (proj1 (infer_raises_iff prompt W H index total)). now rewrite E.
Qed.

Lemma len_app {A : Type} (l m : list A) : len (l ++ m)%list = len l + len m.
Proof. unfold len. rewrite length_app. lia. Qed.

Lemma Ok_pair_inj {A B : Type} (a c : A) (b d : B) :
  Ok (a, b) = Ok (c, d) -> a = c /\ b = d.
Proof. intros E. injection E as -> ->. split; reflexivity. Qed.

Lemma len_nonneg {A : Type} (l : list A) : 0 <= len l.
Proof. unfold len. lia. Qed.

Section ButtonFacts.
Context {PIL : Pillow}.

(** The loop of the add button, started with [acc] already appended to the
    characters [cs] the session had: the file at position [i] is appended
    with index [len cs + 2 * (len acc + i)], the length of the list at that
    moment plus the position of the file. *)
Lemma add_loop (prompt : string) (W H total : Z) (cs : list Character)
    (pg : list Widget) :
  total <> -1 ->
  forall (fs : list bytes) (acc : list Character),
  exists added,
    for_each (enumerate_from (len acc) fs)
      (fun '(i, f) =>
         sbind get_characters (fun chars =>
         sbind (lift (infer_position_from_prompt (Some prompt) W H
                        (len chars + i) total)) (fun xy =>
         let '(x, y) := xy in
         set_characters
           (chars ++ [mk_Character ("Char " ++ str_of_int (len chars + i + 1))
                        f x y float_0_5 false (extract_actions (Some prompt))
                        (len chars + i)])%list)))
      (mk_World (cs ++ acc)%list pg)
    = (Ok tt, mk_World (cs ++ acc ++ added)%list pg) /\
    List.length added = List.length fs /\
    forall i f, nth_error fs i = Some f ->
      exists x y,
        infer_position_from_prompt (Some prompt) W H
          (len cs + 2 * (len acc + Z.of_nat i)) total = Ok (x, y) /\
        nth_error added i
        = Some (mk_Character
                  ("Char " ++
                   str_of_int (len cs + 2 * (len acc + Z.of_nat i) + 1))
                  f x y float_0_5 false (extract_actions (Some prompt))
                  (len cs + 2 * (len acc + Z.of_nat i))).
Proof.
  intros Ht fs. induction fs as [|f fs IH]; intros acc.
  - exists []. split; [now rewrite app_nil_r|]. split; [reflexivity|].
    intros [|i] f'; discriminate.
  - destruct (infer_returns (Some prompt) W H
                (len cs + 2 * (len acc + 0)) total Ht) as [x [y E]].
    set (c := mk_Character
                ("Char " ++ str_of_int (len cs + 2 * (len acc + 0) + 1))
                f x y float_0_5 false (extract_actions (Some prompt))
                (len cs + 2 * (len acc + 0))).
    destruct (IH (acc ++ [c])%list) as [added [Erun [Hlen Hnth]]].
    exists (c :: added). split; [|split].
    + cbn [for_each enumerate_from]. unfold sbind at 1. unfold sbind at 1.
      unfold get_characters at 1. cbn [characters page].
      replace (len (cs ++ acc)%list + len acc)
        with (len cs + 2 * (len acc + 0)) by (rewrite len_app; lia).
      unfold sbind at 1. unfold lift at 1. rewrite E.
      unfold set_characters at 1. cbn [characters page].
      fold c. rewrite <- app_assoc.
      replace (len acc + 1) with (len (acc ++ [c])%list)
        by (rewrite len_app; reflexivity).
      rewrite Erun. now rewrite <- app_assoc.
    + simpl. now rewrite Hlen.
    + intros [|i] f' Hf.
      * injection Hf as <-. exists x, y. split; [exact E | reflexivity].
      * simpl in Hf. destruct (Hnth i f' Hf) as [x' [y' [E' N']]].
        exists x', y'.
        replace (len acc + Z.of_nat (S i)) with (len (acc ++ [c])%list + Z.of_nat i)
          by (rewrite len_app; unfold len; simpl List.length; lia).
        split; [exact E' | exact N'].
Qed.

(** What one click on the add button does. *)
Lemma add_uploaded_characters_run (prompt : string) (canvas_w canvas_h : Z)
    (char_files : list bytes) (w : World) :
  exists added,
    add_uploaded_characters prompt canvas_w canvas_h char_files w
    = (Ok tt,
       mk_World (characters w ++ added)%list
         (page w ++ [st_success ("Added " ++ str_of_int (len char_files)
                                 ++ " character(s).")])%list) /\
    List.length added = List.length char_files /\
    forall i f, nth_error char_files i = Some f ->
      exists x y,
        infer_position_from_prompt (Some prompt) canvas_w canvas_h
          (len (characters w) + 2 * Z.of_nat i)
          (len (characters w) + len char_files) = Ok (x, y) /\
        nth_error added i
        = Some (mk_Character
                  ("Char " ++
                   str_of_int (len (characters w) + 2 * Z.of_nat i + 1))
                  f x y float_0_5 false (extract_actions (Some prompt))
                  (len (characters w) + 2 * Z.of_nat i)).
Proof.
  destruct w as [cs pg]. cbn [characters page].
  assert (Ht : len cs + len char_files <> -1).
  { pose proof (len_nonneg cs). pose proof (len_nonneg char_files). lia. }
  destruct (add_loop prompt canvas_w canvas_h (len cs + len char_files)
              cs pg Ht char_files []) as [added [Erun [Hlen Hnth]]].
  exists added. split; [|split].
  - unfold add_uploaded_characters. unfold sbind at 1.
    unfold get_characters at 1. cbn [characters page].
    unfold sbind at 1. unfold enumerate.
    change 0 with (len (@nil Character)) at 1.
    rewrite app_nil_r in Erun. cbv zeta.
    rewrite Erun. reflexivity.
  - exact Hlen.
  - intros i f Hf. destruct (Hnth i f Hf) as [x [y [E N]]].
    exists x, y. change (len (@nil Character)) with 0 in E, N.
    rewrite Z.add_0_l in E, N. split; [exact E | exact N].
Qed.


(** X9. The add button does nothing unless it is clicked with at least one
    file uploaded.  Then it never fails: it appends one character per file,
    in upload order, after the characters the session had, which it leaves
    alone, and reports the number added.  The index of the file at position
    [i] is the length of the list at that moment plus [i], that is
    [n0 + 2 * i] for [n0] characters before the click: the character is
    named [Char (n0 + 2 * i + 1)], gets [z = n0 + 2 * i], scale 0.5, no
    flip, the actions of the prompt, and the position inferred for index
    [n0 + 2 * i] among [n0 + n] characters. *)
Theorem add_uploaded_characters_spec (add_btn : bool) (prompt : string)
    (canvas_w canvas_h : Z) (char_files : list bytes) (w : World) :
  (add_btn = false \/ char_files = [] ->
   if_add_btn add_btn prompt canvas_w canvas_h char_files w = (Ok tt, w)) /\
  (add_btn = true -> char_files <> [] ->
   exists added,
    if_add_btn add_btn prompt canvas_w canvas_h char_files w
    = (Ok tt,
       mk_World (characters w ++ added)%list
         (page w ++ [st_success ("Added " ++ str_of_int (len char_files)
                                 ++ " character(s).")])%list) /\
    List.length added = List.length char_files /\
    forall i f, nth_error char_files i = Some f ->
      exists x y,
        infer_position_from_prompt (Some prompt) canvas_w canvas_h
          (len (characters w) + 2 * Z.of_nat i)
          (len (characters w) + len char_files) = Ok (x, y) /\
        nth_error added i
        = Some (mk_Character
                  ("Char " ++
                   str_of_int (len (characters w) + 2 * Z.of_nat i + 1))
                  f x y float_0_5 false (extract_actions (Some prompt))
                  (len (characters w) + 2 * Z.of_nat i))).
Proof.
  unfold if_add_btn. split.
  - intros [-> | ->]; [reflexivity|]. now rewrite andb_comm.
  - intros -> Hne.
    replace (len char_files =? 0) with false.
    + apply add_uploaded_characters_run.
    + symmetry. apply Z.eqb_neq. destruct char_files; [congruence|].
      unfold len. simpl List.length. lia.
Qed.

(** X10. Without a position keyword, the file at position [i] of [n]
    uploaded to a session of [n0] characters is anchored at
    [x = W - pad + (2 * i - n) * (W - 2 * pad) // (n0 + n + 1)] and
    [y = H - pad]: the index counts the characters of the batch twice.  So
    from the middle of the batch on ([2 * i >= n]) no anchor is left of the
    right end [W - pad] of the row; past the middle ([2 * i > n]) the
    anchors are strictly right of it when the row is at least [n0 + n + 1]
    pixels long ([n0 + n + 1 <= W - 2 * pad]; on a shorter row the step
    can round down to zero); and an anchor lies beyond the canvas when
    [(2 * i - n) * (W - 2 * pad) >= 41 * (n0 + n + 1)] (on a 1280 pixel
    canvas, the third of three files added to an empty session lands at
    x = 1540). *)
Theorem add_uploaded_characters_overshoot (prompt : string)
    (canvas_w canvas_h : Z) (char_files : list bytes) (w : World)
    (i : nat) (f : bytes) :
  no_position_keyword (Some prompt) ->
  nth_error char_files i = Some f ->
  exists ch,
    nth_error
      (characters
         (snd (add_uploaded_characters prompt canvas_w canvas_h char_files w)))
      (List.length (characters w) + i) = Some ch /\
    raw_bytes ch = f /\
    x ch = canvas_w - pad
           + (2 * Z.of_nat i - len char_files) * (canvas_w - 2 * pad)
             / (len (characters w) + len char_files + 1) /\
    y ch = canvas_h - pad /\
    (len char_files <= 2 * Z.of_nat i -> 2 * pad <= canvas_w ->
     canvas_w - pad <= x ch) /\
    (len char_files < 2 * Z.of_nat i ->
     len (characters w) + len char_files + 1 <= canvas_w - 2 * pad ->
     canvas_w - pad < x ch) /\
    (41 * (len (characters w) + len char_files + 1)
     <= (2 * Z.of_nat i - len char_files) * (canvas_w - 2 * pad) ->
     canvas_w < x ch).
Proof.
  intros Hno Hf.
  destruct (add_uploaded_characters_run prompt canvas_w canvas_h char_files w)
    as [added [Erun [Hlen Hnth]]].
  destruct (Hnth i f Hf) as [x0 [y0 [E N]]].
  rewrite infer_no_keyword in E by exact Hno.
  pose proof (len_nonneg (characters w)) as P0.
  pose proof (len_nonneg char_files) as P1.
  set (M := len (characters w) + len char_files + 1) in *.
  set (t := 2 * Z.of_nat i - len char_files) in *.
  set (D := canvas_w - 2 * pad) in *.
  assert (HM : 0 < M) by (unfold M; lia).
  unfold floordiv in E.
  replace (M =? 0) with false in E by (symmetry; apply Z.eqb_neq; lia).
  cbn [bind] in E. apply Ok_pair_inj in E. destruct E as [Ex Ey].
  assert (Q : (len (characters w) + 2 * Z.of_nat i + 1) * D / M
              = D + t * D / M).
  { replace ((len (characters w) + 2 * Z.of_nat i + 1) * D)
      with (D * M + t * D) by (unfold M, t; ring).
    apply Z.div_add_l. lia. }
  rewrite Q in Ex.
  eexists. split; [|split; [|split; [|split; [|split; [|split]]]]].
  - rewrite Erun. cbn [snd characters].
    rewrite nth_error_app2 by lia.
    replace (List.length (characters w) + i - List.length (characters w))%nat
      with i by lia.
    exact N.
  - reflexivity.
  - cbn [x]. rewrite <- Ex. unfold D, pad. lia.
  - cbn [y]. now rewrite <- Ey.
  - cbn [x]. intros Ht HD.
    assert (0 <= t * D / M)
      by (apply Z.div_le_lower_bound; [lia | unfold D, pad in *; nia]).
    rewrite <- Ex. unfold D, pad in *. lia.
  - cbn [x]. intros Ht HD.
    assert (1 <= t * D / M) by (apply Z.div_le_lower_bound; nia).
    rewrite <- Ex. unfold D, pad in *. lia.
  - cbn [x]. intros Hbig.
    assert (41 <= t * D / M) by (apply Z.div_le_lower_bound; lia).
    rewrite <- Ex. unfold D, pad in *. lia.
Qed.

(* ------------------------------------------------------------------ *)
(** ** Re-placing the characters *)

Lemma place_at_app (done rest : list Character) (ch : Character)
    (xy : Z * Z) (acts : list string) :
  place_at (List.length done) xy acts (done ++ ch :: rest)%list
  = (done ++ mk_Character (name ch) (raw_bytes ch) (fst xy) (snd xy)
               (scale ch) (flip_h ch) acts (z ch) :: rest)%list.
Proof.
  induction done as [|d done IH]; simpl; [reflexivity|]. now rewrite IH.
Qed.

(** The loop of the auto-place button, with the first characters [done]
    placed already. *)
Lemma auto_place_loop (prompt : string) (W H n : Z) (pg : list Widget) :
  n <> -1 ->
  forall (rest done : list Character),
  exists placed,
    for_each (enumerate_from (len done) rest)
      (fun '(i, _) =>
         sbind (lift (infer_position_from_prompt (Some prompt) W H i n))
           (fun xy =>
         sbind get_characters (fun chars =>
         set_characters
           (place_at (Z.to_nat i) xy (extract_actions (Some prompt)) chars))))
      (mk_World (done ++ rest)%list pg)
    = (Ok tt, mk_World (done ++ placed)%list pg) /\
    List.length placed = List.length rest /\
    forall i ch, nth_error rest i = Some ch ->
      exists x y,
        infer_position_from_prompt (Some prompt) W H
          (len done + Z.of_nat i) n = Ok (x, y) /\
        nth_error placed i
        = Some (mk_Character (name ch) (raw_bytes ch) x y (scale ch)
                  (flip_h ch) (extract_actions (Some prompt)) (z ch)).
Proof.
  intros Hn rest. induction rest as [|ch rest IH]; intros done.
  - exists []. split; [reflexivity|]. split; [reflexivity|].
    intros [|i] ch'; discriminate.
  - destruct (infer_returns (Some prompt) W H (len done) n Hn) as [x0 [y0 E]].
    set (c := mk_Character (name ch) (raw_bytes ch) x0 y0 (scale ch)
                (flip_h ch) (extract_actions (Some prompt)) (z ch)).
    destruct (IH (done ++ [c])%list) as [placed [Erun [Hlen Hnth]]].
    exists (c :: placed). split; [|split].
    + cbn [for_each enumerate_from]. unfold sbind at 1. unfold sbind at 1.
      unfold lift at 1. rewrite E.
      unfold sbind at 1. unfold get_characters at 1. cbn [characters page].
      unfold set_characters at 1. cbn [characters page].
      replace (Z.to_nat (len done)) with (List.length done)
        by (unfold len; now rewrite Nat2Z.id).
      rewrite place_at_app. cbn [fst snd]. fold c.
      replace (len done + 1) with (len (done ++ [c])%list)
        by (rewrite len_app; reflexivity).
      replace (done ++ c :: rest)%list with ((done ++ [c]) ++ rest)%list
        by (now rewrite <- app_assoc).
      rewrite Erun. now rewrite <- app_assoc.
    + simpl. now rewrite Hlen.
    + intros [|i] ch' Hc.
      * injection Hc as <-. exists x0, y0. rewrite Z.add_0_r.
        split; [exact E | reflexivity].
      * simpl in Hc. destruct (Hnth i ch' Hc) as [x' [y' [E' N']]].
        exists x', y'.
        replace (len done + Z.of_nat (S i))
          with (len (done ++ [c])%list + Z.of_nat i)
          by (rewrite len_app; unfold len; simpl List.length; lia).
        split; [exact E' | exact N'].
Qed.

(** What one click on the auto-place button does to a session. *)
Lemma auto_place_run (prompt : string) (canvas_w canvas_h : Z) (w : World) :
  exists placed,
    auto_place prompt canvas_w canvas_h w
    = (Ok tt,
       mk_World placed
         (page w ++ [st_toast "Re-positioned characters from prompt ✅"])%list)
    /\
    List.length placed = List.length (characters w) /\
    forall i ch, nth_error (characters w) i = Some ch ->
      exists x y,
        infer_position_from_prompt (Some prompt) canvas_w canvas_h
          (Z.of_nat i) (len (characters w)) = Ok (x, y) /\
        nth_error placed i
        = Some (mk_Character (name ch) (raw_bytes ch) x y (scale ch)
                  (flip_h ch) (extract_actions (Some prompt)) (z ch)).
Proof.
  destruct w as [cs pg]. cbn [characters page].
  assert (Hn : len cs <> -1) by (pose proof (len_nonneg cs); lia).
  destruct (auto_place_loop prompt canvas_w canvas_h (len cs) pg Hn cs [])
    as [placed [Erun [Hlen Hnth]]].
  exists placed. split; [|split].
  - unfold auto_place. unfold sbind at 1.
    unfold get_characters at 1. cbn [characters page].
    unfold sbind at 1. unfold enumerate.
    change 0 with (len (@nil Character)) at 1. cbv zeta.
    cbn [app] in Erun. rewrite Erun. reflexivity.
  - exact Hlen.
  - intros i ch Hc. destruct (Hnth i ch Hc) as [x0 [y0 [E N]]].
    exists x0, y0. change (len (@nil Character)) with 0 in E.
    rewrite Z.add_0_l in E. split; [exact E | exact N].
Qed.

(** X11. The auto-place button does nothing unless it is clicked on a
    session with characters.  Then it never fails: it keeps the number and
    order of the characters and, for each, the name, the image bytes, the
    scale, the flip and the z-order; the character at position [i] of [n]
    is moved to the position inferred for index [i] among [n], and every
    character gets the actions of the prompt. *)
Theorem auto_place_spec (auto_place_clicked : bool) (prompt : string)
    (canvas_w canvas_h : Z) (w : World) :
  (auto_place_clicked = false \/ characters w = [] ->
   if_auto_place_clicked auto_place_clicked prompt canvas_w canvas_h w
   = (Ok tt, w)) /\
  (auto_place_clicked = true -> characters w <> [] ->
   exists placed,
    if_auto_place_clicked auto_place_clicked prompt canvas_w canvas_h w
    = (Ok tt,
       mk_World placed
         (page w ++ [st_toast "Re-positioned characters from prompt ✅"])%list)
    /\
    List.length placed = List.length (characters w) /\
    forall i ch, nth_error (characters w) i = Some ch ->
      exists x y,
        infer_position_from_prompt (Some prompt) canvas_w canvas_h
          (Z.of_nat i) (len (characters w)) = Ok (x, y) /\
        nth_error placed i
        = Some (mk_Character (name ch) (raw_bytes ch) x y (scale ch)
                  (flip_h ch) (extract_actions (Some prompt)) (z ch))).
Proof.
  unfold if_auto_place_clicked. split.
  - intros [-> | ->]; [reflexivity|].
    change (len (@nil Character) =? 0) with true. now rewrite andb_false_r.
  - intros -> Hne.
    replace (len (characters w) =? 0) with false.
    + apply auto_place_run.
    + symmetry. apply Z.eqb_neq. destruct (characters w); [congruence|].
      unfold len. simpl List.length. lia.
Qed.

(** X12. Auto-place is idempotent on the character list: a second click
    with the same prompt and canvas changes no character. *)
Theorem auto_place_idempotent (prompt : string) (canvas_w canvas_h : Z)
    (w : World) :
  characters
    (snd (auto_place prompt canvas_w canvas_h
            (snd (auto_place prompt canvas_w canvas_h w))))
  = characters (snd (auto_place prompt canvas_w canvas_h w)).
Proof.
  destruct (auto_place_run prompt canvas_w canvas_h w)
    as [p1 [E1 [L1 N1]]].
  rewrite E1. cbn [snd].
  destruct (auto_place_run prompt canvas_w canvas_h
              (mk_World p1 (page w ++
                 [st_toast "Re-positioned characters from prompt ✅"])%list))
    as [p2 [E2 [L2 N2]]].
  rewrite E2. cbn [snd characters] in *.
  apply nth_error_ext. intros i.
  destruct (nth_error (characters w) i) as [ch|] eqn:Ec.
  - destruct (N1 i ch Ec) as [x1 [y1 [I1 P1]]].
    destruct (N2 i _ P1) as [x2 [y2 [I2 P2]]].
    unfold len in I2. rewrite L1 in I2. fold (len (characters w)) in I2.
    rewrite I1 in I2. injection I2 as <- <-.
    rewrite P1, P2. reflexivity.
  - apply nth_error_None in Ec.
    rewrite (proj2 (nth_error_None p1 i)) by lia.
    apply nth_error_None. lia.
Qed.

(** X13. After auto-place on a canvas of at least 80 by 80 pixels every
    character is anchored at least 40 pixels inside every edge, wherever it
    was before (also when the add button had put it beyond the canvas). *)
Theorem auto_place_inside_canvas (prompt : string) (canvas_w canvas_h : Z)
    (w : World) (ch : Character) :
  80 <= canvas_w -> 80 <= canvas_h ->
  In ch (characters (snd (auto_place prompt canvas_w canvas_h w))) ->
  pad <= x ch <= canvas_w - pad /\ pad <= y ch <= canvas_h - pad.
Proof.
  intros HW HH.
  destruct (auto_place_run prompt canvas_w canvas_h w)
    as [placed [E [L N]]].
  rewrite E. cbn [snd characters]. intros Hin.
  apply In_nth_error in Hin. destruct Hin as [i Hi].
  assert (Hlt : (i < List.length placed)%nat)
    by (apply nth_error_Some; congruence).
  destruct (nth_error (characters w) i) as [ch0|] eqn:Ec.
  - destruct (N i ch0 Ec) as [x0 [y0 [I P]]].
    rewrite P in Hi. injection Hi as <-. cbn [x y].
    destruct (infer_inside_canvas (Some prompt) canvas_w canvas_h
                (Z.of_nat i) (len (characters w)) HW HH) as [x1 [y1 [I' B]]].
    { unfold len. lia. }
    rewrite I in I'. injection I' as <- <-. exact B.
  - apply nth_error_None in Ec. lia.
Qed.

End ButtonFacts.

Lemma add_uploaded_characters_overshoot_witness :
  no_position_keyword (Some "two friends") /\
  exists ch,
    nth_error
      (characters
         (snd (add_uploaded_characters "two friends" 1280 720
                 [raw_bytes demo_front; raw_bytes demo_back;
                  raw_bytes demo_front] demo_world))) 2 = Some ch /\
    x ch = 1540 /\ 1280 < x ch.
Proof.
  assert (Hno : no_position_keyword (Some "two friends")).
  { intros k Hk. simpl in Hk.
    repeat destruct Hk as [<- | Hk]; try reflexivity. contradiction. }
  split; [exact Hno|].
  destruct (add_uploaded_characters_overshoot "two friends" 1280 720
              [raw_bytes demo_front; raw_bytes demo_back; raw_bytes demo_front]
              demo_world 2 (raw_bytes demo_front) Hno eq_refl)
    as [ch [N [_ [X [_ [_ [_ B]]]]]]].
  exists ch. split; [exact N|]. split; [rewrite X; reflexivity|].
  apply B. vm_compute. discriminate.
Defined.

Lemma auto_place_inside_canvas_witness :
  In (mk_Character "Char 2" (raw_bytes demo_back) 840 680 (percent 100) false
        ["walking"] 0)
     (characters (snd (auto_place "two friends walking" 1280 720
                         (mk_World [demo_front; demo_back] [])))) /\
  pad <= 840 <= 1280 - pad /\ pad <= 680 <= 720 - pad.
Proof.
  split; [right; left; reflexivity|].
  apply (auto_place_inside_canvas "two friends walking" 1280 720
           (mk_World [demo_front; demo_back] [])
           (mk_Character "Char 2" (raw_bytes demo_back) 840 680 (percent 100)
              false ["walking"] 0)); [lia | lia |].
  right. left. reflexivity.
Defined.

(* ------------------------------------------------------------------ *)
(** ** The percentage shown for a scale *)

(** X14. Reading a scale back as a percentage is not always the inverse of
    setting it: for a scale set to [k] percent, [k / 100.0], the program
    shows [int((k / 100.0) * 100)], which is [k] for every [k] from 0 to
    200 except 29, 57, 58, 113, 114, 115 and 116, where the binary64 product
    falls just below [k] and the truncation gives [k - 1].  On the grid of
    the scale slider (20 to 200 in steps of 5) the only such value is 115,
    shown as 114. *)
Theorem scale_percent_of_slider (k : Z) :
  0 <= k <= 200 ->
  scale_percent (percent k)
  = Ok (if existsb (Z.eqb k) percent_off_by_one then k - 1 else k) /\
  (k mod 5 = 0 -> k <> 115 -> scale_percent (percent k) = Ok k).
Proof.
  intros Hk.
  assert (C : all_below 201
                (fun k => match scale_percent (percent k) with
                          | Ok v => v =? (if existsb (Z.eqb k) percent_off_by_one
                                          then k - 1 else k)
                          | Raise _ => false
                          end) = true) by (vm_compute; reflexivity).
  pose proof (all_below_spec _ _ C k ltac:(lia)) as P. cbv beta in P.
  clear C.
  destruct (scale_percent (percent k)) as [v|e]; [|discriminate P].
  apply Z.eqb_eq in P. subst v. split; [reflexivity|].
  intros Hmod Hne.
  destruct (existsb (Z.eqb k) percent_off_by_one) eqn:E; [|reflexivity].
  exfalso. apply existsb_exists in E. destruct E as [j [Hin Hj]].
  apply Z.eqb_eq in Hj. subst j. unfold percent_off_by_one in Hin.
  simpl in Hin. clear Hk.
  repeat destruct Hin as [<- | Hin];
    try (vm_compute in Hmod; discriminate Hmod);
    contradiction.
Qed.

Lemma scale_percent_of_slider_witness :
  scale_percent (percent 115) = Ok 114 /\ scale_percent (percent 120) = Ok 120.
Proof.
  split.
  - exact (proj1 (scale_percent_of_slider 115 ltac:(lia))).
  - apply (proj2 (scale_percent_of_slider 120 ltac:(lia))); [reflexivity | lia].
Defined.

(* ------------------------------------------------------------------ *)
(** ** The per-character controls *)

Lemma update_nth_length {A : Type} (pos : nat) (f : A -> A) (l : list A) :
  List.length (update_nth pos f l) = List.length l.
Proof.
  revert pos; induction l as [|a l IH]; intros [|pos]; simpl; auto.
Qed.

Lemma nth_error_update_nth_eq {A : Type} (pos : nat) (f : A -> A)
    (l : list A) :
  nth_error (update_nth pos f l) pos = option_map f (nth_error l pos).
Proof.
  revert pos; induction l as [|a l IH]; intros [|pos]; simpl; auto.
Qed.

Lemma nth_error_update_nth_neq {A : Type} (pos p : nat) (f : A -> A)
    (l : list A) :
  p <> pos -> nth_error (update_nth pos f l) p = nth_error l p.
Proof.
  revert pos p; induction l as [|a l IH]; intros [|pos] [|p] H; simpl; auto;
    congruence.
Qed.

Lemma update_nth_twice {A : Type} (pos : nat) (f g : A -> A) (l : list A) :
  update_nth pos f (update_nth pos g l) = update_nth pos (fun a => f (g a)) l.
Proof.
  revert pos; induction l as [|a l IH]; intros [|pos]; simpl; auto.
  now rewrite IH.
Qed.

Lemma update_nth_at {A : Type} (pos : nat) (f : A -> A) (l : list A) (a : A) :
  nth_error l pos = Some a ->
  update_nth pos f l = update_nth pos (fun _ => f a) l.
Proof.
  revert pos; induction l as [|b l IH]; intros [|pos]; simpl; try discriminate.
  - intros E. now injection E as ->.
  - intros E. now rewrite (IH _ E).
Qed.

Lemma float_of_int_small (n : Z) :
  Z.abs n < 2 ^ 53 -> exists a, float_of_int n = Ok a.
Proof.
  intros Hn. destruct (Z.eq_dec n 0) as [-> | Hne].
  - now exists (S754_zero false).
  - rewrite dyadic_int by assumption. eexists. reflexivity.
Qed.

(** [new_scale / 100.0] is the scale called [percent new_scale]. *)
Lemma div_100_percent (n : Z) :
  Z.abs n < 2 ^ 53 -> div_100 n = Ok (percent n).
Proof.
  intros Hn. destruct (float_of_int_small n Hn) as [a E].
  unfold div_100, percent. rewrite E. reflexivity.
Qed.

Lemma map_snd_enumerate_from {A : Type} (k : Z) (l : list A) :
  map snd (enumerate_from k l) = l.
Proof.
  revert k; induction l as [|a l IH]; intros k; simpl; [reflexivity|].
  now rewrite IH.
Qed.

Lemma nth_error_enumerate_from {A : Type} (k : Z) (l : list A) (n : nat) :
  nth_error (enumerate_from k l) n
  = option_map (fun a => (k + Z.of_nat n, a)) (nth_error l n).
Proof.
  revert k n; induction l as [|a l IH]; intros k [|n]; simpl; try reflexivity.
  - now rewrite Z.add_0_r.
  - rewrite IH. destruct (nth_error l n); simpl; [|reflexivity].
    do 2 f_equal. lia.
Qed.

Lemma In_enumerate_from {A : Type} (k : Z) (l : list A) (i : Z) (a : A) :
  In (i, a) (enumerate_from k l) ->
  k <= i /\ nth_error l (Z.to_nat (i - k)) = Some a.
Proof.
  intros Hin. apply In_nth_error in Hin. destruct Hin as [n Hn].
  rewrite nth_error_enumerate_from in Hn.
  destruct (nth_error l n) as [b|] eqn:E; [|discriminate]. simpl in Hn.
  injection Hn as <- <-. split; [lia|].
  now replace (Z.to_nat (k + Z.of_nat n - k)) with n by lia.
Qed.

Lemma NoDup_enumerate_from {A : Type} (k : Z) (l : list A) :
  NoDup (map fst (enumerate_from k l)).
Proof.
  revert k; induction l as [|a l IH]; intros k; simpl; constructor.
  - intros Hin. apply in_map_iff in Hin. destruct Hin as [[i b] [E Hin]].
    simpl in E. subst i. apply In_enumerate_from in Hin. lia.
  - apply IH.
Qed.

Lemma enumerate_from_app {A : Type} (k : Z) (l m : list A) :
  enumerate_from k (l ++ m)%list
  = (enumerate_from k l ++ enumerate_from (k + len l) m)%list.
Proof.
  revert k; induction l as [|a l IH]; intros k; simpl.
  - now rewrite Z.add_0_r.
  - rewrite IH. do 3 f_equal. unfold len. simpl List.length. lia.
Qed.

(** The visits of a pass are fresh when it starts. *)
Lemma fresh_in_z_order (cs : list Character) :
  fresh (enumerate (in_z_order cs)) cs.
Proof.
  unfold fresh, enumerate, in_z_order.
  set (key := fun p : Z * Character => z (snd p)).
  pose proof (sorted_perm key (enumerate_from 0 cs)) as P. split.
  - rewrite <- map_map, map_snd_enumerate_from.
    apply (Permutation_NoDup (Permutation_map fst (Permutation_sym P))).
    apply NoDup_enumerate_from.
  - intros idx pos ch Hin.
    apply (in_map snd) in Hin. rewrite map_snd_enumerate_from in Hin.
    simpl in Hin. apply (Permutation_in _ P) in Hin.
    apply In_enumerate_from in Hin. now rewrite Z.sub_0_r in Hin.
Qed.

(** Every character has a rank in z-order. *)
Lemma in_z_order_covers (cs : list Character) (p : nat) (ch : Character) :
  nth_error cs p = Some ch ->
  exists idx, nth_error (in_z_order cs) idx = Some (Z.of_nat p, ch).
Proof.
  intros E. apply In_nth_error.
  apply (Permutation_in _ (Permutation_sym (sorted_perm _ (enumerate cs)))).
  apply (nth_error_In _ p). unfold enumerate.
  now rewrite nth_error_enumerate_from, E.
Qed.

Lemma in_z_order_length (cs : list Character) :
  List.length (in_z_order cs) = List.length cs.
Proof.
  unfold in_z_order.
  rewrite (Permutation_length (sorted_perm _ (enumerate cs))).
  unfold enumerate. rewrite <- (length_map snd), map_snd_enumerate_from.
  reflexivity.
Qed.

Section ControlsFacts.
Context {PIL : Pillow} {ST : Streamlit}.

Lemma apply_edits_run (u : Controls) (pos : nat) (cs : list Character)
    (pg : list Widget) (ch : Character) :
  nth_error cs pos = Some ch ->
  Z.abs (new_scale u) < 2 ^ 53 ->
  apply_edits u pos (mk_World cs pg)
  = (if remove u then Raise st_experimental_rerun else Ok tt,
     mk_World
       (if remove u
        then list_remove pos (edited u ch)
               (update_nth pos (fun _ => edited u ch) cs)
        else update_nth pos (fun _ => edited u ch) cs) pg).
Proof.
  intros Hch Hs. unfold apply_edits.
  unfold sbind at 1. unfold update_at at 1. cbn [characters page].
  unfold sbind at 1. unfold lift at 1. rewrite (div_100_percent _ Hs).
  unfold sbind at 1. unfold update_at at 1. cbn [characters page].
  unfold sbind at 1. unfold update_at at 1. cbn [characters page].
  unfold sbind at 1. unfold update_at at 1. cbn [characters page].
  rewrite !update_nth_twice.
  assert (U : forall f, update_nth pos f cs = update_nth pos (fun _ => f ch) cs)
    by (intros f; now apply update_nth_at).
  assert (N : forall c, nth_error (update_nth pos (fun _ => c) cs) pos = Some c)
    by (intros c; now rewrite nth_error_update_nth_eq, Hch).
  rewrite U.
  unfold sbind at 1. unfold edited.
  destruct (z_up u); destruct (z_down u);
    unfold update_at, ret, sbind; cbn [characters page];
    rewrite ?update_nth_twice; unfold set_z, set_xy, set_flip_h, set_scale,
      set_name; cbn [name raw_bytes x y scale flip_h actions z];
    destruct (remove u); unfold remove_character, ret, lift;
    cbn [characters page];
    rewrite ?N; rewrite ?Z.sub_0_r, ?Z.add_0_r; reflexivity.
Qed.

(** One visit whose widget calls return [u]: the character is edited, and
    then either removed, with the run stopped in the rerun call, or
    captioned. *)
Lemma visit_run (canvas_w canvas_h idx pos : Z) (ch : Character)
    (u : Controls) (cs : list Character) (pg : list Widget) :
  nth_error cs (Z.to_nat pos) = Some ch ->
  read_widgets canvas_w canvas_h idx ch = Ok u ->
  Z.abs (new_scale u) < 2 ^ 53 ->
  visit canvas_w canvas_h (idx, (pos, ch)) (mk_World cs pg)
  = if remove u
    then (Raise st_experimental_rerun,
          mk_World (list_remove (Z.to_nat pos) (edited u ch)
                      (update_nth (Z.to_nat pos) (fun _ => edited u ch) cs))
            pg)
    else (st_caption (caption_text (actions ch)),
          mk_World (update_nth (Z.to_nat pos) (fun _ => edited u ch) cs) pg).
Proof.
  intros Hch Hu Hs. unfold visit.
  unfold sbind at 1. unfold object_at at 1. cbn [characters].
  rewrite (nth_error_nth _ _ _ Hch).
  unfold sbind at 1. unfold lift at 1. rewrite Hu.
  unfold sbind at 1. rewrite (apply_edits_run _ _ _ _ ch Hch Hs).
  destruct (remove u); [reflexivity|].
  unfold sbind, object_at, lift. cbn [characters].
  assert (N : nth_error (update_nth (Z.to_nat pos) (fun _ => edited u ch) cs)
                (Z.to_nat pos) = Some (edited u ch))
    by now rewrite nth_error_update_nth_eq, Hch.
  rewrite (nth_error_nth _ _ _ N). reflexivity.
Qed.

(** A visit whose widget calls raise leaves the session as it is. *)
Lemma visit_raises (canvas_w canvas_h idx pos : Z) (ch : Character)
    (e : exn) (cs : list Character) (pg : list Widget) :
  nth_error cs (Z.to_nat pos) = Some ch ->
  read_widgets canvas_w canvas_h idx ch = Raise e ->
  visit canvas_w canvas_h (idx, (pos, ch)) (mk_World cs pg)
  = (Raise e, mk_World cs pg).
Proof.
  intros Hch Hu. unfold visit.
  unfold sbind at 1. unfold object_at at 1. cbn [characters].
  rewrite (nth_error_nth _ _ _ Hch).
  unfold sbind at 1. unfold lift at 1. now rewrite Hu.
Qed.

Lemma fresh_tail (v : Z * (Z * Character))
    (visits : list (Z * (Z * Character))) (cur : list Character)
    (f : Character -> Character) :
  fresh (v :: visits) cur ->
  fresh visits (update_nth (Z.to_nat (fst (snd v))) f cur) /\
  forall idx pos ch, In (idx, (pos, ch)) visits ->
    Z.to_nat pos <> Z.to_nat (fst (snd v)).
Proof.
  intros [Hnd Hin]. simpl in Hnd. inversion Hnd as [|? ? Hnotin Hnd']; subst.
  destruct v as [idx0 [pos0 ch0]]. cbn [fst snd] in *.
  destruct (Hin idx0 pos0 ch0 (or_introl eq_refl)) as [P0 _].
  assert (Hne : forall idx pos ch, In (idx, (pos, ch)) visits ->
                                   Z.to_nat pos <> Z.to_nat pos0).
  { intros idx pos ch Hv E.
    destruct (Hin idx pos ch (or_intror Hv)) as [P _].
    apply Hnotin. replace pos0 with pos by lia.
    apply (in_map (fun v => fst (snd v)) visits (idx, (pos, ch)) Hv). }
  split; [|exact Hne]. split; [exact Hnd'|].
  intros idx pos ch Hv. destruct (Hin idx pos ch (or_intror Hv)) as [P E].
  split; [exact P|].
  rewrite nth_error_update_nth_neq by (eapply Hne; eauto). exact E.
Qed.

(** The visits in which every call returns and no Remove button is
    clicked: each rewrites the entry at its own position and no other, and
    the loop goes on with what follows them. *)
Lemma controls_loop_prefix (canvas_w canvas_h : Z) (ui : Z -> Controls)
    (pg : list Widget) (rest : list (Z * (Z * Character))) :
  (forall idx, Z.abs (new_scale (ui idx)) < 2 ^ 53) ->
  forall (pre : list (Z * (Z * Character))) (cur : list Character),
  fresh (pre ++ rest)%list cur ->
  (forall idx pos ch, In (idx, (pos, ch)) pre ->
     read_widgets canvas_w canvas_h idx ch = Ok (ui idx) /\
     st_caption (caption_text (actions ch)) = Ok tt /\
     remove (ui idx) = false) ->
  exists cur',
    for_each (pre ++ rest)%list (visit canvas_w canvas_h) (mk_World cur pg)
    = for_each rest (visit canvas_w canvas_h) (mk_World cur' pg) /\
    fresh rest cur' /\
    List.length cur' = List.length cur /\
    (forall idx pos ch, In (idx, (pos, ch)) pre ->
       nth_error cur' (Z.to_nat pos) = Some (edited (ui idx) ch)) /\
    (forall p, (forall idx pos ch, In (idx, (pos, ch)) pre ->
                                   Z.to_nat pos <> p) ->
               nth_error cur' p = nth_error cur p).
Proof.
  intros Hs pre. induction pre as [|[idx0 [pos0 ch0]] pre IH];
    intros cur Hf Hw.
  - exists cur. cbn [app] in *. split; [reflexivity|]. split; [exact Hf|].
    split; [reflexivity|]. split; [intros ? ? ? []|trivial].
  - cbn [app] in Hf.
    destruct (proj2 Hf idx0 pos0 ch0 (or_introl eq_refl)) as [P0 E0].
    destruct (Hw idx0 pos0 ch0 (or_introl eq_refl)) as [W0 [C0 R0]].
    pose proof (fresh_tail _ _ _ (fun _ => edited (ui idx0) ch0) Hf)
      as [Hf' Hne]. cbn [fst snd] in Hf', Hne.
    destruct (IH _ Hf' (fun idx pos ch H => Hw idx pos ch (or_intror H)))
      as [cur' [Erun [Hfr [Hlen [Hin Hout]]]]].
    exists cur'. split; [|split; [exact Hfr|split; [|split]]].
    + cbn [app for_each]. unfold sbind at 1.
      rewrite (visit_run _ _ _ _ _ _ _ _ E0 W0 (Hs idx0)), R0, C0.
      exact Erun.
    + rewrite Hlen. apply update_nth_length.
    + intros idx pos ch [Hv | Hv].
      * injection Hv as <- <- <-.
        rewrite Hout
          by (intros idx pos ch Hv; apply (Hne idx pos ch);
              apply in_or_app; now left).
        now rewrite nth_error_update_nth_eq, E0.
      * now apply Hin.
    + intros p Hp. rewrite Hout.
      * apply nth_error_update_nth_neq.
        intros ->. now apply (Hp idx0 pos0 ch0 (or_introl eq_refl)).
      * intros idx pos ch Hv. apply (Hp idx pos ch). now right.
Qed.

(** X15. A pass over the per-character controls in which every Streamlit
    call returns and no Remove button is clicked rewrites every character
    in place: the list keeps its length and order, and the character of
    rank [idx] in z-order (ties in list order), wherever it sits in the
    list, takes the name, the scale, the flip and the position that the
    widgets keyed [idx] return, moves by one in z per z-button clicked, and
    keeps its image bytes and actions.  The widgets of a character are
    called with its own name, scale percentage, flip and position as
    starting values.  (What the widgets return is an input; scales below
    [2^53] percent.) *)
Theorem controls_edit_in_place (canvas_w canvas_h : Z) (ui : Z -> Controls)
    (w : World) :
  (if len (characters w) =? 0
   then st_info
          "No characters yet. Upload PNG characters in the section above."
   else st_columns 2) = Ok tt ->
  (forall idx pos ch,
     nth_error (in_z_order (characters w)) idx = Some (pos, ch) ->
     read_widgets canvas_w canvas_h (Z.of_nat idx) ch
     = Ok (ui (Z.of_nat idx)) /\
     st_caption (caption_text (actions ch)) = Ok tt) ->
  (forall idx, Z.abs (new_scale (ui idx)) < 2 ^ 53) ->
  (forall idx, remove (ui idx) = false) ->
  exists cs',
    manage_characters canvas_w canvas_h w = (Ok tt, mk_World cs' (page w)) /\
    List.length cs' = List.length (characters w) /\
    (forall idx pos ch,
       nth_error (in_z_order (characters w)) idx = Some (pos, ch) ->
       nth_error (characters w) (Z.to_nat pos) = Some ch /\
       nth_error cs' (Z.to_nat pos)
       = Some (mk_Character (new_name (ui (Z.of_nat idx))) (raw_bytes ch)
                 (new_x (ui (Z.of_nat idx))) (new_y (ui (Z.of_nat idx)))
                 (percent (new_scale (ui (Z.of_nat idx))))
                 (new_flip_h (ui (Z.of_nat idx))) (actions ch)
                 (z ch + (if z_up (ui (Z.of_nat idx)) then 1 else 0)
                  - (if z_down (ui (Z.of_nat idx)) then 1 else 0)))) /\
    (forall p ch, nth_error (characters w) p = Some ch ->
       exists idx,
         nth_error (in_z_order (characters w)) idx = Some (Z.of_nat p, ch)).
Proof.
  intros Hlay Hw Hs Hrm. destruct w as [cs pg]. cbn [characters page] in *.
  assert (Hw' : forall idx pos ch,
             In (idx, (pos, ch)) (enumerate (in_z_order cs)) ->
             read_widgets canvas_w canvas_h idx ch = Ok (ui idx) /\
             st_caption (caption_text (actions ch)) = Ok tt /\
             remove (ui idx) = false).
  { intros idx pos ch Hv. apply In_enumerate_from in Hv.
    destruct Hv as [H0 Hn]. rewrite Z.sub_0_r in Hn.
    destruct (Hw _ _ _ Hn) as [A B]. rewrite Z2Nat.id in A by lia.
    auto. }
  pose proof (fresh_in_z_order cs) as Hf.
  rewrite <- (app_nil_r (enumerate (in_z_order cs))) in Hf.
  destruct (controls_loop_prefix canvas_w canvas_h ui pg [] Hs _ cs Hf Hw')
    as [cs' [Erun [_ [Hlen [Hin _]]]]].
  rewrite app_nil_r in Erun.
  destruct (len cs =? 0) eqn:E0.
  - apply Z.eqb_eq in E0. destruct cs as [|c cs];
      [|unfold len in E0; simpl List.length in E0; lia].
    exists []. split; [|split; [reflexivity|split]].
    + unfold manage_characters, sbind, get_characters, lift.
      cbn [characters page]. change (len (@nil Character) =? 0) with true.
      cbv iota. now rewrite Hlay.
    + intros [|idx] pos ch; discriminate.
    + intros [|p] ch; discriminate.
  - exists cs'. split; [|split; [exact Hlen|split]].
    + unfold manage_characters. unfold sbind at 1.
      unfold get_characters at 1. cbn [characters page]. rewrite E0.
      unfold sbind at 1. unfold lift at 1. rewrite Hlay. exact Erun.
    + intros idx pos ch Hv.
      assert (Hi : In (Z.of_nat idx, (pos, ch)) (enumerate (in_z_order cs))).
      { apply (nth_error_In _ idx). unfold enumerate.
        now rewrite nth_error_enumerate_from, Hv. }
      split.
      * exact (proj2 (proj2 (fresh_in_z_order cs) _ _ _ Hi)).
      * exact (Hin _ _ _ Hi).
    + apply in_z_order_covers.
Qed.

(** [list_remove] deletes one entry: the first one equal to the value
    asked for, and at the latest the one at the position of the object. *)
Lemma list_remove_spec (pos : nat) (v : Character) (l : list Character) :
  (pos < List.length l)%nat ->
  exists j,
    (j <= pos)%nat /\
    list_remove pos v l = (firstn j l ++ skipn (S j) l)%list /\
    (j < pos ->
     exists a, nth_error l j = Some a /\ Character_eqb a v = true)%nat /\
    (forall i a, (i < j)%nat -> nth_error l i = Some a ->
                 Character_eqb a v = false).
Proof.
  revert pos; induction l as [|a l IH]; intros pos Hlt; [simpl in Hlt; lia|].
  destruct pos as [|pos].
  - exists 0%nat. simpl.
    split; [lia|]. split; [reflexivity|]. split; [lia | intros i b Hi; lia].
  - simpl list_remove. destruct (Character_eqb a v) eqn:E.
    + exists 0%nat. simpl.
      split; [lia|]. split; [reflexivity|]. split; [|intros i b Hi; lia].
      intros _. exists a. auto.
    + destruct (IH pos ltac:(simpl in Hlt; lia)) as [j [Hj [Er [Heq Hne]]]].
      exists (S j). split; [lia|]. split; [|split].
      * simpl. now rewrite Er.
      * intros Hlt'. apply Heq. lia.
      * intros [|i] b Hi; simpl.
        -- intros Hb. injection Hb as <-. exact E.
        -- apply Hne. lia.
Qed.

(** The split of the visits at rank [k]. *)
Lemma enumerate_split {A : Type} (l : list A) (k : nat) (a : A) :
  nth_error l k = Some a ->
  exists l1 l2,
    l = (l1 ++ a :: l2)%list /\ List.length l1 = k /\
    enumerate l
    = (enumerate_from 0 l1 ++
       (Z.of_nat k, a) :: enumerate_from (Z.of_nat k + 1) l2)%list.
Proof.
  intros Hk. destruct (nth_error_split _ _ Hk) as [l1 [l2 [EV Hl1]]].
  exists l1, l2. split; [exact EV|]. split; [exact Hl1|].
  unfold enumerate. rewrite EV, enumerate_from_app.
  cbn [enumerate_from]. unfold len. now rewrite Hl1, Z.add_0_l.
Qed.

(** X16. The Remove button.  When the first Remove clicked in z-order is
    that of the character of rank [k], and the Streamlit calls up to there
    return, the run of the script stops in the exception of
    [st.experimental_rerun()] (nothing of the script after the controls
    runs), and the session is left like this: the characters of rank up to
    [k] have been edited in place, those of higher rank are untouched (their
    widgets are not called in this run); then exactly one entry is deleted,
    the first one in the list that equals the edited clicked character
    field by field, which is the clicked character itself unless an earlier
    entry is its twin.  The other entries keep their order. *)
Theorem remove_button (canvas_w canvas_h : Z) (ui : Z -> Controls)
    (w : World) (k : nat) (pos : Z) (ch : Character) :
  st_columns 2 = Ok tt ->
  (forall i p c,
     (i <= k)%nat ->
     nth_error (in_z_order (characters w)) i = Some (p, c) ->
     read_widgets canvas_w canvas_h (Z.of_nat i) c = Ok (ui (Z.of_nat i))) ->
  (forall i p c,
     (i < k)%nat ->
     nth_error (in_z_order (characters w)) i = Some (p, c) ->
     st_caption (caption_text (actions c)) = Ok tt) ->
  (forall idx, Z.abs (new_scale (ui idx)) < 2 ^ 53) ->
  nth_error (in_z_order (characters w)) k = Some (pos, ch) ->
  remove (ui (Z.of_nat k)) = true ->
  (forall i, (i < k)%nat -> remove (ui (Z.of_nat i)) = false) ->
  exists cs1 j,
    manage_characters canvas_w canvas_h w
    = (Raise st_experimental_rerun,
       mk_World (firstn j cs1 ++ skipn (S j) cs1)%list (page w)) /\
    List.length cs1 = List.length (characters w) /\
    (forall i p c,
       nth_error (in_z_order (characters w)) i = Some (p, c) ->
       nth_error cs1 (Z.to_nat p)
       = Some (if (i <=? k)%nat then edited (ui (Z.of_nat i)) c else c)) /\
    (j <= Z.to_nat pos)%nat /\
    ((j < Z.to_nat pos)%nat ->
     exists a, nth_error cs1 j = Some a /\
               Character_eqb a (edited (ui (Z.of_nat k)) ch) = true) /\
    (forall i a, (i < j)%nat -> nth_error cs1 i = Some a ->
                 Character_eqb a (edited (ui (Z.of_nat k)) ch) = false).
Proof.
  intros Hlay Hw Hcap Hs Hk Hrm Hpre. destruct w as [cs pg].
  cbn [characters page] in *.
  pose proof (fresh_in_z_order cs) as Hf0.
  assert (HND : NoDup (map fst (in_z_order cs))).
  { destruct Hf0 as [N _]. unfold enumerate in N.
    now rewrite <- map_map, map_snd_enumerate_from in N. }
  assert (Hcs : forall i p c, nth_error (in_z_order cs) i = Some (p, c) ->
                  0 <= p /\ nth_error cs (Z.to_nat p) = Some c).
  { intros i p c Hi. apply (proj2 Hf0 (Z.of_nat i)).
    apply (nth_error_In _ i). unfold enumerate.
    now rewrite nth_error_enumerate_from, Hi. }
  destruct (enumerate_split _ _ _ Hk) as [l1 [l2 [EV [Hl1 Een]]]].
  pose proof Hf0 as Hf. rewrite Een in Hf.
  assert (Hl1i : forall i v, (i < k)%nat ->
             nth_error (in_z_order cs) i = Some v -> nth_error l1 i = Some v).
  { intros i v Hi E. rewrite EV in E. now rewrite nth_error_app1 in E by lia. }
  assert (Hl1V : forall i v, nth_error l1 i = Some v ->
             (i < k)%nat /\ nth_error (in_z_order cs) i = Some v).
  { intros i v E.
    assert (i < k)%nat by (rewrite <- Hl1; apply nth_error_Some; congruence).
    split; [assumption|]. rewrite EV. now rewrite nth_error_app1 by lia. }
  assert (Hw' : forall idx p c, In (idx, (p, c)) (enumerate_from 0 l1) ->
             read_widgets canvas_w canvas_h idx c = Ok (ui idx) /\
             st_caption (caption_text (actions c)) = Ok tt /\
             remove (ui idx) = false).
  { intros idx p c Hin. apply In_enumerate_from in Hin. destruct Hin as [H0 Hn].
    rewrite Z.sub_0_r in Hn. destruct (Hl1V _ _ Hn) as [Hlt HV].
    rewrite <- (Z2Nat.id idx) by lia.
    split; [apply (Hw _ p c); [lia | exact HV]|].
    split; [apply (Hcap _ p c Hlt HV) | now apply Hpre]. }
  destruct (controls_loop_prefix canvas_w canvas_h ui pg _ Hs _ cs Hf Hw')
    as [cs0 [Erun [Hfr [Hlen0 [Hin0 Hout0]]]]].
  destruct (proj2 Hfr _ _ _ (or_introl eq_refl)) as [Ppos Epos0].
  set (cs1 := update_nth (Z.to_nat pos)
                (fun _ => edited (ui (Z.of_nat k)) ch) cs0).
  assert (Hlen : List.length cs1 = List.length cs)
    by (unfold cs1; now rewrite update_nth_length).
  assert (Hlt : (Z.to_nat pos < List.length cs1)%nat).
  { rewrite Hlen. apply nth_error_Some. destruct (Hcs _ _ _ Hk). congruence. }
  assert (Hne1 : forall idx p c, In (idx, (p, c)) (enumerate_from 0 l1) ->
                   Z.to_nat p <> Z.to_nat pos).
  { intros idx p c Hin E.
    destruct (proj2 Hf idx p c (in_or_app _ _ _ (or_introl Hin))) as [Pp _].
    destruct Hf as [N _]. rewrite map_app in N. cbn [map fst snd] in N.
    apply NoDup_remove_2 in N. apply N. apply in_or_app. left.
    replace pos with p by lia.
    apply (in_map (fun v => fst (snd v)) _ (idx, (p, c)) Hin). }
  destruct (list_remove_spec _ (edited (ui (Z.of_nat k)) ch) _ Hlt)
    as [j [Hj [Er [Heq Hne]]]].
  exists cs1, j. split; [|split; [exact Hlen|split; [|split; [exact Hj|split]]]].
  - unfold manage_characters. unfold sbind at 1.
    unfold get_characters at 1. cbn [characters page].
    replace (len cs =? 0) with false.
    + unfold sbind at 1. unfold lift at 1. rewrite Hlay.
      rewrite Een, Erun. cbn [for_each]. unfold sbind at 1.
      rewrite (visit_run _ _ _ _ _ _ _ _ Epos0 (Hw k pos ch (le_n k) Hk)
                 (Hs _)), Hrm.
      fold cs1. now rewrite Er.
    + symmetry. apply Z.eqb_neq. unfold len.
      destruct (Hcs _ _ _ Hk) as [_ Ecs].
      assert (Z.to_nat pos < List.length cs)%nat
        by (apply nth_error_Some; congruence). lia.
  - intros i p c Hi. destruct (Hcs _ _ _ Hi) as [Pp Ep].
    destruct (Nat.eq_dec i k) as [-> | Hik].
    + rewrite Hk in Hi. injection Hi as <- <-. rewrite Nat.leb_refl.
      unfold cs1. now rewrite nth_error_update_nth_eq, Epos0.
    + assert (Hpne : Z.to_nat pos <> Z.to_nat p).
      { intros E. apply Hik. apply (proj1 (NoDup_nth_error _) HND).
        - rewrite length_map. apply nth_error_Some. congruence.
        - rewrite !nth_error_map, Hi, Hk. cbn [option_map fst].
          f_equal. lia. }
      unfold cs1.
      rewrite nth_error_update_nth_neq by (intros E; apply Hpne; now symmetry).
      destruct (i <=? k)%nat eqn:Eik.
      * apply Nat.leb_le in Eik. apply (Hin0 (Z.of_nat i)).
        apply (nth_error_In _ i).
        rewrite nth_error_enumerate_from, (Hl1i i (p, c)) by (trivial; lia).
        reflexivity.
      * apply Nat.leb_gt in Eik. rewrite Hout0; [exact Ep|].
        intros idx' p' c' Hin' Heq'.
        apply In_enumerate_from in Hin'. destruct Hin' as [H0 Hn].
        rewrite Z.sub_0_r in Hn. destruct (Hl1V _ _ Hn) as [Hlt' HV].
        destruct (Hcs _ _ _ HV) as [Pp' _].
        assert (p' = p) by lia. subst p'.
        assert (Z.to_nat idx' = i).
        { apply (proj1 (NoDup_nth_error _) HND).
          - rewrite length_map. apply nth_error_Some. congruence.
          - now rewrite !nth_error_map, Hi, HV. }
        lia.
  - exact Heq.
  - exact Hne.
Qed.

End ControlsFacts.

(* ------------------------------------------------------------------ *)
(** ** The z-buttons and the order of the list *)

Lemma Subseq_pair_app {A : Type} (l1 l2 l3 : list A) (a b : A) :
  Subseq [a; b] (l1 ++ a :: l2 ++ b :: l3)%list.
Proof.
  induction l1 as [|c l1 IH]; simpl.
  - apply Subseq_keep. apply Subseq_single. apply in_or_app. right. now left.
  - apply Subseq_skip. exact IH.
Qed.

(** X17. One click on Bring Forward raises z by one, and ties in z are
    drawn in list order; so whether the click lifts a character over the
    next one depends on where the two sit in the list.  A character [a]
    listed before [b] and below it ([z a < z b]) is still drawn before [b]
    after the click, also when the click makes their z equal.  A character
    [a] listed after [b] and one step below it is drawn before [b] until
    the click and after [b], that is on top of it, from then on. *)
Theorem bring_forward_ties (l1 l2 l3 : list Character) (a b : Character) :
  z a < z b ->
  (Subseq [a; b] (sorted z (l1 ++ a :: l2 ++ b :: l3)%list) /\
   Subseq [set_z (z a + 1) a; b]
     (sorted z (l1 ++ set_z (z a + 1) a :: l2 ++ b :: l3)%list)) /\
  (z a + 1 = z b ->
   Subseq [a; b] (sorted z (l1 ++ b :: l2 ++ a :: l3)%list) /\
   Subseq [b; set_z (z a + 1) a]
     (sorted z (l1 ++ b :: l2 ++ set_z (z a + 1) a :: l3)%list)).
Proof.
  intros Hz. split; [split|intros Htie; split].
  - apply sorted_keeps_order; [apply Subseq_pair_app | lia].
  - apply sorted_keeps_order; [apply Subseq_pair_app | simpl; lia].
  - apply sorted_swaps_order; [apply Subseq_pair_app | lia].
  - apply sorted_keeps_order; [apply Subseq_pair_app | simpl; lia].
Qed.

Lemma bring_forward_ties_witness :
  Subseq [set_z (z demo_back + 1) demo_back; demo_front]
    (sorted z [set_z (z demo_back + 1) demo_back; demo_front]) /\
  Subseq [demo_front; set_z (z demo_back + 1) demo_back]
    (sorted z [demo_front; set_z (z demo_back + 1) demo_back]).
Proof.
  split.
  - exact (proj2 (proj1 (bring_forward_ties [] [] [] demo_back demo_front
                           ltac:(simpl; lia)))).
  - exact (proj2 (proj2 (bring_forward_ties [] [] [] demo_back demo_front
                           ltac:(simpl; lia)) eq_refl)).
Defined.

Lemma controls_edit_in_place_witness :
  exists cs',
    manage_characters (ST := demo_streamlit ["zu_0"]) 8 6
      (mk_World [demo_front; demo_back] [])
    = (Ok tt, mk_World cs' []) /\
    List.length cs' = 2%nat /\
    nth_error cs' 1
    = Some (mk_Character "Char 2" (raw_bytes demo_back) 4 6 (percent 100)
              false [] 1).
Proof.
  destruct (controls_edit_in_place (ST := demo_streamlit ["zu_0"]) 8 6
              (demo_ui (fun idx => idx =? 0) (fun _ => false))
              (mk_World [demo_front; demo_back] []))
    as [cs' [E [L [Hin _]]]].
  - reflexivity.
  - intros [|[|idx]] pos ch Hv; [| |destruct idx; discriminate Hv];
      injection Hv as <- <-; split; reflexivity.
  - intros idx. reflexivity.
  - intros idx. reflexivity.
  - exists cs'. split; [exact E|]. split; [exact L|].
    exact (proj2 (Hin 0%nat 1 demo_back eq_refl)).
Defined.

Lemma remove_button_witness :
  exists cs,
    manage_characters (ST := demo_streamlit ["rm_1"]) 8 6
      (mk_World [demo_front; demo_back] [])
    = (Raise (mk_exn AttributeError
                "module 'streamlit' has no attribute 'experimental_rerun'"),
       mk_World cs []) /\
    List.length cs = 1%nat.
Proof.
  destruct (remove_button (ST := demo_streamlit ["rm_1"]) 8 6
              (demo_ui (fun _ => false) (fun idx => idx =? 1))
              (mk_World [demo_front; demo_back] []) 1 0 demo_front)
    as [cs1 [j [E [L _]]]].
  - reflexivity.
  - intros [|[|i]] p c Hi Hv; [| |lia]; injection Hv as <- <-; reflexivity.
  - intros [|i] p c Hi Hv; [|lia]. injection Hv as <- <-. reflexivity.
  - intros idx. reflexivity.
  - reflexivity.
  - reflexivity.
  - intros [|i] Hi; [reflexivity | lia].
  - exists (firstn j cs1 ++ skipn (S j) cs1)%list. split; [exact E|].
    assert (C : exists c,
               manage_characters (ST := demo_streamlit ["rm_1"]) 8 6
                 (mk_World [demo_front; demo_back] [])
               = (Raise st_experimental_rerun, mk_World [c] []))
      by (eexists; reflexivity).
    destruct C as [c C]. rewrite C in E.
    apply (f_equal (fun r => List.length (characters (snd r)))) in E.
    cbn [snd characters] in E. rewrite <- E. reflexivity.
Defined.

(* ------------------------------------------------------------------ *)
(** ** Export failures *)

Section ExportFacts.
Context {PIL : Pillow}.

(** X18. Only the PDF is optional.  When the composite cannot be encoded
    as PNG, the exception leaves the render pass: the preview is on the
    page, but none of the three download buttons is, the one for the scene
    JSON included, and the character list is untouched. *)
Theorem png_failure_blocks_exports (prompt : string) (canvas_w canvas_h : Z)
    (bg : Image) (pdf_pages : Image -> list Character -> result bytes)
    (w : World) (composite : Image) (e : exn) :
  compose canvas_w canvas_h bg (characters w) = Ok composite ->
  image_to_bytes composite "PNG" = Raise e ->
  preview_and_export prompt canvas_w canvas_h bg pdf_pages w
  = (Raise e,
     mk_World (characters w)
       (page w ++ [st_image composite "Composed scene"])%list).
Proof.
  intros Ec Es.
  unfold preview_and_export, render_preview, export_buttons.
  unfold sbind, get_characters, lift, emit, ret. cbn [characters page].
  rewrite Ec. cbn [characters page]. now rewrite Es.
Qed.

End ExportFacts.

(** A composite of the raster library that is too large for its file
    format: the preview is shown and the exports are not. *)
Lemma png_failure_blocks_exports_witness :
  exists composite e,
    compose 300 6 demo_wide [] = Ok composite /\
    preview_and_export "" 300 6 demo_wide (fun _ _ => Ok []) demo_world
    = (Raise e, mk_World [] [st_image composite "Composed scene"]).
Proof.
  eexists _, _. split; [reflexivity|].
  apply (png_failure_blocks_exports "" 300 6 demo_wide
           (fun _ _ => Ok []) demo_world); reflexivity.
Defined.

(** Removing the later of two characters that are equal field by field
    takes the earlier one out of the list: of [front; back; front], with
    Remove clicked on the last, [back; front] stays. *)
Example remove_twin :
  map name (characters (snd (manage_characters
                               (ST := demo_streamlit ["rm_2"]) 8 6
                               (mk_World [demo_front; demo_back; demo_front]
                                  []))))
  = ["Char 2"; "Char 1"].
Proof. reflexivity. Qed.

(** A character anchored outside the canvas stops the controls: the
    slider for X refuses the starting value 10 on a canvas 8 pixels wide
    and the exception leaves the script.  The characters before it in
    z-order have been edited by then (the first was brought forward); its
    own widgets and the rest of the script are not reached. *)
Example controls_off_canvas :
  exists msg,
    manage_characters (ST := demo_streamlit ["zu_0"]) 8 6
      (mk_World [demo_back; demo_front; demo_outside] [])
    = (Raise (mk_exn StreamlitAPIException msg),
       mk_World [set_z 1 demo_back; demo_front; demo_outside] []).
Proof. eexists. reflexivity. Qed.

(* ------------------------------------------------------------------ *)
(** ** Flipping *)

Section FlipFacts.
Context {PIL : Pillow}.

(** X19. Flipping a character neither resizes nor moves it: with the flip
    box set either way the sprite has the same size, and it is pasted at
    the same origin. *)
Theorem flip_keeps_sprite_box (ch : Character) (b : bool)
    (sprite sprite' : Image) :
  as_image ch = Ok sprite ->
  as_image (set_flip_h b ch) = Ok sprite' ->
  size sprite' = size sprite /\
  sprite_dest sprite' (set_flip_h b ch) = sprite_dest sprite ch.
Proof.
  intros E E'.
  destruct (as_image_spec _ _ E) as [im [Eo [_ S]]].
  destruct (as_image_spec _ _ E') as [im' [Eo' [_ S']]].
  cbn [set_flip_h raw_bytes scale] in Eo', S'.
  rewrite Eo in Eo'. injection Eo' as <-.
  rewrite S in S'. injection S' as S'.
  assert (Hsz : size sprite' = size sprite).
  { destruct (size sprite), (size sprite'). congruence. }
  split; [exact Hsz|].
  unfold sprite_dest. now rewrite Hsz.
Qed.

End FlipFacts.

Lemma flip_keeps_sprite_box_witness :
  exists sprite sprite',
    as_image demo_front = Ok sprite /\
    as_image (set_flip_h true demo_front) = Ok sprite' /\
    size sprite' = size sprite /\
    sprite_dest sprite' (set_flip_h true demo_front)
    = sprite_dest sprite demo_front.
Proof.
  eexists _, _. split; [reflexivity|]. split; [reflexivity|].
  apply (flip_keeps_sprite_box demo_front true); reflexivity.
Defined.
